(** * Lanczos image resizer: a shallow embedding of [internal/filters] and
    [internal/resize], with the properties of the resampling engine.

    Conventions of the embedding.
    - Go's [int] is [Z]; image dimensions are far below the 64-bit range, so
      no wrap-around is written for them.  Narrowing conversions
      ([uint8], [uint16], [uint32]) are written with their modulus.
    - Go's [float64] is read as a real number ([R]): infinities and NaN are
      not represented.  [int(f)] truncates toward zero.  In [filters],
      [resize] and [flat] the operations are those of the real numbers, with
      no rounding; [rounded] holds the engine of [resize.go] over an
      arbitrary arithmetic, and what is proved there holds whatever the
      rounding of the operations is.
    - A run-time panic (index out of range, negative [make] length) is the
      outcome [Panics]; a normal return is [Returns v].
    - A Go result pair [image, error] is a pair of options, [None] being
      [nil].
    - A source image is a value whose methods return, of one of the dynamic
      types [draw.Draw] tells apart.  [image.NewNRGBA] is embedded as it
      returns; [image.allocates] is the size check it makes before. *)

From Stdlib Require Import ZArith List Bool Ascii Reals Lra Lia.
Import ListNotations.

Local Open Scope Z_scope.

(** ** Outcomes of Go code that may panic *)

Inductive outcome (A : Type) : Type :=
| Returns (a : A)
| Panics.
Arguments Returns {A} a.
Arguments Panics {A}.

Definition bind {A B : Type} (m : outcome A) (k : A -> outcome B) : outcome B :=
  match m with
  | Returns a => k a
  | Panics => Panics
  end.

Declare Scope go_scope.
Delimit Scope go_scope with go.
Notation "x <- m ;; k" := (bind m (fun x => k))
  (at level 61, m at next level, right associativity) : go_scope.
Local Open Scope go_scope.

(** [for i := lo; i <= hi && cond(i, s); i++ { s = body(i, s) }], run for at
    most [n] iterations starting at [i]. *)
Fixpoint for_loop {S : Type} (n : nat) (i : Z) (cond : Z -> S -> bool)
    (body : Z -> S -> outcome S) (s : S) : outcome S :=
  match n with
  | O => Returns s
  | S n' =>
      if cond i s
      then s' <- body i s ;; for_loop n' (i + 1) cond body s'
      else Returns s
  end.

(** [for i := lo; i < hi; i++ { ... }] *)
Definition for_lt {S : Type} (lo hi : Z) (body : Z -> S -> outcome S) (s : S)
    : outcome S :=
  for_loop (Z.to_nat (hi - lo)) lo (fun _ _ => true) body s.

(** [for i := lo; i <= hi; i++ { ... }] *)
Definition for_le {S : Type} (lo hi : Z) (body : Z -> S -> outcome S) (s : S)
    : outcome S :=
  for_loop (Z.to_nat (hi - lo + 1)) lo (fun _ _ => true) body s.

(** ** Slices *)

Definition len {A : Type} (s : list A) : Z := Z.of_nat (length s).

(** [make([]T, n)]: [n] zero values; a negative length panics. *)
Definition make {A : Type} (zero : A) (n : Z) : outcome (list A) :=
  if n <? 0 then Panics else Returns (repeat zero (Z.to_nat n)).

Fixpoint update {A : Type} (s : list A) (i : nat) (v : A) : list A :=
  match s, i with
  | [], _ => []
  | _ :: t, O => v :: t
  | h :: t, S i' => h :: update t i' v
  end.

(** [s[i]] *)
Definition slice_get {A : Type} (s : list A) (i : Z) : outcome A :=
  if (0 <=? i) && (i <? len s)
  then match nth_error s (Z.to_nat i) with
       | Some v => Returns v
       | None => Panics
       end
  else Panics.

(** [s[i] = v] *)
Definition slice_set {A : Type} (s : list A) (i : Z) (v : A) : outcome (list A) :=
  if (0 <=? i) && (i <? len s)
  then Returns (update s (Z.to_nat i) v)
  else Panics.

(** ** Numbers *)

(** [float64] *)
Abbreviation float64 := R (only parsing).

(** [float64(n)] *)
Definition float64_of_int (n : Z) : float64 := IZR n.

(** [int(f)]: the fractional part is discarded (truncation toward zero). *)
Definition int_of_float64 (f : float64) : Z :=
  if Rle_dec 0 f then Zfloor f else Zceil f.

Definition uint8 (n : Z) : Z := n mod 256.
Definition uint16 (n : Z) : Z := n mod 65536.
Definition uint32 (n : Z) : Z := n mod 4294967296.

(** [uint16(f)] *)
Definition uint16_of_float64 (f : float64) : Z := uint16 (int_of_float64 f).

(** [a / b] on [int]: the quotient is truncated toward zero, and a zero
    divisor panics. *)
Definition int_div (a b : Z) : outcome Z :=
  if b =? 0 then Panics else Returns (Z.quot a b).

(** ** Package [filters] *)

Module filters.

Local Open Scope R_scope.

(** [func sinc(value float64) float64] *)
Definition sinc (value : float64) : float64 :=
  if Req_dec_T value 0 then 1
  else sin (PI * value) / (PI * value).

(** [type Lanczos struct { Radius int }] *)
Record Lanczos : Type := NewLanczos { Radius : Z }.

(** [Lanczos.Kernel(value float64) float64] *)
Definition Lanczos_Kernel (l : Lanczos) (value : float64) : float64 :=
  let value := Rabs value in
  if Rlt_dec value (float64_of_int (Radius l))
  then sinc value * sinc (value / float64_of_int (Radius l))
  else 0.

(** [type Resampler interface { Kernel(value float64) float64 }].  The only
    implementation in the repository is [Lanczos]; any other implementation
    is its kernel function. *)
Inductive Resampler : Type :=
| OfLanczos (l : Lanczos)
| OfKernel (k : float64 -> float64).

Definition Kernel (f : Resampler) (value : float64) : float64 :=
  match f with
  | OfLanczos l => Lanczos_Kernel l value
  | OfKernel k => k value
  end.

End filters.

(** ** Package [image/color] (Go standard library), as far as the resizer
    uses it *)

Module color.

(** The value of [Color.RGBA()]: alpha-premultiplied red, green, blue and
    alpha, each a [uint32] holding 16 bits. *)
Record RGBA : Type := mkRGBA { red : Z; green : Z; blue : Z; alpha : Z }.

(** [color.NRGBA]: 8 bits per channel, not premultiplied. *)
Record NRGBA : Type := mkNRGBA { R8 : Z; G8 : Z; B8 : Z; A8 : Z }.

(** [color.NRGBA64]: 16 bits per channel, not premultiplied. *)
Record NRGBA64 : Type := mkNRGBA64 { R16 : Z; G16 : Z; B16 : Z; A16 : Z }.

(** [func (c NRGBA) RGBA()]: [r |= r << 8; r *= a; r /= 0xff]. *)
Definition NRGBA_RGBA (c : NRGBA) : RGBA :=
  let widen v := Z.lor v (Z.shiftl v 8) in
  let ch v := uint32 (widen (uint32 v) * uint32 (A8 c)) / 255 in
  mkRGBA (ch (R8 c)) (ch (G8 c)) (ch (B8 c)) (widen (uint32 (A8 c))).

(** [func (c NRGBA64) RGBA()]: [r *= a; r /= 0xffff]. *)
Definition NRGBA64_RGBA (c : NRGBA64) : RGBA :=
  let ch v := uint32 (uint32 v * uint32 (A16 c)) / 65535 in
  mkRGBA (ch (R16 c)) (ch (G16 c)) (ch (B16 c)) (uint32 (A16 c)).

(** [func nrgbaModel(c Color) Color] for a colour that is not a [color.NRGBA],
    on the colour's [RGBA()] value. *)
Definition nrgbaModel (c : RGBA) : NRGBA :=
  if alpha c =? 65535 then
    mkNRGBA (uint8 (Z.shiftr (red c) 8)) (uint8 (Z.shiftr (green c) 8))
            (uint8 (Z.shiftr (blue c) 8)) 255
  else if alpha c =? 0 then mkNRGBA 0 0 0 0
  else
    let un v := uint32 (v * 65535) / alpha c in
    mkNRGBA (uint8 (Z.shiftr (un (red c)) 8)) (uint8 (Z.shiftr (un (green c)) 8))
            (uint8 (Z.shiftr (un (blue c)) 8)) (uint8 (Z.shiftr (alpha c) 8)).

(** A [color.Color] as [color.NRGBAModel] sees it: a colour whose dynamic
    type is [color.NRGBA], or a colour of any other type, which the model
    reads through its [RGBA()] value. *)
Inductive Color : Type :=
| IsNRGBA (c : NRGBA)
| HasRGBA (c : RGBA).

(** [c.RGBA()] *)
Definition Color_RGBA (c : Color) : RGBA :=
  match c with
  | IsNRGBA c => NRGBA_RGBA c
  | HasRGBA c => c
  end.

(** [color.NRGBAModel.Convert(c)]: [nrgbaModel] with its first statement,
    [if _, ok := c.(NRGBA); ok { return c }]. *)
Definition NRGBAModel_Convert (c : Color) : NRGBA :=
  match c with
  | IsNRGBA c => c
  | HasRGBA c => nrgbaModel c
  end.

End color.

(** ** Package [image] (Go standard library), as far as the resizer uses it *)

Module image.

Record Point : Type := Pt { X : Z; Y : Z }.

Record Rectangle : Type := mkRectangle { Min : Point; Max : Point }.

Definition Dx (r : Rectangle) : Z := X (Max r) - X (Min r).
Definition Dy (r : Rectangle) : Z := Y (Max r) - Y (Min r).

(** [image.Rect(x0, y0, x1, y1)]: the coordinates are put in order. *)
Definition Rect (x0 y0 x1 y1 : Z) : Rectangle :=
  let '(x0, x1) := if x1 <? x0 then (x1, x0) else (x0, x1) in
  let '(y0, y1) := if y1 <? y0 then (y1, y0) else (y0, y1) in
  mkRectangle (Pt x0 y0) (Pt x1 y1).

(** [p.In(r)] *)
Definition In (p : Point) (r : Rectangle) : bool :=
  (X (Min r) <=? X p) && (X p <? X (Max r)) &&
  (Y (Min r) <=? Y p) && (Y p <? Y (Max r)).

(** [r.Empty()] *)
Definition Empty (r : Rectangle) : bool :=
  (X (Max r) <=? X (Min r)) || (Y (Max r) <=? Y (Min r)).

(** [r.Add(p)] *)
Definition Add (r : Rectangle) (p : Point) : Rectangle :=
  mkRectangle (Pt (X (Min r) + X p) (Y (Min r) + Y p))
              (Pt (X (Max r) + X p) (Y (Max r) + Y p)).

(** [r.Intersect(s)]: the zero rectangle when the two do not overlap. *)
Definition Intersect (r s : Rectangle) : Rectangle :=
  let r' := mkRectangle (Pt (Z.max (X (Min r)) (X (Min s))) (Z.max (Y (Min r)) (Y (Min s))))
                        (Pt (Z.min (X (Max r)) (X (Max s))) (Z.min (Y (Max r)) (Y (Max s)))) in
  if Empty r' then mkRectangle (Pt 0 0) (Pt 0 0) else r'.

(** [image.NRGBA]: the pixel store is addressed by coordinate. *)
Record NRGBA : Type := mkNRGBA {
  NRect : Rectangle;
  Pix : Z -> Z -> color.NRGBA
}.

(** [mul3NonNeg(x, y, z)]: the product, or [-1] when an argument is negative
    or a step of the product leaves the 64-bit range. *)
Definition mul3NonNeg (x y z : Z) : Z :=
  if (x <? 0) || (y <? 0) || (z <? 0) then -1
  else if 2 ^ 64 <=? x * y then -1
  else if 2 ^ 64 <=? x * y * z then -1
  else if 2 ^ 63 <=? x * y * z then -1
  else x * y * z.

(** [pixelBufferLength(4, r, "NRGBA")] does not panic: [image.NewNRGBA(r)]
    panics ("Rectangle has huge or negative dimensions") unless the length of
    its pixel buffer, four bytes a pixel, is a non-negative [int]. *)
Definition allocates (r : Rectangle) : bool :=
  0 <=? mul3NonNeg 4 (Dx r) (Dy r).

(** [image.NewNRGBA(r)], when it returns: every pixel is the zero colour. *)
Definition NewNRGBA (r : Rectangle) : NRGBA :=
  mkNRGBA r (fun _ _ => color.mkNRGBA 0 0 0 0).

(** [func (p NRGBA) Set(x, y, c)] for a colour [c] that is not a
    [color.NRGBA], given by its [RGBA()] value: nothing is stored outside the
    bounds; inside, the colour is converted by [color.NRGBAModel]. *)
Definition NRGBA_Set (p : NRGBA) (x y : Z) (c : color.RGBA) : NRGBA :=
  if In (Pt x y) (NRect p)
  then mkNRGBA (NRect p)
         (fun x' y' => if (x' =? x) && (y' =? y) then color.nrgbaModel c
                       else Pix p x' y')
  else p.

(** [func (p NRGBA) At(x, y)], as its [RGBA()] value: the zero colour outside
    the bounds. *)
Definition NRGBA_At (p : NRGBA) (x y : Z) : color.RGBA :=
  if In (Pt x y) (NRect p) then color.NRGBA_RGBA (Pix p x y)
  else color.NRGBA_RGBA (color.mkNRGBA 0 0 0 0).

(** [func (p NRGBA) Set(x, y, c)] for a colour [c] that is a [color.NRGBA]:
    [color.NRGBAModel] returns such a colour as it is. *)
Definition NRGBA_SetNRGBA (p : NRGBA) (x y : Z) (c : color.NRGBA) : NRGBA :=
  if In (Pt x y) (NRect p)
  then mkNRGBA (NRect p)
         (fun x' y' => if (x' =? x) && (y' =? y) then c else Pix p x' y')
  else p.

(** [func (p NRGBA) Set(x, y, c)] for a colour of either kind. *)
Definition NRGBA_SetColor (p : NRGBA) (x y : Z) (c : color.Color) : NRGBA :=
  NRGBA_SetNRGBA p x y (color.NRGBAModel_Convert c).

(** The pixel [func (p NRGBA) SetRGBA64(x, y, c color.RGBA64)] stores: the
    channels are divided by the alpha unless it is [0] or [0xffff], and the
    high byte of each is kept.  The [color.RGBA64] is given by the [RGBA()]
    value it holds, each channel a [uint16]. *)
Definition ofRGBA64 (c : color.RGBA) : color.NRGBA :=
  let a := uint32 (uint16 (color.alpha c)) in
  let un v :=
    let v := uint32 (uint16 v) in
    if negb (a =? 0) && negb (a =? 65535) then uint32 (v * 65535) / a else v in
  color.mkNRGBA (uint8 (Z.shiftr (un (color.red c)) 8))
                (uint8 (Z.shiftr (un (color.green c)) 8))
                (uint8 (Z.shiftr (un (color.blue c)) 8))
                (uint8 (Z.shiftr a 8)).

(** [func (p NRGBA) SetRGBA64(x, y, c)]: nothing is stored outside the
    bounds. *)
Definition NRGBA_SetRGBA64 (p : NRGBA) (x y : Z) (c : color.RGBA) : NRGBA :=
  NRGBA_SetNRGBA p x y (ofRGBA64 c).

(** [image.Image]: the interface the resizer reads a source through, with
    the dynamic types [draw.Draw] tells apart.
    - [OfNRGBA p]: an [image.NRGBA].
    - [mkImage bounds at]: an image of another type that has [RGBA64At]
      ([image.RGBA64Image], which every other image type of the standard
      library is); [at x y] is the [RGBA()] value of the colour [At(x, y)],
      and [RGBA64At(x, y)] holds the same four channels.
    - [OfColors bounds at]: any other implementation, read through [At]
      alone, whose colours have a dynamic type of their own.
    The methods of a source are taken to return. *)
Inductive Image : Type :=
| OfNRGBA (p : NRGBA)
| mkImage (bounds : Rectangle) (at_ : Z -> Z -> color.RGBA)
| OfColors (bounds : Rectangle) (at_ : Z -> Z -> color.Color).

(** [m.Bounds()] *)
Definition Bounds (m : Image) : Rectangle :=
  match m with
  | OfNRGBA p => NRect p
  | mkImage bounds _ => bounds
  | OfColors bounds _ => bounds
  end.

(** [m.At(x, y).RGBA()] *)
Definition At (m : Image) (x y : Z) : color.RGBA :=
  match m with
  | OfNRGBA p => NRGBA_At p x y
  | mkImage _ at_ => at_ x y
  | OfColors _ at_ => color.Color_RGBA (at_ x y)
  end.

(** An [image.NRGBA] used as an [image.Image]. *)
Definition as_Image (p : NRGBA) : Image := OfNRGBA p.

End image.

(** ** Package [image/draw] (Go standard library): [draw.Draw] with [draw.Src]
    into an [image.NRGBA] *)

Module draw.

(** [clip]: the rectangle is cut to the destination and to the translated
    source bounds, and the source point moves with its corner. *)
Definition clip (dst : image.NRGBA) (r : image.Rectangle) (src : image.Image)
    (sp : image.Point) : image.Rectangle * image.Point :=
  let orig := image.Min r in
  let r := image.Intersect r (image.NRect dst) in
  let r := image.Intersect r
             (image.Add (image.Bounds src)
                (image.Pt (image.X orig - image.X sp) (image.Y orig - image.Y sp))) in
  let dx := image.X (image.Min r) - image.X orig in
  let dy := image.Y (image.Min r) - image.Y orig in
  (r, image.Pt (image.X sp + dx) (image.Y sp + dy)).

(** The double loop of [draw.Draw] over the clipped rectangle, [store]
    setting one pixel from the source point that goes with it. *)
Definition drawLoop (dst : image.NRGBA) (r : image.Rectangle) (sp : image.Point)
    (store : image.NRGBA -> Z -> Z -> Z -> Z -> image.NRGBA) : outcome image.NRGBA :=
  for_lt (image.Y (image.Min r)) (image.Y (image.Max r))
    (fun y dst =>
       for_lt (image.X (image.Min r)) (image.X (image.Max r))
         (fun x dst =>
            let sx := image.X sp + x - image.X (image.Min r) in
            let sy := image.Y sp + y - image.Y (image.Min r) in
            Returns (store dst x y sx sy))
         dst)
    dst.

(** [draw.Draw(dst, r, src, sp, draw.Src)] into an [image.NRGBA], by the
    dynamic type of the source:
    - an [image.NRGBA] is copied as it is ([drawCopySrc] copies the bytes of
      each row; here pixel by pixel);
    - an image that has [RGBA64At] goes through
      [dst.SetRGBA64(x, y, src.RGBA64At(sx, sy))];
    - any other through [dst.Set(x, y, src.At(sx, sy))]. *)
Definition Draw (dst : image.NRGBA) (r : image.Rectangle) (src : image.Image)
    (sp : image.Point) : outcome image.NRGBA :=
  let '(r, sp) := clip dst r src sp in
  if image.Empty r then Returns dst
  else
    match src with
    | image.OfNRGBA src0 =>
        drawLoop dst r sp
          (fun dst x y sx sy => image.NRGBA_SetNRGBA dst x y (image.Pix src0 sx sy))
    | image.mkImage _ at_ =>
        drawLoop dst r sp
          (fun dst x y sx sy => image.NRGBA_SetRGBA64 dst x y (at_ sx sy))
    | image.OfColors _ at_ =>
        drawLoop dst r sp
          (fun dst x y sx sy => image.NRGBA_SetColor dst x y (at_ sx sy))
    end.

(** The pixel [draw.Draw] stores for the source point [(sx, sy)]. *)
Definition drawn (src : image.Image) (sx sy : Z) : color.NRGBA :=
  match src with
  | image.OfNRGBA src0 => image.Pix src0 sx sy
  | image.mkImage _ at_ => image.ofRGBA64 (at_ sx sy)
  | image.OfColors _ at_ => color.NRGBAModel_Convert (at_ sx sy)
  end.

End draw.

(** ** Package [resize] *)

Module resize.

Import filters.

(** The errors [Resize] and its passes return. *)
Inductive error : Type :=
| ErrNilSource                          (* "source image is nil" *)
| ErrInvalidDimensions (width height : Z) (* "invalid dimensions: width=%d, height=%d" *)
| ErrVerticalWeights                    (* "failed to calculate weights for vertical resize" *)
| ErrHorizontalWeights.                 (* "failed to calculate weights for horizontal resize" *)

(** The result pair [(image, error)] of [Resize] and of the two passes. *)
Definition result : Type := (option image.NRGBA * option error)%type.

Section Geometry.

Local Open Scope R_scope.

(** [scale := float64(srcSize) / float64(dstSize)] *)
Definition scaleOf (srcSize dstSize : Z) : float64 :=
  float64_of_int srcSize / float64_of_int dstSize.

(** [support := filterRadius; if scale > 1.0 { support *= scale }] *)
Definition supportOf (filterRadius scale : float64) : float64 :=
  if Rlt_dec 1 scale then filterRadius * scale else filterRadius.

(** [center := (float64(dstIdx)+0.5)*scale - 0.5] *)
Definition centerOf (dstIdx : Z) (scale : float64) : float64 :=
  (float64_of_int dstIdx + 0.5) * scale - 0.5.

(** [left := int(center - support); if left < 0 { left = 0 }] *)
Definition leftOf (center support : float64) : Z :=
  let left := int_of_float64 (center - support) in
  if (left <? 0)%Z then 0%Z else left.

(** [right := int(center + support); if right >= srcSize { right = srcSize - 1 }] *)
Definition rightOf (center support : float64) (srcSize : Z) : Z :=
  let right := int_of_float64 (center + support) in
  if (right >=? srcSize)%Z then (srcSize - 1)%Z else right.

(** [filterRadius := 1.0; if lanczos, ok := filter.(Lanczos); ok { ... }] *)
Definition filterRadiusOf (filter : Resampler) : float64 :=
  match filter with
  | OfLanczos lanczos => float64_of_int (Radius lanczos)
  | OfKernel _ => 1
  end.

(** [weightsPerPixel := int(2*support) + 1] *)
Definition weightsPerPixelOf (support : float64) : Z :=
  (int_of_float64 (2 * support)%R + 1)%Z.

(** The kernel value of source index [srcIdx] for a destination pixel centred
    at [center]: the filter is stretched by [scale] when downsampling. *)
Definition weightOf (filter : Resampler) (scale center : float64) (srcIdx : Z)
    : float64 :=
  let distance := float64_of_int srcIdx - center in
  if Rlt_dec 1 scale then Kernel filter (distance / scale)
  else Kernel filter distance.

End Geometry.

(** The state of the loop over [srcIdx] that fills one row of the table. *)
Record rowState : Type := mkRowState {
  rowWeights : list float64;
  weightSum : float64;
  weightIdx : Z
}.

(** The loop [for srcIdx := left; srcIdx <= right; srcIdx++] of
    [calculateWeights]: a non-zero weight is stored at [weightIdx] and added
    to [weightSum]. *)
Definition fillRow (filter : Resampler) (scale center : float64)
    (left right : Z) (row : list float64) : outcome rowState :=
  for_le left right
    (fun srcIdx st =>
       let weight := weightOf filter scale center srcIdx in
       if Req_dec_T weight 0
       then Returns (mkRowState (rowWeights st) (weightSum st) (weightIdx st + 1))
       else
         row' <- slice_set (rowWeights st) (weightIdx st) weight ;;
         Returns (mkRowState row' (weightSum st + weight)%R (weightIdx st + 1)))
    (mkRowState row 0%R 0).

(** The loop [for i := 0; i < weightsPerPixel; i++ { row[i] /= weightSum }]. *)
Definition normalizeRow (weightsPerPixel : Z) (sum : float64)
    (row : list float64) : outcome (list float64) :=
  for_lt 0 weightsPerPixel
    (fun i row =>
       w <- slice_get row i ;;
       slice_set row i (w / sum)%R)
    row.

(** The body of the loop over [dstIdx] in [calculateWeights]: the row of
    destination index [dstIdx].  The source allocates the row in
    [weights[dstIdx]] and fills and normalizes it in place; nothing reads the
    table meanwhile, so here the row is stored once it is complete. *)
Definition weightsRow (srcSize : Z) (filter : Resampler)
    (scale support : float64) (weightsPerPixel dstIdx : Z)
    : outcome (list float64) :=
  let center := centerOf dstIdx scale in
  let left := leftOf center support in
  let right := rightOf center support srcSize in
  row <- make 0%R weightsPerPixel ;;
  st <- fillRow filter scale center left right row ;;
  if Rlt_dec 0 (weightSum st)
  then normalizeRow weightsPerPixel (weightSum st) (rowWeights st)
  else Returns (rowWeights st).

(** [func calculateWeights(srcSize, dstSize int, filter filters.Resampler) [][]float64]
    ([resize.go]); [None] is the [nil] table. *)
Definition calculateWeights (srcSize dstSize : Z) (filter : Resampler)
    : outcome (option (list (list float64))) :=
  if (srcSize <=? 0) || (dstSize <=? 0) then Returns None
  else
    let scale := scaleOf srcSize dstSize in
    let support := supportOf (filterRadiusOf filter) scale in
    let weightsPerPixel := weightsPerPixelOf support in
    weights <- make (@nil float64) dstSize ;;
    weights <- for_lt 0 dstSize
      (fun dstIdx weights =>
         row <- weightsRow srcSize filter scale support weightsPerPixel dstIdx ;;
         slice_set weights dstIdx row)
      weights ;;
    Returns (Some weights).

(** The accumulators of one destination pixel, with the coordinates at which
    the source was read ([src.At]), latest first. *)
Record accState : Type := mkAccState {
  accR : float64;
  accG : float64;
  accB : float64;
  accA : float64;
  accIdx : Z;
  accReads : list image.Point
}.

(** The loop [for srcY := left; srcY <= right && weightIdx < len(pixelWeights); srcY++]
    of the two passes; [coord] gives the source coordinate of a source index. *)
Definition accumulate (src : image.Image) (coord : Z -> image.Point)
    (pixelWeights : list float64) (left right : Z) : outcome accState :=
  for_loop (Z.to_nat (right - left + 1)) left
    (fun _ st => accIdx st <? len pixelWeights)
    (fun srcIdx st =>
       weight <- slice_get pixelWeights (accIdx st) ;;
       if Req_dec_T weight 0
       then Returns (mkAccState (accR st) (accG st) (accB st) (accA st)
                       (accIdx st + 1) (accReads st))
       else
         let p := coord srcIdx in
         let srcColor := image.At src (image.X p) (image.Y p) in
         Returns (mkAccState
                    (accR st + float64_of_int (color.red srcColor) * weight)%R
                    (accG st + float64_of_int (color.green srcColor) * weight)%R
                    (accB st + float64_of_int (color.blue srcColor) * weight)%R
                    (accA st + float64_of_int (color.alpha srcColor) * weight)%R
                    (accIdx st + 1) (p :: accReads st)))
    (mkAccState 0%R 0%R 0%R 0%R 0 []).

(** [if v < 0 { v = 0 } else if v > 65535 { v = 65535 }] *)
Definition clamp (v : float64) : float64 :=
  if Rlt_dec v 0 then 0%R
  else if Rlt_dec 65535 v then 65535%R
  else v.

(** The colour [color.NRGBA64{uint16(r), uint16(g), uint16(b), uint16(a)}]
    of the clamped accumulators. *)
Definition narrow (st : accState) : color.NRGBA64 :=
  color.mkNRGBA64 (uint16_of_float64 (clamp (accR st)))
                  (uint16_of_float64 (clamp (accG st)))
                  (uint16_of_float64 (clamp (accB st)))
                  (uint16_of_float64 (clamp (accA st))).

(** The body of the inner loop of a pass: the state of destination index
    [dstIdx] on an axis of source length [srcSize] and destination length
    [dstSize], read through [coord]. *)
Definition resamplePixel (src : image.Image) (coord : Z -> image.Point)
    (weights : list (list float64)) (filter : Lanczos)
    (srcSize dstSize dstIdx : Z) : outcome accState :=
  pixelWeights <- slice_get weights dstIdx ;;
  let scale := scaleOf srcSize dstSize in
  let center := centerOf dstIdx scale in
  let support := supportOf (float64_of_int (Radius filter)) scale in
  let left := leftOf center support in
  let right := rightOf center support srcSize in
  accumulate src coord pixelWeights left right.

(** [func resizeVertical(src image.Image, height int) (image, error)] *)
Definition resizeVertical (src : image.Image) (height : Z) : outcome result :=
  let srcBounds := image.Bounds src in
  let srcWidth := image.Dx srcBounds in
  let srcHeight := image.Dy srcBounds in
  if srcHeight =? height then
    let dst := image.NewNRGBA (image.Rect 0 0 srcWidth height) in
    dst <- draw.Draw dst (image.NRect dst) src (image.Min srcBounds) ;;
    Returns (Some dst, None)
  else
    let dst := image.NewNRGBA (image.Rect 0 0 srcWidth height) in
    let filter := NewLanczos 3 in
    weights <- calculateWeights srcHeight height (OfLanczos filter) ;;
    match weights with
    | None => Returns (None, Some ErrVerticalWeights)
    | Some weights =>
        dst <- for_lt 0 srcWidth
          (fun x dst =>
             for_lt 0 height
               (fun dstY dst =>
                  st <- resamplePixel src
                          (fun srcY => image.Pt (x + image.X (image.Min srcBounds))
                                                (srcY + image.Y (image.Min srcBounds)))
                          weights filter srcHeight height dstY ;;
                  Returns (image.NRGBA_Set dst x dstY
                             (color.NRGBA64_RGBA (narrow st))))
               dst)
          dst ;;
        Returns (Some dst, None)
    end.

(** [func resizeHorizontal(src image.Image, width int) (image, error)] *)
Definition resizeHorizontal (src : image.Image) (width : Z) : outcome result :=
  let srcBounds := image.Bounds src in
  let srcWidth := image.Dx srcBounds in
  let srcHeight := image.Dy srcBounds in
  if srcWidth =? width then
    let dst := image.NewNRGBA (image.Rect 0 0 width srcHeight) in
    dst <- draw.Draw dst (image.NRect dst) src (image.Min srcBounds) ;;
    Returns (Some dst, None)
  else
    let dst := image.NewNRGBA (image.Rect 0 0 width srcHeight) in
    let filter := NewLanczos 3 in
    weights <- calculateWeights srcWidth width (OfLanczos filter) ;;
    match weights with
    | None => Returns (None, Some ErrHorizontalWeights)
    | Some weights =>
        dst <- for_lt 0 srcHeight
          (fun y dst =>
             for_lt 0 width
               (fun dstX dst =>
                  st <- resamplePixel src
                          (fun srcX => image.Pt (srcX + image.X (image.Min srcBounds))
                                                (y + image.Y (image.Min srcBounds)))
                          weights filter srcWidth width dstX ;;
                  Returns (image.NRGBA_Set dst dstX y
                             (color.NRGBA64_RGBA (narrow st))))
               dst)
          dst ;;
        Returns (Some dst, None)
    end.

(** [func Resize(src image.Image, width, height int) (image, error)];
    a [nil] source is [None]. *)
Definition Resize (src : option image.Image) (width height : Z) : outcome result :=
  let dstWidth := width in
  let dstHeight := height in
  match src with
  | None => Returns (None, Some ErrNilSource)
  | Some src =>
      if (dstWidth <=? 0) || (dstHeight <=? 0)
      then Returns (None, Some (ErrInvalidDimensions width height))
      else
        let srcWidth := image.Dx (image.Bounds src) in
        let srcHeight := image.Dy (image.Bounds src) in
        if negb (srcWidth =? dstWidth) && negb (srcHeight =? dstHeight) then
          r <- resizeHorizontal src dstWidth ;;
          match r with
          | (_, Some err) => Returns (None, Some err)
          | (None, None) => Panics   (* nil image dereferenced by the vertical pass *)
          | (Some image, None) => resizeVertical (image.as_Image image) dstHeight
          end
        else if negb (srcWidth =? dstWidth) then resizeHorizontal src dstWidth
        else resizeVertical src dstHeight
  end.

End resize.

(** ** The engine under a rounding arithmetic

    The operations of [float64] round their results.  [filters] and
    [resize] above read them as the operations of the real numbers.  Here
    the same statements of [filter.go] and [resize.go] are embedded over an
    arbitrary arithmetic on the same values: what is proved for every
    arithmetic holds whatever the rounding is.  Comparisons, [math.Abs], the
    constants of the source and the conversions [int(f)] and [uint16(f)] of
    a value in range are exact in [float64], and are those of [resize]. *)

Module rounded.

Import filters resize.

(** The operations of [float64] the engine uses.  Go may fuse a product with
    the sum or the difference it feeds into one operation with one rounding:
    [mulAdd x y z] is [z + x*y] and [mulSub x y z] is [x*y - z], each as the
    program computes it. *)
Record Arith : Type := mkArith {
  add : float64 -> float64 -> float64;
  sub : float64 -> float64 -> float64;
  mul : float64 -> float64 -> float64;
  div : float64 -> float64 -> float64;
  mulAdd : float64 -> float64 -> float64 -> float64;
  mulSub : float64 -> float64 -> float64 -> float64;
  Sin : float64 -> float64;              (* [math.Sin] *)
  Pi : float64;                          (* [math.Pi] *)
  ofInt : Z -> float64                   (* [float64(n)] *)
}.

(** The arithmetic of the real numbers: the one [filters] and [resize] are
    written in. *)
Definition exact : Arith :=
  mkArith Rplus Rminus Rmult Rdiv
          (fun x y z => (z + x * y)%R) (fun x y z => (x * y - z)%R)
          sin PI IZR.

Section Engine.

Variable fa : Arith.

(** [func sinc(value float64) float64] *)
Definition sinc (value : float64) : float64 :=
  if Req_dec_T value 0 then 1%R
  else div fa (Sin fa (mul fa (Pi fa) value)) (mul fa (Pi fa) value).

(** [Lanczos.Kernel(value float64) float64] *)
Definition Lanczos_Kernel (l : Lanczos) (value : float64) : float64 :=
  let value := Rabs value in
  if Rlt_dec value (ofInt fa (Radius l))
  then mul fa (sinc value) (sinc (div fa value (ofInt fa (Radius l))))
  else 0%R.

(** [filter.Kernel(value)] *)
Definition Kernel (f : Resampler) (value : float64) : float64 :=
  match f with
  | OfLanczos l => Lanczos_Kernel l value
  | OfKernel k => k value
  end.

(** [scale := float64(srcSize) / float64(dstSize)] *)
Definition scaleOf (srcSize dstSize : Z) : float64 :=
  div fa (ofInt fa srcSize) (ofInt fa dstSize).

(** [support := filterRadius; if scale > 1.0 { support *= scale }] *)
Definition supportOf (filterRadius scale : float64) : float64 :=
  if Rlt_dec 1 scale then mul fa filterRadius scale else filterRadius.

(** [center := (float64(dstIdx)+0.5)*scale - 0.5] *)
Definition centerOf (dstIdx : Z) (scale : float64) : float64 :=
  mulSub fa (add fa (ofInt fa dstIdx) 0.5%R) scale 0.5%R.

(** [left := int(center - support); if left < 0 { left = 0 }] *)
Definition leftOf (center support : float64) : Z :=
  let left := int_of_float64 (sub fa center support) in
  if left <? 0 then 0 else left.

(** [right := int(center + support); if right >= srcSize { right = srcSize - 1 }] *)
Definition rightOf (center support : float64) (srcSize : Z) : Z :=
  let right := int_of_float64 (add fa center support) in
  if right >=? srcSize then srcSize - 1 else right.

(** [filterRadius := 1.0; if lanczos, ok := filter.(Lanczos); ok { ... }] *)
Definition filterRadiusOf (filter : Resampler) : float64 :=
  match filter with
  | OfLanczos lanczos => ofInt fa (Radius lanczos)
  | OfKernel _ => 1%R
  end.

(** [weightsPerPixel := int(2*support) + 1] *)
Definition weightsPerPixelOf (support : float64) : Z :=
  int_of_float64 (mul fa 2%R support) + 1.

(** The kernel value of source index [srcIdx] for a destination pixel centred
    at [center]: [distance := float64(srcIdx) - center], and the filter is
    stretched by [scale] when downsampling. *)
Definition weightOf (filter : Resampler) (scale center : float64) (srcIdx : Z)
    : float64 :=
  let distance := sub fa (ofInt fa srcIdx) center in
  if Rlt_dec 1 scale then Kernel filter (div fa distance scale)
  else Kernel filter distance.

(** The loop [for srcIdx := left; srcIdx <= right; srcIdx++] of
    [calculateWeights]. *)
Definition fillRow (filter : Resampler) (scale center : float64)
    (left right : Z) (row : list float64) : outcome rowState :=
  for_le left right
    (fun srcIdx st =>
       let weight := weightOf filter scale center srcIdx in
       if Req_dec_T weight 0
       then Returns (mkRowState (rowWeights st) (weightSum st) (weightIdx st + 1))
       else
         row' <- slice_set (rowWeights st) (weightIdx st) weight ;;
         Returns (mkRowState row' (add fa (weightSum st) weight) (weightIdx st + 1)))
    (mkRowState row 0%R 0).

(** The loop [for i := 0; i < weightsPerPixel; i++ { row[i] /= weightSum }]. *)
Definition normalizeRow (weightsPerPixel : Z) (sum : float64)
    (row : list float64) : outcome (list float64) :=
  for_lt 0 weightsPerPixel
    (fun i row =>
       w <- slice_get row i ;;
       slice_set row i (div fa w sum))
    row.

(** The body of the loop over [dstIdx] in [calculateWeights]. *)
Definition weightsRow (srcSize : Z) (filter : Resampler)
    (scale support : float64) (weightsPerPixel dstIdx : Z)
    : outcome (list float64) :=
  let center := centerOf dstIdx scale in
  let left := leftOf center support in
  let right := rightOf center support srcSize in
  row <- make 0%R weightsPerPixel ;;
  st <- fillRow filter scale center left right row ;;
  if Rlt_dec 0 (weightSum st)
  then normalizeRow weightsPerPixel (weightSum st) (rowWeights st)
  else Returns (rowWeights st).

(** [func calculateWeights(srcSize, dstSize int, filter filters.Resampler) [][]float64]
    ([resize.go]) *)
Definition calculateWeights (srcSize dstSize : Z) (filter : Resampler)
    : outcome (option (list (list float64))) :=
  if (srcSize <=? 0) || (dstSize <=? 0) then Returns None
  else
    let scale := scaleOf srcSize dstSize in
    let support := supportOf (filterRadiusOf filter) scale in
    let weightsPerPixel := weightsPerPixelOf support in
    weights <- make (@nil float64) dstSize ;;
    weights <- for_lt 0 dstSize
      (fun dstIdx weights =>
         row <- weightsRow srcSize filter scale support weightsPerPixel dstIdx ;;
         slice_set weights dstIdx row)
      weights ;;
    Returns (Some weights).

(** The loop [for srcY := left; srcY <= right && weightIdx < len(pixelWeights); srcY++]
    of the two passes. *)
Definition accumulate (src : image.Image) (coord : Z -> image.Point)
    (pixelWeights : list float64) (left right : Z) : outcome accState :=
  for_loop (Z.to_nat (right - left + 1)) left
    (fun _ st => accIdx st <? len pixelWeights)
    (fun srcIdx st =>
       weight <- slice_get pixelWeights (accIdx st) ;;
       if Req_dec_T weight 0
       then Returns (mkAccState (accR st) (accG st) (accB st) (accA st)
                       (accIdx st + 1) (accReads st))
       else
         let p := coord srcIdx in
         let srcColor := image.At src (image.X p) (image.Y p) in
         Returns (mkAccState
                    (mulAdd fa (ofInt fa (color.red srcColor)) weight (accR st))
                    (mulAdd fa (ofInt fa (color.green srcColor)) weight (accG st))
                    (mulAdd fa (ofInt fa (color.blue srcColor)) weight (accB st))
                    (mulAdd fa (ofInt fa (color.alpha srcColor)) weight (accA st))
                    (accIdx st + 1) (p :: accReads st)))
    (mkAccState 0%R 0%R 0%R 0%R 0 []).

(** The body of the inner loop of a pass, up to the accumulators. *)
Definition resamplePixel (src : image.Image) (coord : Z -> image.Point)
    (weights : list (list float64)) (filter : Lanczos)
    (srcSize dstSize dstIdx : Z) : outcome accState :=
  pixelWeights <- slice_get weights dstIdx ;;
  let scale := scaleOf srcSize dstSize in
  let center := centerOf dstIdx scale in
  let support := supportOf (ofInt fa (Radius filter)) scale in
  let left := leftOf center support in
  let right := rightOf center support srcSize in
  accumulate src coord pixelWeights left right.

(** [func resizeVertical(src image.Image, height int) (image, error)] *)
Definition resizeVertical (src : image.Image) (height : Z) : outcome result :=
  let srcBounds := image.Bounds src in
  let srcWidth := image.Dx srcBounds in
  let srcHeight := image.Dy srcBounds in
  if srcHeight =? height then
    let dst := image.NewNRGBA (image.Rect 0 0 srcWidth height) in
    dst <- draw.Draw dst (image.NRect dst) src (image.Min srcBounds) ;;
    Returns (Some dst, None)
  else
    let dst := image.NewNRGBA (image.Rect 0 0 srcWidth height) in
    let filter := NewLanczos 3 in
    weights <- calculateWeights srcHeight height (OfLanczos filter) ;;
    match weights with
    | None => Returns (None, Some ErrVerticalWeights)
    | Some weights =>
        dst <- for_lt 0 srcWidth
          (fun x dst =>
             for_lt 0 height
               (fun dstY dst =>
                  st <- resamplePixel src
                          (fun srcY => image.Pt (x + image.X (image.Min srcBounds))
                                                (srcY + image.Y (image.Min srcBounds)))
                          weights filter srcHeight height dstY ;;
                  Returns (image.NRGBA_Set dst x dstY
                             (color.NRGBA64_RGBA (narrow st))))
               dst)
          dst ;;
        Returns (Some dst, None)
    end.

(** [func resizeHorizontal(src image.Image, width int) (image, error)] *)
Definition resizeHorizontal (src : image.Image) (width : Z) : outcome result :=
  let srcBounds := image.Bounds src in
  let srcWidth := image.Dx srcBounds in
  let srcHeight := image.Dy srcBounds in
  if srcWidth =? width then
    let dst := image.NewNRGBA (image.Rect 0 0 width srcHeight) in
    dst <- draw.Draw dst (image.NRect dst) src (image.Min srcBounds) ;;
    Returns (Some dst, None)
  else
    let dst := image.NewNRGBA (image.Rect 0 0 width srcHeight) in
    let filter := NewLanczos 3 in
    weights <- calculateWeights srcWidth width (OfLanczos filter) ;;
    match weights with
    | None => Returns (None, Some ErrHorizontalWeights)
    | Some weights =>
        dst <- for_lt 0 srcHeight
          (fun y dst =>
             for_lt 0 width
               (fun dstX dst =>
                  st <- resamplePixel src
                          (fun srcX => image.Pt (srcX + image.X (image.Min srcBounds))
                                                (y + image.Y (image.Min srcBounds)))
                          weights filter srcWidth width dstX ;;
                  Returns (image.NRGBA_Set dst dstX y
                             (color.NRGBA64_RGBA (narrow st))))
               dst)
          dst ;;
        Returns (Some dst, None)
    end.

(** [func Resize(src image.Image, width, height int) (image, error)] *)
Definition Resize (src : option image.Image) (width height : Z) : outcome result :=
  let dstWidth := width in
  let dstHeight := height in
  match src with
  | None => Returns (None, Some ErrNilSource)
  | Some src =>
      if (dstWidth <=? 0) || (dstHeight <=? 0)
      then Returns (None, Some (ErrInvalidDimensions width height))
      else
        let srcWidth := image.Dx (image.Bounds src) in
        let srcHeight := image.Dy (image.Bounds src) in
        if negb (srcWidth =? dstWidth) && negb (srcHeight =? dstHeight) then
          r <- resizeHorizontal src dstWidth ;;
          match r with
          | (_, Some err) => Returns (None, Some err)
          | (None, None) => Panics   (* nil image dereferenced by the vertical pass *)
          | (Some image, None) => resizeVertical (image.as_Image image) dstHeight
          end
        else if negb (srcWidth =? dstWidth) then resizeHorizontal src dstWidth
        else resizeVertical src dstHeight
  end.

End Engine.

End rounded.

(** ** The flat-table variant of [calculateWeights]

    The text of [internal/filters/filter.go] also holds a second copy of the
    engine, whose table is one flat slice with [weightsPerPixel] slots per
    destination index, and whose passes use [NewLanczos(2)].  The geometry is
    computed by the same statements as in [resize.go]. *)

Module flat.

Import filters resize.

(** The state of the two loops over [srcIdx]: the table, the running sum
    and the running index. *)
Record flatState : Type := mkFlatState {
  flatWeights : list float64;
  flatSum : float64;
  flatIdx : Z
}.

(** [for srcIdx := left; srcIdx <= right; srcIdx++] storing the non-zero
    weights from [weightIdx := dstIdx * weightsPerPixel] on. *)
Definition fillFlat (filter : Resampler) (scale center : float64)
    (left right : Z) (weights : list float64) (start : Z) : outcome flatState :=
  for_le left right
    (fun srcIdx st =>
       let weight := weightOf filter scale center srcIdx in
       if Req_dec_T weight 0
       then Returns (mkFlatState (flatWeights st) (flatSum st) (flatIdx st + 1))
       else
         weights' <- slice_set (flatWeights st) (flatIdx st) weight ;;
         Returns (mkFlatState weights' (flatSum st + weight)%R (flatIdx st + 1)))
    (mkFlatState weights 0%R start).

(** [for srcIdx := left; srcIdx <= right; srcIdx++ { weights[weightIdx] /= weightSum; weightIdx++ }] *)
Definition normalizeFlat (left right : Z) (sum : float64)
    (weights : list float64) (start : Z) : outcome flatState :=
  for_le left right
    (fun srcIdx st =>
       w <- slice_get (flatWeights st) (flatIdx st) ;;
       weights' <- slice_set (flatWeights st) (flatIdx st) (w / sum)%R ;;
       Returns (mkFlatState weights' (flatSum st) (flatIdx st + 1)))
    (mkFlatState weights sum start).

(** The body of the loop over [dstIdx]. *)
Definition flatRow (srcSize : Z) (filter : Resampler)
    (scale support : float64) (weightsPerPixel dstIdx : Z)
    (weights : list float64) : outcome (list float64) :=
  let center := centerOf dstIdx scale in
  let left := leftOf center support in
  let right := rightOf center support srcSize in
  st <- fillFlat filter scale center left right weights (dstIdx * weightsPerPixel) ;;
  if Rlt_dec 0 (flatSum st)
  then
    st' <- normalizeFlat left right (flatSum st) (flatWeights st)
             (dstIdx * weightsPerPixel) ;;
    Returns (flatWeights st')
  else Returns (flatWeights st).

(** [func calculateWeights(srcSize, dstSize int, filter filters.Resampler) []float64] *)
Definition calculateWeights (srcSize dstSize : Z) (filter : Resampler)
    : outcome (option (list float64)) :=
  if (srcSize <=? 0) || (dstSize <=? 0) then Returns None
  else
    let scale := scaleOf srcSize dstSize in
    let support := supportOf (filterRadiusOf filter) scale in
    let weightsPerPixel := weightsPerPixelOf support in
    let totalWeights := dstSize * weightsPerPixel in
    weights <- make 0%R totalWeights ;;
    weights <- for_lt 0 dstSize
      (fun dstIdx weights =>
         flatRow srcSize filter scale support weightsPerPixel dstIdx weights)
      weights ;;
    Returns (Some weights).

(** The loop
    [for srcY := left; srcY <= right && weightIdx < len(weights); srcY++]
    of the two passes, whose weight index starts at
    [weightIdx := dstIdx * weightsPerPixel] and runs over the whole table. *)
Definition accumulate (src : image.Image) (coord : Z -> image.Point)
    (weights : list float64) (weightIdx left right : Z) : outcome accState :=
  for_loop (Z.to_nat (right - left + 1)) left
    (fun _ st => accIdx st <? len weights)
    (fun srcIdx st =>
       weight <- slice_get weights (accIdx st) ;;
       if Req_dec_T weight 0
       then Returns (mkAccState (accR st) (accG st) (accB st) (accA st)
                       (accIdx st + 1) (accReads st))
       else
         let p := coord srcIdx in
         let srcColor := image.At src (image.X p) (image.Y p) in
         Returns (mkAccState
                    (accR st + float64_of_int (color.red srcColor) * weight)%R
                    (accG st + float64_of_int (color.green srcColor) * weight)%R
                    (accB st + float64_of_int (color.blue srcColor) * weight)%R
                    (accA st + float64_of_int (color.alpha srcColor) * weight)%R
                    (accIdx st + 1) (p :: accReads st)))
    (mkAccState 0%R 0%R 0%R 0%R weightIdx []).

(** The body of the inner loop of a pass, for destination index [dstIdx]. *)
Definition resamplePixel (src : image.Image) (coord : Z -> image.Point)
    (weights : list float64) (filter : Lanczos)
    (weightsPerPixel srcSize dstSize dstIdx : Z) : outcome accState :=
  let weightIdx := dstIdx * weightsPerPixel in
  let scale := scaleOf srcSize dstSize in
  let center := centerOf dstIdx scale in
  let support := supportOf (float64_of_int (Radius filter)) scale in
  let left := leftOf center support in
  let right := rightOf center support srcSize in
  accumulate src coord weights weightIdx left right.

(** [func resizeVertical(src image.Image, height int) (image, error)] *)
Definition resizeVertical (src : image.Image) (height : Z) : outcome result :=
  let srcBounds := image.Bounds src in
  let srcWidth := image.Dx srcBounds in
  let srcHeight := image.Dy srcBounds in
  if srcHeight =? height then
    let dst := image.NewNRGBA (image.Rect 0 0 srcWidth height) in
    dst <- draw.Draw dst (image.NRect dst) src (image.Min srcBounds) ;;
    Returns (Some dst, None)
  else
    let dst := image.NewNRGBA (image.Rect 0 0 srcWidth height) in
    let filter := NewLanczos 2 in
    weights <- calculateWeights srcHeight height (OfLanczos filter) ;;
    match weights with
    | None => Returns (None, Some ErrVerticalWeights)
    | Some weights =>
        weightsPerPixel <- int_div (len weights) height ;;
        dst <- for_lt 0 srcWidth
          (fun x dst =>
             for_lt 0 height
               (fun dstY dst =>
                  st <- resamplePixel src
                          (fun srcY => image.Pt (x + image.X (image.Min srcBounds))
                                                (srcY + image.Y (image.Min srcBounds)))
                          weights filter weightsPerPixel srcHeight height dstY ;;
                  Returns (image.NRGBA_Set dst x dstY
                             (color.NRGBA64_RGBA (narrow st))))
               dst)
          dst ;;
        Returns (Some dst, None)
    end.

(** [func resizeHorizontal(src image.Image, width int) (image, error)] *)
Definition resizeHorizontal (src : image.Image) (width : Z) : outcome result :=
  let srcBounds := image.Bounds src in
  let srcWidth := image.Dx srcBounds in
  let srcHeight := image.Dy srcBounds in
  if srcWidth =? width then
    let dst := image.NewNRGBA (image.Rect 0 0 width srcHeight) in
    dst <- draw.Draw dst (image.NRect dst) src (image.Min srcBounds) ;;
    Returns (Some dst, None)
  else
    let dst := image.NewNRGBA (image.Rect 0 0 width srcHeight) in
    let filter := NewLanczos 2 in
    weights <- calculateWeights srcWidth width (OfLanczos filter) ;;
    match weights with
    | None => Returns (None, Some ErrHorizontalWeights)
    | Some weights =>
        weightsPerPixel <- int_div (len weights) width ;;
        dst <- for_lt 0 srcHeight
          (fun y dst =>
             for_lt 0 width
               (fun dstX dst =>
                  st <- resamplePixel src
                          (fun srcX => image.Pt (srcX + image.X (image.Min srcBounds))
                                                (y + image.Y (image.Min srcBounds)))
                          weights filter weightsPerPixel srcWidth width dstX ;;
                  Returns (image.NRGBA_Set dst dstX y
                             (color.NRGBA64_RGBA (narrow st))))
               dst)
          dst ;;
        Returns (Some dst, None)
    end.

(** [func Resize(src image.Image, width, height int) (image, error)];
    a [nil] source is [None]. *)
Definition Resize (src : option image.Image) (width height : Z) : outcome result :=
  let dstWidth := width in
  let dstHeight := height in
  match src with
  | None => Returns (None, Some ErrNilSource)
  | Some src =>
      if (dstWidth <=? 0) || (dstHeight <=? 0)
      then Returns (None, Some (ErrInvalidDimensions width height))
      else
        let srcWidth := image.Dx (image.Bounds src) in
        let srcHeight := image.Dy (image.Bounds src) in
        if negb (srcWidth =? dstWidth) && negb (srcHeight =? dstHeight) then
          r <- resizeHorizontal src dstWidth ;;
          match r with
          | (_, Some err) => Returns (None, Some err)
          | (None, None) => Panics   (* nil image dereferenced by the vertical pass *)
          | (Some image, None) => resizeVertical (image.as_Image image) dstHeight
          end
        else if negb (srcWidth =? dstWidth) then resizeHorizontal src dstWidth
        else resizeVertical src dstHeight
  end.

End flat.

(** ** Go strings and paths, as far as [cmd/main.go] uses them *)

(** A Go string is a sequence of bytes. *)
Definition gostring : Type := list ascii.

Module strings.

(** [strings.HasSuffix(s, suffix)]:
    [len(s) >= len(suffix) && s[len(s)-len(suffix):] == suffix] *)
Definition HasSuffix (s suffix : gostring) : bool :=
  (length suffix <=? length s)%nat
  && if list_eq_dec ascii_dec (skipn (length s - length suffix) s) suffix
     then true else false.

(** [strings.TrimSuffix(s, suffix)] *)
Definition TrimSuffix (s suffix : gostring) : gostring :=
  if HasSuffix s suffix then firstn (length s - length suffix) s else s.

End strings.

Module filepath.

(** [os.IsPathSeparator(c)] where the separator is the slash. *)
Definition IsPathSeparator (c : ascii) : bool := Ascii.eqb c "/"%char.

(** The loop of [filepath.Ext],
    [for i := len(path) - 1; i >= 0 && !os.IsPathSeparator(path[i]); i--],
    which returns [path[i:]] at the first dot it meets: [before] holds
    [path[:i+1]] reversed and [after] holds [path[i+1:]]. *)
Fixpoint scanExt (before after : gostring) : gostring :=
  match before with
  | [] => []
  | c :: before' =>
      if IsPathSeparator c then []
      else if Ascii.eqb c "."%char then c :: after
      else scanExt before' (c :: after)
  end.

(** [filepath.Ext(path)] *)
Definition Ext (path : gostring) : gostring := scanExt (rev path) [].

End filepath.

Module cmd.

(** The bytes of ["_resized"]. *)
Definition resizedSuffix : gostring :=
  ["_"; "r"; "e"; "s"; "i"; "z"; "e"; "d"]%char.

(** The output path [main] writes to: the [-output] flag, or, when that is
    empty, [fmt.Sprintf("%s_resized%s", baseName, ext)] with
    [ext := filepath.Ext(inputFile)] and
    [baseName := strings.TrimSuffix(inputFile, ext)]. *)
Definition outputFileOf (inputFile outputFile : gostring) : gostring :=
  match outputFile with
  | [] =>
      let ext := filepath.Ext inputFile in
      let baseName := strings.TrimSuffix inputFile ext in
      baseName ++ resizedSuffix ++ ext
  | _ => outputFile
  end.

End cmd.

(** ** The example program ([examples/lanczos_resize_example.go]) *)

Module example.

Section TestImage.

Local Open Scope R_scope.

(** What [uint8(f)] gives for a [float64] whose truncation is no [uint8]:
    Go leaves it to the implementation. *)
Variable outOfRange : float64 -> Z.




End TestImage.

End example.

(** * Properties *)

(** ** Conversions between [float64] and [int] *)

Section Conversions.

Local Open Scope R_scope.

Lemma int_of_float64_nonneg (f : float64) :
  0 <= f -> int_of_float64 f = Zfloor f.
Proof.
  intros H. unfold int_of_float64. destruct (Rle_dec 0 f); [reflexivity | contradiction].
Qed.

Lemma int_of_float64_neg (f : float64) :
  f < 0 -> int_of_float64 f = Zceil f.
Proof.
  intros H. unfold int_of_float64. destruct (Rle_dec 0 f); [lra | reflexivity].
Qed.

Lemma int_of_float64_IZR (n : Z) : int_of_float64 (IZR n) = n.
Proof.
  unfold int_of_float64. destruct (Rle_dec 0 (IZR n)).
  - apply ZfloorZ.
  - unfold Zceil. rewrite ZfloorNZ. lia.
Qed.

(** A value in an integer's unit interval truncates to that integer. *)
Lemma int_of_float64_eq (n : Z) (f : float64) :
  (0 <= n)%Z -> IZR n <= f < IZR n + 1 -> int_of_float64 f = n.
Proof.
  intros Hn Hf. rewrite int_of_float64_nonneg.
  - now apply Zfloor_eq.
  - apply IZR_le in Hn. lra.
Qed.

Lemma Zceil_gt_m1 (f : float64) : -1 < f -> (0 <= Zceil f)%Z.
Proof.
  intros H. pose proof (Zceil_bound f) as [_ Hb].
  assert (-1 < IZR (Zceil f)) by lra.
  apply lt_IZR in H0. lia.
Qed.

(** Truncation and floor agree once negative values are raised to 0. *)
Lemma max0_int_of_float64 (f : float64) :
  Z.max 0 (int_of_float64 f) = Z.max 0 (Zfloor f).
Proof.
  unfold int_of_float64. destruct (Rle_dec 0 f) as [H | H]; [reflexivity |].
  assert (Hf : f < 0) by lra.
  assert (Hc : (Zceil f < 1)%Z).
  { apply lt_IZR. pose proof (Zceil_bound f). lra. }
  assert (Hfl : (Zfloor f < 0)%Z).
  { apply lt_IZR. pose proof (Zfloor_bound f). lra. }
  lia.
Qed.

End Conversions.

(** ** The kernel *)

Section KernelFacts.

Import filters.
Local Open Scope R_scope.

Lemma sinc_0 : sinc 0 = 1.
Proof. unfold sinc. destruct (Req_dec_T 0 0); [reflexivity | contradiction]. Qed.

Lemma sinc_nonzero (v : float64) :
  v <> 0 -> sinc v = sin (PI * v) / (PI * v).
Proof. intros H. unfold sinc. destruct (Req_dec_T v 0); [contradiction | reflexivity]. Qed.

Lemma Lanczos_Kernel_inside (l : Lanczos) (v : float64) :
  Rabs v < IZR (Radius l) ->
  Lanczos_Kernel l v = sinc (Rabs v) * sinc (Rabs v / IZR (Radius l)).
Proof.
  intros H. unfold Lanczos_Kernel, float64_of_int.
  destruct (Rlt_dec (Rabs v) (IZR (Radius l))); [reflexivity | contradiction].
Qed.

Lemma Lanczos_Kernel_outside (l : Lanczos) (v : float64) :
  IZR (Radius l) <= Rabs v -> Lanczos_Kernel l v = 0.
Proof.
  intros H. unfold Lanczos_Kernel, float64_of_int.
  destruct (Rlt_dec (Rabs v) (IZR (Radius l))); [lra | reflexivity].
Qed.

(** [sin (PI * q)] vanishes only at integers [q]. *)
Lemma sin_PI_mult_zero (q : R) : sin (PI * q) = 0 -> exists k : Z, q = IZR k.
Proof.
  intros H. destruct (sin_eq_0_0 _ H) as [k Hk]. exists k.
  pose proof PI_RGT_0.
  apply Rmult_eq_reg_l with PI; [lra | lra].
Qed.

Lemma sinc_zero_integer (v : float64) : sinc v = 0 -> exists k : Z, v = IZR k.
Proof.
  unfold sinc. destruct (Req_dec_T v 0) as [-> | Hv]; intros H; [lra |].
  apply sin_PI_mult_zero.
  pose proof PI_RGT_0.
  assert (Hd : PI * v <> 0) by (apply Rmult_integral_contrapositive; split; lra).
  unfold Rdiv in H. apply Rmult_integral in H. destruct H as [H | H]; [exact H |].
  exfalso. exact (Rinv_neq_0_compat _ Hd H).
Qed.

End KernelFacts.

Section KernelClaim.

Import filters.
Local Open Scope R_scope.

(** C10. The Lanczos kernel of radius [R >= 1] at [v] is
    [sinc |v| * sinc (|v| / R)] when [|v| < R] and [0] when [|v| >= R], where
    [sinc 0 = 1] and [sinc x = sin (PI x) / (PI x)] otherwise; the kernel is a
    function of its arguments, is [1] at [0] and [0] for every [|v| >= R]. *)
Theorem Lanczos_Kernel_correct (l : Lanczos) (v : float64) :
  (1 <= Radius l)%Z ->
  (Rabs v < IZR (Radius l) ->
     Lanczos_Kernel l v = sinc (Rabs v) * sinc (Rabs v / IZR (Radius l)))
  /\ (IZR (Radius l) <= Rabs v -> Lanczos_Kernel l v = 0)
  /\ Lanczos_Kernel l 0 = 1
  /\ sinc 0 = 1
  /\ (v <> 0 -> sinc v = sin (PI * v) / (PI * v))
  /\ (forall v' : float64, v = v' -> Lanczos_Kernel l v = Lanczos_Kernel l v').
Proof.
  intros HR. apply IZR_le in HR.
  split; [apply Lanczos_Kernel_inside |].
  split; [apply Lanczos_Kernel_outside |].
  split.
  - rewrite Lanczos_Kernel_inside; rewrite Rabs_R0; [| lra].
    unfold Rdiv. rewrite Rmult_0_l, sinc_0. lra.
  - split; [apply sinc_0 |].
    split; [apply sinc_nonzero |].
    intros v' ->. reflexivity.
Qed.

Lemma Lanczos_Kernel_correct_witness :
  Lanczos_Kernel (NewLanczos 3) 0 = 1.
Proof.
  apply (Lanczos_Kernel_correct (NewLanczos 3) 0).
  simpl. lia.
Defined.

End KernelClaim.

(** ** Loops and slices *)

Section Loops.

Context {S : Type}.

Lemma bind_Returns {A B : Type} (m : outcome A) (k : A -> outcome B) (b : B) :
  bind m k = Returns b -> exists a, m = Returns a /\ k a = Returns b.
Proof. destruct m as [a |]; simpl; intros H; [eauto | discriminate]. Qed.

(** An invariant of the state, kept by every iteration the loop runs. *)
Lemma for_loop_invariant (Inv : S -> Prop) (cond : Z -> S -> bool)
    (body : Z -> S -> outcome S) (n : nat) :
  forall (lo : Z) (s s' : S),
    (forall i t t', lo <= i < lo + Z.of_nat n -> Inv t -> cond i t = true ->
                    body i t = Returns t' -> Inv t') ->
    Inv s ->
    for_loop n lo cond body s = Returns s' ->
    Inv s'.
Proof.
  induction n as [| n IH]; intros lo s s' Hstep Hs Hrun; simpl in Hrun.
  - now inversion Hrun; subst.
  - destruct (cond lo s) eqn:Hc.
    + apply bind_Returns in Hrun. destruct Hrun as (t & Hb & Hrest).
      apply (IH (lo + 1) t s'); [| | exact Hrest].
      * intros i u u' Hi. apply Hstep. lia.
      * apply (Hstep lo s t); [lia | exact Hs | exact Hc | exact Hb].
    + now inversion Hrun; subst.
Qed.

(** An invariant that follows the loop index, for a loop without an extra
    condition. *)
Lemma for_loop_invariant_at (Inv : Z -> S -> Prop)
    (body : Z -> S -> outcome S) (n : nat) :
  forall (lo : Z) (s s' : S),
    (forall i t t', lo <= i < lo + Z.of_nat n -> Inv i t ->
                    body i t = Returns t' -> Inv (i + 1) t') ->
    Inv lo s ->
    for_loop n lo (fun _ _ => true) body s = Returns s' ->
    Inv (lo + Z.of_nat n) s'.
Proof.
  induction n as [| n IH]; intros lo s s' Hstep Hs Hrun; simpl in Hrun.
  - inversion Hrun; subst. now replace (lo + Z.of_nat 0) with lo by lia.
  - apply bind_Returns in Hrun. destruct Hrun as (t & Hb & Hrest).
    replace (lo + Z.of_nat (Datatypes.S n)) with ((lo + 1) + Z.of_nat n) by lia.
    apply (IH (lo + 1) t s'); [| | exact Hrest].
    + intros i u u' Hi. apply Hstep. lia.
    + apply (Hstep lo s t); [lia | exact Hs | exact Hb].
Qed.

(** A loop whose body returns under the invariant returns. *)
Lemma for_loop_returns (Inv : Z -> S -> Prop)
    (body : Z -> S -> outcome S) (n : nat) :
  forall (lo : Z) (s : S),
    (forall i t, lo <= i < lo + Z.of_nat n -> Inv i t ->
                 exists t', body i t = Returns t' /\ Inv (i + 1) t') ->
    Inv lo s ->
    exists s', for_loop n lo (fun _ _ => true) body s = Returns s'
               /\ Inv (lo + Z.of_nat n) s'.
Proof.
  induction n as [| n IH]; intros lo s Hstep Hs; cbn [for_loop].
  - exists s. split; [reflexivity |]. now replace (lo + Z.of_nat 0) with lo by lia.
  - destruct (Hstep lo s) as (t & Hb & Ht); [lia | exact Hs |].
    rewrite Hb. cbn [bind].
    replace (lo + Z.of_nat (Datatypes.S n)) with ((lo + 1) + Z.of_nat n) by lia.
    apply IH; [| exact Ht].
    intros i u Hi. apply Hstep. lia.
Qed.

(** A loop one of whose iterations panics under the invariant panics. *)
Lemma for_loop_panics (Inv : Z -> S -> Prop)
    (body : Z -> S -> outcome S) (n : nat) :
  forall (lo : Z) (s : S) (bad : Z),
    lo <= bad < lo + Z.of_nat n ->
    (forall i t t', lo <= i < bad -> Inv i t ->
                    body i t = Returns t' -> Inv (i + 1) t') ->
    (forall t, Inv bad t -> body bad t = Panics) ->
    Inv lo s ->
    for_loop n lo (fun _ _ => true) body s = Panics.
Proof.
  induction n as [| n IH]; intros lo s bad Hbad Hstep Hpanic Hs; cbn [for_loop].
  - lia.
  - destruct (Z.eq_dec lo bad) as [-> | Hne].
    + now rewrite (Hpanic s Hs).
    + destruct (body lo s) as [t |] eqn:Hb; cbn [bind]; [| reflexivity].
      apply (IH (lo + 1) t bad); [lia | | exact Hpanic |].
      * intros i u u' Hi. apply Hstep. lia.
      * apply (Hstep lo s t); [lia | exact Hs | exact Hb].
Qed.

End Loops.

Section Slices.

Context {A : Type}.

Lemma length_update (s : list A) (i : nat) (v : A) :
  length (update s i v) = length s.
Proof.
  revert i. induction s as [| h t IH]; intros [| i]; simpl; auto.
Qed.

Lemma nth_update_same (s : list A) (i : nat) (v d : A) :
  (i < length s)%nat -> nth i (update s i v) d = v.
Proof.
  revert i. induction s as [| h t IH]; intros [| i] H; simpl in *; try lia; auto.
  apply IH. lia.
Qed.

Lemma nth_update_other (s : list A) (i j : nat) (v d : A) :
  i <> j -> nth j (update s i v) d = nth j s d.
Proof.
  revert i j. induction s as [| h t IH]; intros [| i] [| j] H; simpl; auto; try lia.
Qed.

Lemma slice_set_Returns (s s' : list A) (i : Z) (v : A) :
  slice_set s i v = Returns s' ->
  0 <= i < len s /\ s' = update s (Z.to_nat i) v.
Proof.
  unfold slice_set. destruct ((0 <=? i) && (i <? len s)) eqn:E; [| discriminate].
  intros H. inversion H; subst. split; [lia | reflexivity].
Qed.

Lemma slice_set_in_range (s : list A) (i : Z) (v : A) :
  0 <= i < len s -> slice_set s i v = Returns (update s (Z.to_nat i) v).
Proof.
  intros H. unfold slice_set.
  replace ((0 <=? i) && (i <? len s)) with true; [reflexivity |].
  symmetry. apply andb_true_iff. lia.
Qed.

Lemma slice_set_out_of_range (s : list A) (i : Z) (v : A) :
  len s <= i -> slice_set s i v = Panics.
Proof.
  intros H. unfold slice_set.
  replace (i <? len s) with false by lia. now rewrite andb_false_r.
Qed.

Lemma slice_get_Returns (s : list A) (i : Z) (v d : A) :
  slice_get s i = Returns v ->
  0 <= i < len s /\ nth (Z.to_nat i) s d = v.
Proof.
  unfold slice_get. destruct ((0 <=? i) && (i <? len s)) eqn:E; [| discriminate].
  destruct (nth_error s (Z.to_nat i)) eqn:En; [| discriminate].
  intros H. inversion H; subst. split; [lia |].
  now apply nth_error_nth.
Qed.

Lemma slice_get_in_range (s : list A) (i : Z) (d : A) :
  0 <= i < len s -> slice_get s i = Returns (nth (Z.to_nat i) s d).
Proof.
  intros H. unfold slice_get.
  replace ((0 <=? i) && (i <? len s)) with true
    by (symmetry; apply andb_true_iff; lia).
  destruct (nth_error s (Z.to_nat i)) eqn:En.
  - f_equal. symmetry. now apply nth_error_nth.
  - apply nth_error_None in En. unfold len in H. lia.
Qed.

Lemma make_Returns (zero : A) (n : Z) (s : list A) :
  make zero n = Returns s -> 0 <= n /\ s = repeat zero (Z.to_nat n).
Proof.
  unfold make. destruct (n <? 0) eqn:E; [discriminate |].
  intros H. inversion H. split; [lia | reflexivity].
Qed.

Lemma make_nonneg (zero : A) (n : Z) :
  0 <= n -> make zero n = Returns (repeat zero (Z.to_nat n)).
Proof.
  intros H. unfold make. now replace (n <? 0) with false by lia.
Qed.

Lemma nth_repeat_zero (zero : A) (n k : nat) : nth k (repeat zero n) zero = zero.
Proof.
  revert k. induction n as [| n IH]; intros [| k]; simpl; auto.
Qed.

End Slices.

(** ** Geometry of one axis *)

(** [v] brought into [[lo, hi]]. *)
Definition clampInto (lo hi v : Z) : Z := Z.max lo (Z.min hi v).

Section GeometryFacts.

Import resize.
Local Open Scope R_scope.

Variables srcSize dstSize : Z.
Hypothesis HsrcSize : (1 <= srcSize)%Z.
Hypothesis HdstSize : (1 <= dstSize)%Z.

Let scale : float64 := scaleOf srcSize dstSize.

Lemma scale_pos : 0 < scale.
Proof.
  unfold scale, scaleOf, float64_of_int.
  apply IZR_le in HsrcSize. apply IZR_le in HdstSize.
  apply Rdiv_lt_0_compat; lra.
Qed.

Lemma scale_dstSize : scale * IZR dstSize = IZR srcSize.
Proof.
  unfold scale, scaleOf, float64_of_int.
  apply IZR_le in HdstSize. field. lra.
Qed.

Lemma supportOf_nonneg (filterRadius : float64) :
  0 <= filterRadius -> 0 <= supportOf filterRadius scale.
Proof.
  intros H. unfold supportOf. pose proof scale_pos.
  destruct (Rlt_dec 1 scale); [nra | lra].
Qed.

Section Index.

Variable dstIdx : Z.
Hypothesis HdstIdx : (0 <= dstIdx < dstSize)%Z.

Let center : float64 := centerOf dstIdx scale.

Lemma center_lower : - (1 / 2) < center.
Proof.
  unfold center, centerOf, float64_of_int. pose proof scale_pos.
  destruct HdstIdx as [H0 _]. apply IZR_le in H0. nra.
Qed.

Lemma center_upper : center <= IZR srcSize - 1 / 2 - scale / 2.
Proof.
  unfold center, centerOf, float64_of_int.
  pose proof scale_pos. pose proof scale_dstSize.
  assert (Hd : IZR dstIdx <= IZR dstSize - 1).
  { rewrite <- minus_IZR. apply IZR_le. lia. }
  nra.
Qed.

Variable support : float64.
Hypothesis Hsupport : 0 <= support.

Lemma leftOf_max : leftOf center support = Z.max 0 (Zfloor (center - support)).
Proof.
  unfold leftOf. rewrite <- max0_int_of_float64.
  destruct (int_of_float64 (center - support) <? 0)%Z eqn:E; lia.
Qed.

Lemma leftOf_range : (0 <= leftOf center support <= srcSize - 1)%Z.
Proof.
  rewrite leftOf_max. split; [lia |].
  assert (Hfl : (Zfloor (center - support) < srcSize)%Z).
  { apply lt_IZR. pose proof (Zfloor_bound (center - support)).
    pose proof center_upper. pose proof scale_pos. lra. }
  lia.
Qed.

Lemma int_center_plus_support_nonneg :
  (0 <= int_of_float64 (center + support))%Z.
Proof.
  pose proof center_lower.
  unfold int_of_float64. destruct (Rle_dec 0 (center + support)).
  - apply Zfloor_lub. simpl. lra.
  - apply Zceil_gt_m1. lra.
Qed.

Lemma rightOf_range : (0 <= rightOf center support srcSize <= srcSize - 1)%Z.
Proof.
  pose proof int_center_plus_support_nonneg.
  unfold rightOf.
  destruct (int_of_float64 (center + support) >=? srcSize)%Z eqn:E; lia.
Qed.

Lemma rightOf_clamp :
  rightOf center support srcSize
  = clampInto 0 (srcSize - 1) (Zfloor (center + support)).
Proof.
  pose proof int_center_plus_support_nonneg as Hn.
  pose proof (max0_int_of_float64 (center + support)) as Hm.
  unfold rightOf, clampInto.
  destruct (int_of_float64 (center + support) >=? srcSize)%Z eqn:E; lia.
Qed.

Lemma leftOf_clamp :
  leftOf center support
  = clampInto 0 (srcSize - 1) (Zfloor (center - support)).
Proof.
  pose proof leftOf_range. rewrite leftOf_max in *. unfold clampInto. lia.
Qed.

End Index.

End GeometryFacts.

(** ** The weight table *)

(** The sum [w lo + w (lo+1) + ... + w (lo+n-1)], added in loop order. *)
Fixpoint sumWeights (w : Z -> float64) (lo : Z) (n : nat) : float64 :=
  match n with
  | O => 0%R
  | S n' => (sumWeights w lo n' + w (lo + Z.of_nat n')%Z)%R
  end.

(** The number of source indices of the range [[left, right]]. *)
Definition rangeCount (left right : Z) : nat := Z.to_nat (right - left + 1).

(** What the table holds for a kernel value [v] of a row whose kernel values
    add up to [sum]. *)
Definition normalized (sum v : float64) : float64 :=
  if Rlt_dec 0 sum then (v / sum)%R else v.

Section RowFacts.

Import resize.
Local Open Scope R_scope.

Variable filter : filters.Resampler.
Variables scale center : float64.
Variables left right : Z.

Let w : Z -> float64 := weightOf filter scale center.

(** The state of [fillRow] when the loop index is [i], over the initial row. *)
Definition fillRowInv (row : list float64) (i : Z) (st : rowState) : Prop :=
  (left <= i)%Z
  /\ weightIdx st = (i - left)%Z
  /\ weightSum st = sumWeights w left (Z.to_nat (i - left))
  /\ length (rowWeights st) = length row
  /\ (forall k : nat, (Z.of_nat k < i - left)%Z ->
        nth k (rowWeights st) 0
        = if Req_dec_T (w (left + Z.of_nat k)%Z) 0 then nth k row 0
          else w (left + Z.of_nat k)%Z)
  /\ (forall k : nat, (i - left <= Z.of_nat k)%Z ->
        nth k (rowWeights st) 0 = nth k row 0).

Definition fillRowBody (srcIdx : Z) (st : rowState) : outcome rowState :=
  let weight := weightOf filter scale center srcIdx in
  if Req_dec_T weight 0
  then Returns (mkRowState (rowWeights st) (weightSum st) (weightIdx st + 1))
  else
    bind (slice_set (rowWeights st) (weightIdx st) weight)
      (fun row' =>
         Returns (mkRowState row' (weightSum st + weight)%R (weightIdx st + 1))).

Lemma fillRow_unfold (row : list float64) :
  fillRow filter scale center left right row
  = for_le left right fillRowBody (mkRowState row 0 0).
Proof. reflexivity. Qed.

Lemma fillRowInv_init (row : list float64) :
  fillRowInv row left (mkRowState row 0 0).
Proof.
  unfold fillRowInv; simpl. replace (left - left)%Z with 0%Z by lia.
  repeat split; try lia; auto.
Qed.

Lemma fillRowInv_step (row : list float64) (i : Z) (st st' : rowState) :
  fillRowInv row i st ->
  fillRowBody i st = Returns st' ->
  fillRowInv row (i + 1) st'.
Proof.
  intros (Hle & Hidx & Hsum & Hlen & Hlow & Hhigh) Hbody.
  assert (Hn : Z.to_nat (i + 1 - left) = Datatypes.S (Z.to_nat (i - left))) by lia.
  assert (Hi : (left + Z.of_nat (Z.to_nat (i - left)))%Z = i) by lia.
  unfold fillRowBody in Hbody. fold (w i) in Hbody.
  destruct (Req_dec_T (w i) 0) as [Hz | Hnz].
  - inversion Hbody; subst st'; clear Hbody. unfold fillRowInv; simpl.
    split; [lia |]. split; [lia |].
    split. { rewrite Hn. simpl. rewrite Hi, Hz, Hsum. lra. }
    split; [exact Hlen |].
    split.
    + intros k Hk. destruct (Z.eq_dec (Z.of_nat k) (i - left)) as [E | E].
      * replace (left + Z.of_nat k)%Z with i by lia.
        destruct (Req_dec_T (w i) 0); [| contradiction].
        apply Hhigh. lia.
      * apply Hlow. lia.
    + intros k Hk. apply Hhigh. lia.
  - apply bind_Returns in Hbody. destruct Hbody as (row' & Hset & Hret).
    apply slice_set_Returns in Hset. destruct Hset as [Hrange ->].
    inversion Hret; subst st'; clear Hret. unfold fillRowInv; simpl.
    unfold len in Hrange.
    split; [lia |]. split; [lia |].
    split. { rewrite Hn. simpl. rewrite Hi, Hsum. reflexivity. }
    split. { rewrite length_update. exact Hlen. }
    split.
    + intros k Hk. destruct (Z.eq_dec (Z.of_nat k) (i - left)) as [E | E].
      * replace (left + Z.of_nat k)%Z with i by lia.
        destruct (Req_dec_T (w i) 0); [contradiction |].
        replace (Z.to_nat (weightIdx st)) with k by lia.
        apply nth_update_same. lia.
      * rewrite nth_update_other by lia. apply Hlow. lia.
    + intros k Hk. rewrite nth_update_other by lia. apply Hhigh. lia.
Qed.

(** What [fillRow] returns, when it returns. *)
Lemma fillRow_Returns (row : list float64) (st : rowState) :
  fillRow filter scale center left right row = Returns st ->
  fillRowInv row (left + Z.of_nat (rangeCount left right)) st.
Proof.
  rewrite fillRow_unfold. unfold for_le. intros H.
  apply (for_loop_invariant_at (fillRowInv row) fillRowBody _ left _ st) in H.
  - exact H.
  - intros i t t' _. apply fillRowInv_step.
  - apply fillRowInv_init.
Qed.

(** A store of a non-zero kernel value is inside the row. *)
Lemma fillRow_Returns_in_range (row : list float64) (st : rowState) (srcIdx : Z) :
  fillRow filter scale center left right row = Returns st ->
  (left <= srcIdx <= right)%Z ->
  w srcIdx <> 0 ->
  (srcIdx - left < len row)%Z.
Proof.
  rewrite fillRow_unfold. unfold for_le. intros Hrun Hs Hnz.
  destruct (Z_lt_le_dec (srcIdx - left) (len row)) as [Hlt | Hge]; [exact Hlt |].
  exfalso.
  rewrite (for_loop_panics (fillRowInv row) fillRowBody _ left _ srcIdx) in Hrun.
  - discriminate.
  - lia.
  - intros i t t' _. apply fillRowInv_step.
  - intros t (_ & Hidx & _ & Hlen & _).
    unfold fillRowBody. fold (w srcIdx).
    destruct (Req_dec_T (w srcIdx) 0); [contradiction |].
    rewrite slice_set_out_of_range; [reflexivity |].
    unfold len in *. lia.
  - apply fillRowInv_init.
Qed.

(** [fillRow] panics when a non-zero kernel value falls beyond the row. *)
Lemma fillRow_Panics (row : list float64) (srcIdx : Z) :
  (left <= srcIdx <= right)%Z ->
  (len row <= srcIdx - left)%Z ->
  w srcIdx <> 0 ->
  fillRow filter scale center left right row = Panics.
Proof.
  intros Hs Hlen Hnz.
  destruct (fillRow filter scale center left right row) as [st |] eqn:E;
    [| reflexivity].
  pose proof (fillRow_Returns_in_range row st srcIdx E Hs Hnz). lia.
Qed.

(** [fillRow] returns when every non-zero kernel value of the range has a
    slot in the row. *)
Lemma fillRow_room (row : list float64) :
  (forall srcIdx, (left <= srcIdx <= right)%Z -> w srcIdx <> 0 ->
                  (srcIdx - left < len row)%Z) ->
  exists st, fillRow filter scale center left right row = Returns st.
Proof.
  intros Hroom. rewrite fillRow_unfold. unfold for_le.
  destruct (for_loop_returns
              (fun i st => (i <= left + Z.of_nat (rangeCount left right))%Z
                           /\ fillRowInv row i st)
              fillRowBody (Z.to_nat (right - left + 1)) left (mkRowState row 0 0))
    as (st & Hst & _).
  - intros i t Hi (_ & Hinv).
    assert (Hb : exists t', fillRowBody i t = Returns t').
    { destruct Hinv as (Hle & Hidx & _ & Hlen & _).
      unfold fillRowBody. fold (w i).
      destruct (Req_dec_T (w i) 0) as [Hz | Hnz]; [eauto |].
      rewrite slice_set_in_range; [simpl; eauto |].
      assert (Hi' : (left <= i <= right)%Z) by lia.
      pose proof (Hroom i Hi' Hnz). unfold len in *. lia. }
    destruct Hb as (t' & Hb). exists t'. split; [exact Hb |].
    split; [unfold rangeCount; lia | exact (fillRowInv_step row i t t' Hinv Hb)].
  - split; [lia | apply fillRowInv_init].
  - eauto.
Qed.

End RowFacts.

Section NormalizeFacts.

Import resize.
Local Open Scope R_scope.

Variable sum : float64.

Definition normalizeBody (i : Z) (row : list float64) : outcome (list float64) :=
  bind (slice_get row i) (fun w => slice_set row i (w / sum)).

(** The row of [normalizeRow] when the loop index is [i]. *)
Definition normalizeInv (row : list float64) (i : Z) (row' : list float64) : Prop :=
  (0 <= i)%Z
  /\ length row' = length row
  /\ (forall k : nat, (Z.of_nat k < i)%Z -> nth k row' 0 = nth k row 0 / sum)
  /\ (forall k : nat, (i <= Z.of_nat k)%Z -> nth k row' 0 = nth k row 0).

Lemma normalizeInv_step (row : list float64) (i : Z) (t t' : list float64) :
  normalizeInv row i t ->
  normalizeBody i t = Returns t' ->
  normalizeInv row (i + 1) t'.
Proof.
  intros (H0 & Hlen & Hlow & Hhigh) Hbody.
  unfold normalizeBody in Hbody.
  apply bind_Returns in Hbody. destruct Hbody as (v & Hget & Hset).
  apply (slice_get_Returns _ _ _ 0) in Hget. destruct Hget as [Hrange Hv].
  apply slice_set_Returns in Hset. destruct Hset as [_ ->].
  unfold len in Hrange.
  split; [lia |]. split; [rewrite length_update; exact Hlen |]. split.
  - intros k Hk. destruct (Z.eq_dec (Z.of_nat k) i) as [E | E].
    + replace (Z.to_nat i) with k in * by lia.
      rewrite nth_update_same by lia. rewrite <- Hv. f_equal. apply Hhigh. lia.
    + rewrite nth_update_other by lia. apply Hlow. lia.
  - intros k Hk. rewrite nth_update_other by lia. apply Hhigh. lia.
Qed.

Lemma normalizeRow_Returns (weightsPerPixel : Z) (row row' : list float64) :
  normalizeRow weightsPerPixel sum row = Returns row' ->
  normalizeInv row (Z.max 0 weightsPerPixel) row'.
Proof.
  unfold normalizeRow, for_lt. intros H.
  apply (for_loop_invariant_at (normalizeInv row) normalizeBody _ 0%Z _ row') in H.
  - replace (Z.max 0 weightsPerPixel)
      with (0 + Z.of_nat (Z.to_nat (weightsPerPixel - 0)))%Z by lia.
    exact H.
  - intros i t t' _. apply normalizeInv_step.
  - unfold normalizeInv. repeat split; auto; try lia.
Qed.

Lemma normalizeRow_fits (weightsPerPixel : Z) (row : list float64) :
  (weightsPerPixel <= len row)%Z ->
  exists row', normalizeRow weightsPerPixel sum row = Returns row'.
Proof.
  intros Hfit. unfold normalizeRow, for_lt.
  destruct (for_loop_returns
              (fun i t => (i <= Z.max 0 weightsPerPixel)%Z /\ normalizeInv row i t)
              normalizeBody (Z.to_nat (weightsPerPixel - 0)) 0%Z row)
    as (row' & Hrow' & _).
  - intros i t Hi (_ & Hinv).
    assert (Hb : exists t', normalizeBody i t = Returns t').
    { destruct Hinv as (H0 & Hlen & _).
      unfold normalizeBody.
      rewrite (slice_get_in_range _ _ 0) by (unfold len in *; lia).
      cbn [bind]. rewrite slice_set_in_range by (unfold len in *; lia). eauto. }
    destruct Hb as (t' & Hb). exists t'. split; [exact Hb |].
    split; [lia | exact (normalizeInv_step row i t t' Hinv Hb)].
  - split; [lia |]. unfold normalizeInv. repeat split; auto; try lia.
  - eauto.
Qed.

End NormalizeFacts.

Section TableFacts.

Import resize.
Local Open Scope R_scope.

Variable srcSize : Z.
Variable filter : filters.Resampler.
Variables scale support : float64.
Variable weightsPerPixel : Z.

(** The row of the table for destination index [dstIdx], when it is built:
    the kernel values of the source range, normalized, followed by zeros. *)
Lemma weightsRow_Returns (dstIdx : Z) (row : list float64) :
  weightsRow srcSize filter scale support weightsPerPixel dstIdx = Returns row ->
  let center := centerOf dstIdx scale in
  let left := leftOf center support in
  let right := rightOf center support srcSize in
  let w := weightOf filter scale center in
  let sum := sumWeights w left (rangeCount left right) in
  (0 <= weightsPerPixel)%Z
  /\ len row = weightsPerPixel
  /\ (forall k : nat, (k < rangeCount left right)%nat ->
        nth k row 0 = normalized sum (w (left + Z.of_nat k)%Z))
  /\ (forall k : nat, (rangeCount left right <= k)%nat -> nth k row 0 = 0)
  /\ (forall srcIdx : Z, (left <= srcIdx <= right)%Z -> w srcIdx <> 0 ->
        (srcIdx - left < weightsPerPixel)%Z).
Proof.
  intros Hrun center left right w sum. unfold weightsRow in Hrun.
  fold center left right in Hrun.
  apply bind_Returns in Hrun. destruct Hrun as (row0 & Hmake & Hrun).
  apply make_Returns in Hmake. destruct Hmake as [Hwpp ->].
  apply bind_Returns in Hrun. destruct Hrun as (st & Hfill & Hrun).
  pose proof (fillRow_Returns _ _ _ _ _ _ _ Hfill)
    as (_ & _ & Hsum & Hlen & Hlow & Hhigh).
  replace (Z.to_nat (left + Z.of_nat (rangeCount left right) - left))
    with (rangeCount left right) in Hsum by lia.
  fold w sum in Hsum.
  assert (Hraw : forall k : nat, (k < rangeCount left right)%nat ->
                   nth k (rowWeights st) 0 = w (left + Z.of_nat k)%Z).
  { intros k Hk. rewrite Hlow by lia. fold w.
    destruct (Req_dec_T (w (left + Z.of_nat k)%Z) 0) as [E | E]; [| reflexivity].
    rewrite E. apply nth_repeat_zero. }
  assert (Hzero : forall k : nat, (rangeCount left right <= k)%nat ->
                    nth k (rowWeights st) 0 = 0).
  { intros k Hk. rewrite Hhigh by lia. apply nth_repeat_zero. }
  assert (Hroom : forall srcIdx : Z, (left <= srcIdx <= right)%Z -> w srcIdx <> 0 ->
                    (srcIdx - left < weightsPerPixel)%Z).
  { intros srcIdx Hs Hnz.
    pose proof (fillRow_Returns_in_range _ _ _ _ _ _ _ srcIdx Hfill Hs Hnz) as H.
    unfold len in H. rewrite repeat_length in H. lia. }
  rewrite repeat_length in Hlen.
  split; [exact Hwpp |].
  unfold normalized. rewrite Hsum in Hrun. destruct (Rlt_dec 0 sum) as [Hpos | Hnpos].
  - apply normalizeRow_Returns in Hrun.
    destruct Hrun as (_ & Hlen' & Hnlow & Hnhigh).
    split; [unfold len; lia |]. split; [| split; [| exact Hroom]].
    + intros k Hk. destruct (Z_lt_le_dec (Z.of_nat k) weightsPerPixel) as [Hin | Hout].
      * rewrite Hnlow by lia. now rewrite Hraw.
      * rewrite Hnhigh by lia.
        assert (Hnth : nth k (rowWeights st) 0 = 0) by (apply nth_overflow; lia).
        rewrite Hnth. rewrite Hraw in Hnth by exact Hk. rewrite Hnth. lra.
    + intros k Hk. destruct (Z_lt_le_dec (Z.of_nat k) weightsPerPixel) as [Hin | Hout].
      * rewrite Hnlow by lia. rewrite Hzero by exact Hk. lra.
      * rewrite Hnhigh by lia. now apply Hzero.
  - inversion Hrun; subst row.
    split; [unfold len; lia |]. split; [exact Hraw |]. split; [exact Hzero | exact Hroom].
Qed.

(** The row is built when every non-zero kernel value of the source range
    has a slot within the row's capacity. *)
Lemma weightsRow_room (dstIdx : Z) :
  let center := centerOf dstIdx scale in
  let left := leftOf center support in
  let right := rightOf center support srcSize in
  (0 <= weightsPerPixel)%Z ->
  (forall srcIdx, (left <= srcIdx <= right)%Z ->
     weightOf filter scale center srcIdx <> 0 ->
     (srcIdx - left < weightsPerPixel)%Z) ->
  exists row,
    weightsRow srcSize filter scale support weightsPerPixel dstIdx = Returns row.
Proof.
  intros center left right Hwpp Hroom. unfold weightsRow. fold center left right.
  rewrite make_nonneg by lia. cbn [bind].
  destruct (fillRow_room filter scale center left right
              (repeat 0 (Z.to_nat weightsPerPixel))) as (st & Hst).
  { intros srcIdx Hs Hnz. unfold len. rewrite repeat_length.
    pose proof (Hroom srcIdx Hs Hnz). lia. }
  rewrite Hst. cbn [bind].
  destruct (Rlt_dec 0 (weightSum st)); [| eauto].
  apply normalizeRow_fits.
  pose proof (fillRow_Returns _ _ _ _ _ _ _ Hst) as (_ & _ & _ & Hlen & _).
  unfold len. rewrite Hlen, repeat_length. lia.
Qed.

End TableFacts.

Section CalculateWeightsFacts.

Import resize.
Local Open Scope Z_scope.

Variables srcSize dstSize : Z.
Variable filter : filters.Resampler.

Let scale := scaleOf srcSize dstSize.
Let support := supportOf (filterRadiusOf filter) scale.
Let weightsPerPixel := weightsPerPixelOf support.

Definition tableBody (dstIdx : Z) (weights : list (list float64))
    : outcome (list (list float64)) :=
  bind (weightsRow srcSize filter scale support weightsPerPixel dstIdx)
    (fun row => slice_set weights dstIdx row).

(** The table of [calculateWeights] when the loop index is [i]. *)
Definition tableInv (i : Z) (weights : list (list float64)) : Prop :=
  0 <= i
  /\ len weights = dstSize
  /\ forall d, 0 <= d < i ->
       weightsRow srcSize filter scale support weightsPerPixel d
       = Returns (nth (Z.to_nat d) weights []).

Lemma tableInv_step (i : Z) (t t' : list (list float64)) :
  tableInv i t -> tableBody i t = Returns t' -> tableInv (i + 1) t'.
Proof.
  intros (H0 & Hlen & Hrows) Hbody. unfold tableBody in Hbody.
  apply bind_Returns in Hbody. destruct Hbody as (row & Hrow & Hset).
  apply slice_set_Returns in Hset. destruct Hset as [Hrange ->].
  unfold tableInv, len in *.
  split; [lia |]. split; [rewrite length_update; exact Hlen |].
  intros d Hd. destruct (Z.eq_dec d i) as [-> | E].
  - rewrite nth_update_same by lia. exact Hrow.
  - rewrite nth_update_other by lia. apply Hrows. lia.
Qed.

Lemma calculateWeights_unfold :
  1 <= srcSize -> 1 <= dstSize ->
  calculateWeights srcSize dstSize filter
  = bind (for_lt 0 dstSize tableBody (repeat [] (Z.to_nat dstSize)))
      (fun weights => Returns (Some weights)).
Proof.
  intros Hs Hd. unfold calculateWeights.
  replace (srcSize <=? 0) with false by lia.
  replace (dstSize <=? 0) with false by lia.
  cbn [orb]. rewrite make_nonneg by lia. reflexivity.
Qed.

Lemma tableInv_init : 0 <= dstSize -> tableInv 0 (repeat [] (Z.to_nat dstSize)).
Proof.
  intros H. unfold tableInv, len. rewrite repeat_length.
  split; [lia |]. split; [lia |]. intros d Hd. lia.
Qed.

(** [calculateWeights] returns [nil] exactly for a non-positive length. *)
Lemma calculateWeights_nil_iff :
  calculateWeights srcSize dstSize filter = Returns None
  <-> (srcSize <= 0 \/ dstSize <= 0).
Proof.
  split.
  - intros H.
    destruct (Z_le_gt_dec srcSize 0) as [Hs | Hs]; [now left |].
    destruct (Z_le_gt_dec dstSize 0) as [Hd | Hd]; [now right |].
    rewrite calculateWeights_unfold in H by lia.
    apply bind_Returns in H. destruct H as (ws & _ & H). discriminate.
  - intros H. unfold calculateWeights.
    replace ((srcSize <=? 0) || (dstSize <=? 0)) with true; [reflexivity |].
    symmetry. apply orb_true_iff. lia.
Qed.

(** The table [calculateWeights] returns has one row per destination index,
    each the row [weightsRow] builds. *)
Lemma calculateWeights_Returns (weights : list (list float64)) :
  calculateWeights srcSize dstSize filter = Returns (Some weights) ->
  1 <= srcSize /\ 1 <= dstSize /\ len weights = dstSize
  /\ forall d, 0 <= d < dstSize ->
       weightsRow srcSize filter scale support weightsPerPixel d
       = Returns (nth (Z.to_nat d) weights []).
Proof.
  intros H.
  assert (Hsizes : 1 <= srcSize /\ 1 <= dstSize).
  { destruct (Z_le_gt_dec srcSize 0) as [Hs | Hs];
      [| destruct (Z_le_gt_dec dstSize 0) as [Hd | Hd]; [| lia]].
    - rewrite (proj2 calculateWeights_nil_iff) in H by (now left). discriminate.
    - rewrite (proj2 calculateWeights_nil_iff) in H by (now right). discriminate. }
  destruct Hsizes as [Hs Hd]. split; [exact Hs |]. split; [exact Hd |].
  rewrite calculateWeights_unfold in H by lia.
  apply bind_Returns in H. destruct H as (ws & Hloop & Hret).
  inversion Hret; subst ws; clear Hret.
  unfold for_lt in Hloop.
  apply (for_loop_invariant_at tableInv tableBody _ 0) in Hloop.
  - destruct Hloop as (_ & Hlen & Hrows). split; [exact Hlen |].
    intros d Hd'. apply Hrows. lia.
  - intros i t t' _. apply tableInv_step.
  - apply tableInv_init. lia.
Qed.

(** [calculateWeights] panics when the row of some destination index does. *)
Lemma calculateWeights_Panics (d : Z) :
  1 <= srcSize -> 0 <= d < dstSize ->
  weightsRow srcSize filter scale support weightsPerPixel d = Panics ->
  calculateWeights srcSize dstSize filter = Panics.
Proof.
  intros Hs Hd Hrow. rewrite calculateWeights_unfold by lia.
  unfold for_lt.
  rewrite (for_loop_panics (fun _ _ => True) tableBody _ 0 _ d); auto.
  - lia.
  - intros t _. unfold tableBody. now rewrite Hrow.
Qed.

(** [calculateWeights] returns a table when, for every destination index,
    every non-zero kernel value has a slot within the capacity of a row. *)
Lemma calculateWeights_room :
  1 <= srcSize -> 1 <= dstSize -> 0 <= weightsPerPixel ->
  (forall d srcIdx, 0 <= d < dstSize ->
     let center := centerOf d scale in
     let left := leftOf center support in
     left <= srcIdx <= rightOf center support srcSize ->
     weightOf filter scale center srcIdx <> 0%R ->
     srcIdx - left < weightsPerPixel) ->
  exists weights, calculateWeights srcSize dstSize filter = Returns (Some weights).
Proof.
  intros Hs Hd Hwpp Hroom. rewrite calculateWeights_unfold by lia. unfold for_lt.
  destruct (for_loop_returns (fun i t => i <= dstSize /\ tableInv i t) tableBody
              (Z.to_nat (dstSize - 0)) 0 (repeat [] (Z.to_nat dstSize)))
    as (ws & Hws & _).
  - intros i t Hi (_ & Hinv).
    assert (Hb : exists t', tableBody i t = Returns t').
    { unfold tableBody.
      destruct (weightsRow_room srcSize filter scale support weightsPerPixel i)
        as (row & Hrow); [exact Hwpp | intros srcIdx; apply Hroom; lia |].
      rewrite Hrow. cbn [bind]. destruct Hinv as (_ & Hlen & _).
      rewrite slice_set_in_range by lia. eauto. }
    destruct Hb as (t' & Hb). exists t'. split; [exact Hb |].
    split; [lia | exact (tableInv_step i t t' Hinv Hb)].
  - split; [lia | apply tableInv_init; lia].
  - rewrite Hws. cbn [bind]. eauto.
Qed.

(** In particular when every source range fits the capacity of a row. *)
Lemma calculateWeights_fits :
  1 <= srcSize -> 1 <= dstSize ->
  (forall d, 0 <= d < dstSize ->
     let center := centerOf d scale in
     Z.of_nat (rangeCount (leftOf center support) (rightOf center support srcSize))
     <= weightsPerPixel) ->
  exists weights, calculateWeights srcSize dstSize filter = Returns (Some weights).
Proof.
  intros Hs Hd Hfit. apply calculateWeights_room; try assumption.
  - specialize (Hfit 0 ltac:(lia)). cbv zeta in Hfit. lia.
  - intros d srcIdx Hd' center left Hrange _.
    specialize (Hfit d Hd'). cbv zeta in Hfit. fold center left in Hfit.
    unfold rangeCount in Hfit. lia.
Qed.

End CalculateWeightsFacts.

(** ** Capacity of a row *)

Section CapacityFacts.

Import resize.
Local Open Scope R_scope.

Variables srcSize dstSize dstIdx : Z.
Hypothesis HsrcSize : (1 <= srcSize)%Z.
Hypothesis HdstSize : (1 <= dstSize)%Z.
Hypothesis HdstIdx : (0 <= dstIdx < dstSize)%Z.

Let scale := scaleOf srcSize dstSize.
Let center := centerOf dstIdx scale.

(** When twice the support is a whole number, the source range of every
    destination index fits the capacity [int(2*support) + 1] of a row. *)
Lemma rangeCount_fits_whole (support : float64) (m : Z) :
  0 <= support ->
  2 * support = IZR m ->
  (Z.of_nat (rangeCount (leftOf center support) (rightOf center support srcSize))
   <= weightsPerPixelOf support)%Z.
Proof.
  intros Hsup Hm.
  assert (Hm0 : (0 <= m)%Z) by (apply le_IZR; lra).
  unfold weightsPerPixelOf. rewrite Hm, int_of_float64_IZR.
  pose proof (leftOf_max srcSize dstSize dstIdx support) as Hleft.
  fold scale center in Hleft.
  pose proof (center_lower srcSize dstSize HsrcSize HdstSize dstIdx HdstIdx) as Hc.
  fold scale center in Hc.
  unfold rangeCount. rewrite Hleft. unfold rightOf.
  destruct (Rle_dec 0 (center + support)) as [Hpos | Hneg].
  - rewrite (int_of_float64_nonneg _ Hpos).
    replace (center + support) with ((center - support) + IZR m) by lra.
    rewrite Zfloor_addz.
    destruct (Zfloor (center - support) + m >=? srcSize)%Z eqn:E; lia.
  - assert (Hs0 : support = 0).
    { assert (Hlt : IZR m < 1) by lra. apply lt_IZR in Hlt.
      assert (m = 0%Z) by lia. subst m. lra. }
    assert (Hceil : int_of_float64 (center + support) = 0%Z).
    { rewrite int_of_float64_neg by lra. apply Zceil_eq. simpl. lra. }
    rewrite Hceil.
    assert (Hfl : (Zfloor (center - support) < 0)%Z).
    { apply lt_IZR. pose proof (Zfloor_bound (center - support)). lra. }
    destruct (0 >=? srcSize)%Z eqn:E; lia.
Qed.

(** In particular when the axis is not shrunk and the radius is a whole
    number. *)
Lemma rangeCount_fits_upsampling (radius : Z) :
  (0 <= radius)%Z ->
  (srcSize <= dstSize)%Z ->
  let support := supportOf (IZR radius) scale in
  (Z.of_nat (rangeCount (leftOf center support) (rightOf center support srcSize))
   <= weightsPerPixelOf support)%Z.
Proof.
  intros Hr Hup support.
  assert (Hscale : scale <= 1).
  { unfold scale, scaleOf, float64_of_int.
    apply IZR_le in HdstSize. apply IZR_le in Hup.
    apply Rmult_le_reg_r with (IZR dstSize); [lra |].
    unfold Rdiv. rewrite Rmult_assoc, Rinv_l by lra. lra. }
  assert (Hsup : support = IZR radius).
  { unfold support, supportOf. destruct (Rlt_dec 1 scale); [lra | reflexivity]. }
  rewrite Hsup.
  apply (rangeCount_fits_whole (IZR radius) (2 * radius)).
  - apply IZR_le in Hr. lra.
  - rewrite mult_IZR. reflexivity.
Qed.

End CapacityFacts.

Section WeightTableClaims.

Import filters resize.
Local Open Scope R_scope.

(** The table is built whenever the axis is not shrunk. *)
Lemma calculateWeights_upsampling (srcSize dstSize : Z) (l : Lanczos) :
  (1 <= srcSize <= dstSize)%Z ->
  (0 <= Radius l)%Z ->
  exists weights,
    calculateWeights srcSize dstSize (OfLanczos l) = Returns (Some weights).
Proof.
  intros Hs Hr. apply calculateWeights_fits; try lia.
  intros d Hd. apply (rangeCount_fits_upsampling srcSize dstSize d); lia.
Qed.

End WeightTableClaims.

(** ** A row that does not fit its capacity: 20 source pixels to 16 *)

Section Overflow.

Import filters resize.
Local Open Scope R_scope.

Let lanczos3 : Resampler := OfLanczos (NewLanczos 3).

Lemma scaleOf_20_16 : scaleOf 20 16 = 5 / 4.
Proof. unfold scaleOf, float64_of_int. lra. Qed.

Lemma supportOf_20_16 : supportOf 3 (5 / 4) = 15 / 4.
Proof. unfold supportOf. destruct (Rlt_dec 1 (5 / 4)); lra. Qed.

Lemma centerOf_5_20_16 : centerOf 5 (5 / 4) = 51 / 8.
Proof. unfold centerOf, float64_of_int. lra. Qed.

Lemma weightsPerPixelOf_20_16 : weightsPerPixelOf (15 / 4) = 8%Z.
Proof.
  unfold weightsPerPixelOf. rewrite (int_of_float64_eq 7); [reflexivity | lia | lra].
Qed.

Lemma leftOf_5_20_16 : leftOf (51 / 8) (15 / 4) = 2%Z.
Proof.
  unfold leftOf. rewrite (int_of_float64_eq 2); [reflexivity | lia | lra].
Qed.

Lemma rightOf_5_20_16 : rightOf (51 / 8) (15 / 4) 20 = 10%Z.
Proof.
  unfold rightOf. rewrite (int_of_float64_eq 10); [reflexivity | lia | lra].
Qed.

(** No fraction with denominator 10 or 30 that is not whole is a zero of
    [sinc]. *)
Lemma sinc_29_10 : sinc (29 / 10) <> 0.
Proof.
  intros H. apply sinc_zero_integer in H. destruct H as [k Hk].
  assert (H10 : IZR (10 * k) = IZR 29) by (rewrite mult_IZR; lra).
  apply eq_IZR in H10. lia.
Qed.

Lemma sinc_29_30 : sinc (29 / 10 / 3) <> 0.
Proof.
  intros H. apply sinc_zero_integer in H. destruct H as [k Hk].
  assert (H30 : IZR (30 * k) = IZR 29) by (rewrite mult_IZR; lra).
  apply eq_IZR in H30. lia.
Qed.

(** The kernel value of source index 10 for destination index 5. *)
Lemma weightOf_10_nonzero : weightOf lanczos3 (5 / 4) (51 / 8) 10 <> 0.
Proof.
  unfold weightOf, float64_of_int. destruct (Rlt_dec 1 (5 / 4)); [| lra].
  replace ((10 - 51 / 8) / (5 / 4)) with (29 / 10) by lra.
  unfold lanczos3, Kernel. rewrite Lanczos_Kernel_inside.
  - rewrite Rabs_pos_eq by lra. simpl.
    apply Rmult_integral_contrapositive. split; [apply sinc_29_10 | apply sinc_29_30].
  - rewrite Rabs_pos_eq by lra. simpl. lra.
Qed.

Lemma weightsRow_5_20_16 :
  weightsRow 20 lanczos3 (5 / 4) (15 / 4) 8 5 = Panics.
Proof.
  unfold weightsRow.
  rewrite centerOf_5_20_16, leftOf_5_20_16, rightOf_5_20_16.
  rewrite make_nonneg by lia. cbn [bind].
  rewrite (fillRow_Panics lanczos3 (5 / 4) (51 / 8) 2 10 _ 10).
  - reflexivity.
  - lia.
  - unfold len. rewrite repeat_length. lia.
  - apply weightOf_10_nonzero.
Qed.

Lemma calculateWeights_20_16 : calculateWeights 20 16 lanczos3 = Panics.
Proof.
  apply (calculateWeights_Panics 20 16 lanczos3 5); try lia.
  unfold lanczos3, filterRadiusOf, float64_of_int. simpl Radius.
  rewrite scaleOf_20_16, supportOf_20_16, weightsPerPixelOf_20_16.
  apply weightsRow_5_20_16.
Qed.

End Overflow.

(** ** Loops that write an image *)

Section LoopsWithCondition.

Context {S : Type}.

(** A loop with a condition returns when its body does under an invariant
    of the state. *)
Lemma for_loop_returns_cond (Inv : S -> Prop) (cond : Z -> S -> bool)
    (body : Z -> S -> outcome S) (n : nat) :
  forall (lo : Z) (s : S),
    (forall i t, lo <= i < lo + Z.of_nat n -> Inv t -> cond i t = true ->
                 exists t', body i t = Returns t' /\ Inv t') ->
    Inv s ->
    exists s', for_loop n lo cond body s = Returns s' /\ Inv s'.
Proof.
  induction n as [| n IH]; intros lo s Hstep Hs; cbn [for_loop].
  - eauto.
  - destruct (cond lo s) eqn:Hc; [| eauto].
    destruct (Hstep lo s) as (t & Hb & Ht); [lia | exact Hs | exact Hc |].
    rewrite Hb. cbn [bind]. apply IH; [| exact Ht].
    intros i u Hi. apply Hstep. lia.
Qed.

End LoopsWithCondition.

Section FillFacts.

(** Two nested loops, the outer over [a] in [[alo, ahi)] and the inner over
    [b] in [[blo, bhi)], whose body sets the pixel at [(px a b, py a b)]. *)
Variables alo ahi blo bhi : Z.
Variables px py : Z -> Z -> Z.
Variable body : Z -> Z -> image.NRGBA -> outcome image.NRGBA.
Variable colourOf : Z -> Z -> color.RGBA -> Prop.
Variable dst0 : image.NRGBA.

Hypothesis Hinj : forall a b a' b',
  px a b = px a' b' -> py a b = py a' b' -> a = a' /\ b = b'.
Hypothesis Hbody : forall a b dst dst',
  alo <= a < ahi -> blo <= b < bhi ->
  body a b dst = Returns dst' ->
  exists c, colourOf a b c /\ dst' = image.NRGBA_Set dst (px a b) (py a b) c.
Hypothesis Hin : forall a b,
  alo <= a < ahi -> blo <= b < bhi ->
  image.In (image.Pt (px a b) (py a b)) (image.NRect dst0) = true.

Definition fill : outcome image.NRGBA :=
  for_lt alo ahi (fun a dst => for_lt blo bhi (fun b dst => body a b dst) dst) dst0.

Definition written (dst : image.NRGBA) (a b : Z) : Prop :=
  exists c, colourOf a b c
            /\ image.Pix dst (px a b) (py a b) = color.nrgbaModel c.

Definition innerInv (a b : Z) (dst : image.NRGBA) : Prop :=
  image.NRect dst = image.NRect dst0
  /\ forall a' b',
       (alo <= a' < a /\ blo <= b' < bhi) \/ (a' = a /\ blo <= b' < b) ->
       written dst a' b'.

Definition outerInv (a : Z) (dst : image.NRGBA) : Prop :=
  image.NRect dst = image.NRect dst0
  /\ forall a' b', alo <= a' < a -> blo <= b' < bhi -> written dst a' b'.

Lemma written_Set (dst : image.NRGBA) (a b a' b' : Z) (c : color.RGBA) :
  image.NRect dst = image.NRect dst0 ->
  alo <= a < ahi -> blo <= b < bhi ->
  colourOf a b c ->
  (a' = a /\ b' = b) \/ written dst a' b' ->
  written (image.NRGBA_Set dst (px a b) (py a b) c) a' b'.
Proof.
  intros Hrect Ha Hb Hc Hcase. unfold written, image.NRGBA_Set.
  rewrite Hrect, (Hin a b Ha Hb). simpl.
  destruct ((px a' b' =? px a b) && (py a' b' =? py a b)) eqn:E.
  - apply andb_true_iff in E. destruct E as [Ex Ey].
    apply Z.eqb_eq in Ex, Ey. destruct (Hinj _ _ _ _ Ex Ey) as [-> ->].
    exists c. split; [exact Hc | reflexivity].
  - destruct Hcase as [[-> ->] | Hw]; [| exact Hw].
    rewrite !Z.eqb_refl in E. discriminate.
Qed.

Lemma NRect_Set (dst : image.NRGBA) (x y : Z) (c : color.RGBA) :
  image.NRect (image.NRGBA_Set dst x y c) = image.NRect dst.
Proof.
  unfold image.NRGBA_Set. destruct (image.In _ _); reflexivity.
Qed.

Lemma inner_Returns (a : Z) (dst dst' : image.NRGBA) :
  alo <= a < ahi ->
  outerInv a dst ->
  for_lt blo bhi (fun b dst => body a b dst) dst = Returns dst' ->
  outerInv (a + 1) dst'.
Proof.
  intros Ha (Hrect & Hdone) Hrun. unfold for_lt in Hrun.
  apply (for_loop_invariant_at (innerInv a) (fun b dst => body a b dst) _ blo)
    in Hrun.
  - destruct Hrun as (Hrect' & Hall). split; [exact Hrect' |].
    intros a' b' Ha' Hb'. apply Hall.
    destruct (Z.eq_dec a' a) as [-> | E]; [right | left]; lia.
  - intros b t t' Hb (Hr & Hw) Hstep.
    destruct (Hbody a b t t') as (c & Hc & ->); [lia | lia | exact Hstep |].
    split; [rewrite NRect_Set; exact Hr |].
    intros a' b' Hcase. apply written_Set; try assumption; try lia.
    destruct (Z.eq_dec a' a) as [-> | Ea].
    + destruct (Z.eq_dec b' b) as [-> | Eb]; [now left |].
      right. apply Hw. right. lia.
    + right. apply Hw. left. lia.
  - split; [exact Hrect |]. intros a' b' [H | H]; [| lia].
    apply Hdone; lia.
Qed.

(** Every pixel the loops range over holds the converted colour its
    iteration computed. *)
Lemma fill_Returns (dst : image.NRGBA) :
  fill = Returns dst ->
  image.NRect dst = image.NRect dst0
  /\ forall a b, alo <= a < ahi -> blo <= b < bhi -> written dst a b.
Proof.
  unfold fill, for_lt. intros Hrun.
  apply (for_loop_invariant_at outerInv
           (fun a dst => for_lt blo bhi (fun b dst => body a b dst) dst) _ alo)
    in Hrun.
  - destruct Hrun as (Hrect & Hall). split; [exact Hrect |].
    intros a b Ha Hb. apply Hall; lia.
  - intros a t t' Ha Hinv Hstep. apply (inner_Returns a t t'); [lia | exact Hinv | exact Hstep].
  - split; [reflexivity |]. intros a' b' Ha'. lia.
Qed.

(** The loops return when every iteration of the body does. *)
Lemma fill_total :
  (forall a b dst, alo <= a < ahi -> blo <= b < bhi ->
                   exists dst', body a b dst = Returns dst') ->
  exists dst, fill = Returns dst.
Proof.
  intros Htotal. unfold fill, for_lt.
  destruct (for_loop_returns (fun _ _ => True)
              (fun a dst => for_lt blo bhi (fun b dst => body a b dst) dst)
              (Z.to_nat (ahi - alo)) alo dst0) as (dst & Hdst & _); [| exact I | eauto].
  intros a t Ha _.
  destruct (for_loop_returns (fun _ _ => True) (fun b dst => body a b dst)
              (Z.to_nat (bhi - blo)) blo t) as (t' & Ht' & _); [| exact I |].
  - intros b u Hb _. destruct (Htotal a b u) as (u' & Hu'); [lia | lia |]. eauto.
  - exists t'. split; [exact Ht' | exact I].
Qed.

End FillFacts.

Section StoreFacts.

(** The same two loops when the body stores a [color.NRGBA] as it is. *)
Variables alo ahi blo bhi : Z.
Variables px py : Z -> Z -> Z.
Variable body : Z -> Z -> image.NRGBA -> outcome image.NRGBA.
Variable colourOf : Z -> Z -> color.NRGBA.
Variable dst0 : image.NRGBA.

Hypothesis Hinj : forall a b a' b',
  px a b = px a' b' -> py a b = py a' b' -> a = a' /\ b = b'.
Hypothesis Hbody : forall a b dst dst',
  alo <= a < ahi -> blo <= b < bhi ->
  body a b dst = Returns dst' ->
  dst' = image.NRGBA_SetNRGBA dst (px a b) (py a b) (colourOf a b).
Hypothesis Hin : forall a b,
  alo <= a < ahi -> blo <= b < bhi ->
  image.In (image.Pt (px a b) (py a b)) (image.NRect dst0) = true.

Definition stored (dst : image.NRGBA) (a b : Z) : Prop :=
  image.Pix dst (px a b) (py a b) = colourOf a b.

Lemma NRect_SetNRGBA (dst : image.NRGBA) (x y : Z) (c : color.NRGBA) :
  image.NRect (image.NRGBA_SetNRGBA dst x y c) = image.NRect dst.
Proof.
  unfold image.NRGBA_SetNRGBA. destruct (image.In _ _); reflexivity.
Qed.

Lemma stored_SetNRGBA (dst : image.NRGBA) (a b a' b' : Z) :
  image.NRect dst = image.NRect dst0 ->
  alo <= a < ahi -> blo <= b < bhi ->
  (a' = a /\ b' = b) \/ stored dst a' b' ->
  stored (image.NRGBA_SetNRGBA dst (px a b) (py a b) (colourOf a b)) a' b'.
Proof.
  intros Hrect Ha Hb Hcase. unfold stored, image.NRGBA_SetNRGBA.
  rewrite Hrect, (Hin a b Ha Hb). simpl.
  destruct ((px a' b' =? px a b) && (py a' b' =? py a b)) eqn:E.
  - apply andb_true_iff in E. destruct E as [Ex Ey].
    apply Z.eqb_eq in Ex, Ey. destruct (Hinj _ _ _ _ Ex Ey) as [-> ->].
    reflexivity.
  - destruct Hcase as [[-> ->] | Hw]; [| exact Hw].
    rewrite !Z.eqb_refl in E. discriminate.
Qed.

(** Every pixel the loops range over holds the colour of its iteration. *)
Lemma fill_stores (dst : image.NRGBA) :
  fill alo ahi blo bhi body dst0 = Returns dst ->
  image.NRect dst = image.NRect dst0
  /\ forall a b, alo <= a < ahi -> blo <= b < bhi -> stored dst a b.
Proof.
  unfold fill, for_lt. intros Hrun.
  apply (for_loop_invariant_at
           (fun a dst => image.NRect dst = image.NRect dst0
                         /\ forall a' b', alo <= a' < a -> blo <= b' < bhi ->
                                          stored dst a' b')
           (fun a dst => for_lt blo bhi (fun b dst => body a b dst) dst) _ alo)
    in Hrun.
  - destruct Hrun as (Hrect & Hall). split; [exact Hrect |].
    intros a b Ha Hb. apply Hall; lia.
  - intros a t t' Ha (Hrect & Hdone) Hstep. unfold for_lt in Hstep.
    apply (for_loop_invariant_at
             (fun b dst => image.NRect dst = image.NRect dst0
                           /\ forall a' b',
                                (alo <= a' < a /\ blo <= b' < bhi)
                                \/ (a' = a /\ blo <= b' < b) ->
                                stored dst a' b')
             (fun b dst => body a b dst) _ blo) in Hstep.
    + destruct Hstep as (Hrect' & Hall). split; [exact Hrect' |].
      intros a' b' Ha' Hb'. apply Hall.
      destruct (Z.eq_dec a' a) as [-> | E]; [right | left]; lia.
    + intros b u u' Hb (Hr & Hw) Hret.
      rewrite (Hbody a b u u') by (lia || exact Hret).
      split; [rewrite NRect_SetNRGBA; exact Hr |].
      intros a' b' Hcase. apply stored_SetNRGBA; try assumption; try lia.
      destruct (Z.eq_dec a' a) as [-> | Ea].
      * destruct (Z.eq_dec b' b) as [-> | Eb]; [now left |].
        right. apply Hw. right. lia.
      * right. apply Hw. left. lia.
    + split; [exact Hrect |]. intros a' b' [H | H]; [| lia].
      apply Hdone; lia.
  - split; [reflexivity |]. intros a' b' Ha'. lia.
Qed.

End StoreFacts.

(** ** The direct copy *)

Section CopyFacts.

Local Open Scope Z_scope.

Lemma Rect_origin (w h : Z) :
  0 <= w -> 0 <= h ->
  image.Rect 0 0 w h = image.mkRectangle (image.Pt 0 0) (image.Pt w h).
Proof.
  intros Hw Hh. unfold image.Rect.
  replace (w <? 0) with false by lia. replace (h <? 0) with false by lia.
  reflexivity.
Qed.

Lemma In_origin (w h x y : Z) :
  image.In (image.Pt x y) (image.mkRectangle (image.Pt 0 0) (image.Pt w h)) = true
  <-> 0 <= x < w /\ 0 <= y < h.
Proof.
  unfold image.In; simpl. rewrite !andb_true_iff. lia.
Qed.

Lemma Intersect_same_coordinates (r s : image.Rectangle) :
  image.Empty r = false ->
  image.X (image.Min s) = image.X (image.Min r) ->
  image.Y (image.Min s) = image.Y (image.Min r) ->
  image.X (image.Max s) = image.X (image.Max r) ->
  image.Y (image.Max s) = image.Y (image.Max r) ->
  image.Intersect r s = r.
Proof.
  destruct r as [[rx0 ry0] [rx1 ry1]], s as [[sx0 sy0] [sx1 sy1]].
  unfold image.Intersect, image.Empty. cbn [image.X image.Y image.Min image.Max].
  intros He -> -> -> ->. rewrite !Z.max_id, !Z.min_id, He. reflexivity.
Qed.

Variable src : image.Image.
Variables w h : Z.
Hypothesis Hw : 0 < w.
Hypothesis Hh : 0 < h.
Hypothesis HDx : image.Dx (image.Bounds src) = w.
Hypothesis HDy : image.Dy (image.Bounds src) = h.

Let minX := image.X (image.Min (image.Bounds src)).
Let minY := image.Y (image.Min (image.Bounds src)).
Let origin := image.mkRectangle (image.Pt 0 0) (image.Pt w h).

Lemma clip_copy :
  draw.clip (image.NewNRGBA origin) origin src (image.Min (image.Bounds src))
  = (origin, image.Pt (minX + 0) (minY + 0)).
Proof.
  assert (Hne : image.Empty origin = false).
  { unfold image.Empty, origin. simpl. apply orb_false_iff. lia. }
  unfold draw.clip. cbn [image.NRect image.NewNRGBA].
  rewrite (Intersect_same_coordinates origin origin) by auto.
  rewrite (Intersect_same_coordinates origin).
  - reflexivity.
  - exact Hne.
  - unfold image.Add, origin. cbn [image.X image.Y image.Min image.Max]. lia.
  - unfold image.Add, origin. cbn [image.X image.Y image.Min image.Max]. lia.
  - unfold image.Add, origin, image.Dx in *.
    cbn [image.X image.Y image.Min image.Max]. lia.
  - unfold image.Add, origin, image.Dy in *.
    cbn [image.X image.Y image.Min image.Max]. lia.
Qed.

Definition copyBody (y x : Z) (dst : image.NRGBA) : outcome image.NRGBA :=
  Returns (image.NRGBA_SetNRGBA dst x y
             (draw.drawn src (minX + 0 + x - 0) (minY + 0 + y - 0))).

Lemma Draw_copy_unfold :
  draw.Draw (image.NewNRGBA origin) origin src (image.Min (image.Bounds src))
  = fill 0 h 0 w copyBody (image.NewNRGBA origin).
Proof.
  unfold draw.Draw. rewrite clip_copy.
  unfold origin at 1, image.Empty. simpl.
  replace ((w <=? 0) || (h <=? 0)) with false
    by (symmetry; apply orb_false_iff; lia).
  unfold copyBody, minX, minY. destruct src; reflexivity.
Qed.

(** [draw.Draw] of the whole source into a fresh image of the same size
    stores at every coordinate the pixel drawn from the source there: the
    pixel itself when the source is an [image.NRGBA], its conversion
    otherwise. *)
Lemma Draw_copy :
  exists dst,
    draw.Draw (image.NewNRGBA origin) origin src (image.Min (image.Bounds src))
    = Returns dst
    /\ image.NRect dst = origin
    /\ forall x y, 0 <= x < w -> 0 <= y < h ->
         image.Pix dst x y = draw.drawn src (x + minX) (y + minY).
Proof.
  rewrite Draw_copy_unfold.
  destruct (fill_total 0 h 0 w copyBody (image.NewNRGBA origin)) as (dst & Hdst).
  { intros a b t _ _. unfold copyBody. eauto. }
  exists dst. split; [exact Hdst |].
  apply (fill_stores 0 h 0 w (fun a b => b) (fun a b => a) copyBody
           (fun a b => draw.drawn src (b + minX) (a + minY))) in Hdst.
  - destruct Hdst as (Hrect & Hall). split; [exact Hrect |].
    intros x y Hx Hy. exact (Hall y x Hy Hx).
  - intros a b a' b' Hb Ha. split; assumption.
  - intros a b t t' _ _ Hret. unfold copyBody in Hret. inversion Hret; subst t'.
    do 2 f_equal; lia.
  - intros a b Ha Hb. simpl. apply In_origin. lia.
Qed.

End CopyFacts.

(** ** One destination pixel *)

Section PixelFacts.

Import filters resize.

Variable src : image.Image.
Variable coord : Z -> image.Point.

Definition accCond (pixelWeights : list float64) (_ : Z) (st : accState) : bool :=
  accIdx st <? len pixelWeights.

Definition accBody (pixelWeights : list float64) (srcIdx : Z) (st : accState)
    : outcome accState :=
  bind (slice_get pixelWeights (accIdx st))
    (fun weight =>
       if Req_dec_T weight 0
       then Returns (mkAccState (accR st) (accG st) (accB st) (accA st)
                       (accIdx st + 1) (accReads st))
       else
         let p := coord srcIdx in
         let srcColor := image.At src (image.X p) (image.Y p) in
         Returns (mkAccState
                    (accR st + float64_of_int (color.red srcColor) * weight)%R
                    (accG st + float64_of_int (color.green srcColor) * weight)%R
                    (accB st + float64_of_int (color.blue srcColor) * weight)%R
                    (accA st + float64_of_int (color.alpha srcColor) * weight)%R
                    (accIdx st + 1) (p :: accReads st))).

Lemma accumulate_unfold (pixelWeights : list float64) (left right : Z) :
  accumulate src coord pixelWeights left right
  = for_loop (Z.to_nat (right - left + 1)) left (accCond pixelWeights)
      (accBody pixelWeights) (mkAccState 0 0 0 0 0 []).
Proof. reflexivity. Qed.

(** The accumulation loop never panics: the weight index is checked by the
    loop condition. *)
Lemma accumulate_total (pixelWeights : list float64) (left right : Z) :
  exists st, accumulate src coord pixelWeights left right = Returns st.
Proof.
  rewrite accumulate_unfold.
  destruct (for_loop_returns_cond (fun st => 0 <= accIdx st)
              (accCond pixelWeights) (accBody pixelWeights)
              (Z.to_nat (right - left + 1)) left (mkAccState 0 0 0 0 0 []))
    as (st & Hst & _).
  - intros i t _ Ht Hc. unfold accCond in Hc. unfold accBody.
    rewrite (slice_get_in_range _ _ 0%R) by lia. cbn [bind].
    destruct (Req_dec_T _ 0); eexists; (split; [reflexivity | simpl; lia]).
  - simpl. lia.
  - eauto.
Qed.

(** The source is read only at source indices of the range. *)
Lemma accumulate_reads (pixelWeights : list float64) (left right : Z)
    (st : accState) :
  accumulate src coord pixelWeights left right = Returns st ->
  Forall (fun p => exists srcIdx, p = coord srcIdx /\ left <= srcIdx <= right)
         (accReads st).
Proof.
  rewrite accumulate_unfold.
  apply for_loop_invariant with
    (Inv := fun st => Forall (fun p => exists srcIdx,
                                p = coord srcIdx /\ left <= srcIdx <= right)
                             (accReads st)).
  - intros i t t' Hi Ht _ Hb. unfold accBody in Hb.
    apply bind_Returns in Hb. destruct Hb as (weight & _ & Hb).
    destruct (Req_dec_T weight 0); inversion Hb; subst t'; simpl; [exact Ht |].
    constructor; [| exact Ht]. exists i. split; [reflexivity | lia].
  - simpl. constructor.
Qed.

Lemma resamplePixel_total (weights : list (list float64)) (filter : Lanczos)
    (srcSize dstSize dstIdx : Z) :
  0 <= dstIdx < len weights ->
  exists st,
    resamplePixel src coord weights filter srcSize dstSize dstIdx = Returns st.
Proof.
  intros H. unfold resamplePixel.
  rewrite (slice_get_in_range _ _ []) by exact H. cbn [bind].
  apply accumulate_total.
Qed.

End PixelFacts.

Section RangeClaim.

Import filters resize.
Local Open Scope R_scope.

(** C4. For source length [>= 1], destination length [>= 1] and a
    destination index [d], the contributing range is
    [left = floor(center - support)] and [right = floor(center + support)],
    each brought into [[0, sourceLen - 1]]; a pass reads the source only at
    source indices of that range, so never outside [[0, sourceLen - 1]]. *)
Theorem source_range_in_bounds
    (srcSize dstSize dstIdx : Z) (filter : Lanczos) :
  (1 <= srcSize)%Z -> (1 <= dstSize)%Z -> (0 <= dstIdx < dstSize)%Z ->
  (0 <= Radius filter)%Z ->
  let scale := scaleOf srcSize dstSize in
  let support := supportOf (float64_of_int (Radius filter)) scale in
  let center := centerOf dstIdx scale in
  let left := leftOf center support in
  let right := rightOf center support srcSize in
  left = clampInto 0 (srcSize - 1) (Zfloor (center - support))
  /\ right = clampInto 0 (srcSize - 1) (Zfloor (center + support))
  /\ forall (src : image.Image) (coord : Z -> image.Point)
            (weights : list (list float64)) (st : accState),
       resamplePixel src coord weights filter srcSize dstSize dstIdx = Returns st ->
       Forall (fun p => exists srcIdx,
                 p = coord srcIdx
                 /\ (left <= srcIdx <= right)%Z
                 /\ (0 <= srcIdx <= srcSize - 1)%Z)
              (accReads st).
Proof.
  intros Hs Hd Hi Hr scale support center left right.
  assert (Hsup : 0 <= support).
  { apply supportOf_nonneg; try assumption.
    unfold float64_of_int. now apply IZR_le in Hr. }
  pose proof (leftOf_range srcSize dstSize Hs Hd dstIdx Hi support Hsup) as Hl.
  pose proof (rightOf_range srcSize dstSize Hs Hd dstIdx Hi support Hsup) as Hrg.
  fold scale center left right in Hl, Hrg.
  split; [apply (leftOf_clamp srcSize dstSize Hs Hd dstIdx Hi support Hsup) |].
  split; [apply (rightOf_clamp srcSize dstSize Hs Hd dstIdx Hi support Hsup) |].
  intros src coord weights st Hrun. unfold resamplePixel in Hrun.
  apply bind_Returns in Hrun. destruct Hrun as (pixelWeights & _ & Hacc).
  apply accumulate_reads in Hacc. fold scale center support left right in Hacc.
  eapply Forall_impl; [| exact Hacc].
  intros p (srcIdx & Hp & Hrange). exists srcIdx. repeat split; try assumption; lia.
Qed.

Lemma source_range_in_bounds_witness :
  leftOf (centerOf 0 (scaleOf 4 2))
         (supportOf (float64_of_int (Radius (NewLanczos 3))) (scaleOf 4 2))
  = clampInto 0 (4 - 1)
      (Zfloor (centerOf 0 (scaleOf 4 2)
               - supportOf (float64_of_int (Radius (NewLanczos 3))) (scaleOf 4 2))).
Proof.
  apply (source_range_in_bounds 4 2 0 (NewLanczos 3)); simpl; lia.
Defined.

End RangeClaim.

(** ** A filtered pass *)

Section PassFacts.

Import filters resize.
Local Open Scope Z_scope.

(** The part the two passes share once the copy case is excluded: [srcLen]
    and [dstLen] are the lengths of the resized axis, [a] ranges over the
    other axis (of length [other]) and [b] over the destination indices; the
    pixel of [(a, b)] is stored at [(px a b, py a b)] and reads the source
    through [coord a]. *)
Variable src : image.Image.
Variables srcLen dstLen other : Z.
Variables px py : Z -> Z -> Z.
Variable coord : Z -> Z -> image.Point.
Variable rect : image.Rectangle.
Variable err : error.

Hypothesis Hinj : forall a b a' b',
  px a b = px a' b' -> py a b = py a' b' -> a = a' /\ b = b'.
Hypothesis Hin : forall a b,
  0 <= a < other -> 0 <= b < dstLen ->
  image.In (image.Pt (px a b) (py a b)) rect = true.

Definition passBody (weights : list (list float64)) (a b : Z) (dst : image.NRGBA)
    : outcome image.NRGBA :=
  bind (resamplePixel src (coord a) weights (NewLanczos 3) srcLen dstLen b)
    (fun st =>
       Returns (image.NRGBA_Set dst (px a b) (py a b)
                  (color.NRGBA64_RGBA (narrow st)))).

Definition filteredPass : outcome result :=
  bind (calculateWeights srcLen dstLen (OfLanczos (NewLanczos 3)))
    (fun weights =>
       match weights with
       | None => Returns (None, Some err)
       | Some weights =>
           bind (fill 0 other 0 dstLen (passBody weights) (image.NewNRGBA rect))
             (fun dst => Returns (Some dst, None))
       end).

(** The colour a pass stores for the pair [(a, b)]. *)
Definition passColour (weights : list (list float64)) (a b : Z) (c : color.RGBA)
    : Prop :=
  exists st,
    resamplePixel src (coord a) weights (NewLanczos 3) srcLen dstLen b = Returns st
    /\ c = color.NRGBA64_RGBA (narrow st).

Lemma filteredPass_Returns (r : result) :
  filteredPass = Returns r ->
  (r = (None, Some err) /\ (srcLen <= 0 \/ dstLen <= 0))
  \/ exists weights dst,
       calculateWeights srcLen dstLen (OfLanczos (NewLanczos 3))
       = Returns (Some weights)
       /\ r = (Some dst, None)
       /\ image.NRect dst = rect
       /\ forall a b, 0 <= a < other -> 0 <= b < dstLen ->
            exists c, passColour weights a b c
                      /\ image.Pix dst (px a b) (py a b) = color.nrgbaModel c.
Proof.
  unfold filteredPass. intros H.
  apply bind_Returns in H. destruct H as ([weights |] & Hw & H).
  - right. apply bind_Returns in H. destruct H as (dst & Hfill & Hret).
    inversion Hret; subst r; clear Hret.
    exists weights, dst. split; [exact Hw |]. split; [reflexivity |].
    apply (fill_Returns 0 other 0 dstLen px py (passBody weights)
             (passColour weights)) in Hfill.
    + destruct Hfill as (Hrect & Hall). split; [exact Hrect |]. exact Hall.
    + exact Hinj.
    + intros a b t t' _ _ Hb. unfold passBody in Hb.
      apply bind_Returns in Hb. destruct Hb as (st & Hst & Hret).
      inversion Hret; subst t'. eexists. split; [| reflexivity].
      exists st. split; [exact Hst | reflexivity].
    + exact Hin.
  - left. inversion H; subst r. split; [reflexivity |].
    now apply calculateWeights_nil_iff in Hw.
Qed.

Lemma filteredPass_total (weights : list (list float64)) :
  calculateWeights srcLen dstLen (OfLanczos (NewLanczos 3)) = Returns (Some weights) ->
  exists dst, filteredPass = Returns (Some dst, None).
Proof.
  intros Hw. unfold filteredPass. rewrite Hw. cbn [bind].
  apply calculateWeights_Returns in Hw. destruct Hw as (_ & _ & Hlen & _).
  destruct (fill_total 0 other 0 dstLen (passBody weights) (image.NewNRGBA rect))
    as (dst & Hdst).
  - intros a b t _ Hb. unfold passBody.
    destruct (resamplePixel_total src (coord a) weights (NewLanczos 3)
                srcLen dstLen b) as (st & Hst); [lia |].
    rewrite Hst. cbn [bind]. eauto.
  - rewrite Hdst. cbn [bind]. eauto.
Qed.

Lemma filteredPass_Panics :
  calculateWeights srcLen dstLen (OfLanczos (NewLanczos 3)) = Panics ->
  filteredPass = Panics.
Proof. intros Hw. unfold filteredPass. now rewrite Hw. Qed.

End PassFacts.

Section PassUnfold.

Import filters resize.
Local Open Scope Z_scope.

Variable src : image.Image.

Let srcWidth := image.Dx (image.Bounds src).
Let srcHeight := image.Dy (image.Bounds src).
Let minX := image.X (image.Min (image.Bounds src)).
Let minY := image.Y (image.Min (image.Bounds src)).

Lemma resizeVertical_filtered (height : Z) :
  srcHeight <> height ->
  resizeVertical src height
  = filteredPass src srcHeight height srcWidth (fun x dstY => x) (fun x dstY => dstY)
      (fun x srcY => image.Pt (x + minX) (srcY + minY))
      (image.Rect 0 0 srcWidth height) ErrVerticalWeights.
Proof.
  intros H. unfold resizeVertical. fold srcHeight srcWidth.
  replace (srcHeight =? height) with false by lia. reflexivity.
Qed.

Lemma resizeHorizontal_filtered (width : Z) :
  srcWidth <> width ->
  resizeHorizontal src width
  = filteredPass src srcWidth width srcHeight (fun y dstX => dstX) (fun y dstX => y)
      (fun y srcX => image.Pt (srcX + minX) (y + minY))
      (image.Rect 0 0 width srcHeight) ErrHorizontalWeights.
Proof.
  intros H. unfold resizeHorizontal. fold srcHeight srcWidth.
  replace (srcWidth =? width) with false by lia. reflexivity.
Qed.

Lemma resizeVertical_copy (height : Z) :
  srcHeight = height ->
  resizeVertical src height
  = bind (draw.Draw (image.NewNRGBA (image.Rect 0 0 srcWidth height))
            (image.Rect 0 0 srcWidth height) src (image.Min (image.Bounds src)))
      (fun dst => Returns (Some dst, None)).
Proof.
  intros H. unfold resizeVertical. fold srcHeight srcWidth.
  replace (srcHeight =? height) with true by lia. reflexivity.
Qed.

Lemma resizeHorizontal_copy (width : Z) :
  srcWidth = width ->
  resizeHorizontal src width
  = bind (draw.Draw (image.NewNRGBA (image.Rect 0 0 width srcHeight))
            (image.Rect 0 0 width srcHeight) src (image.Min (image.Bounds src)))
      (fun dst => Returns (Some dst, None)).
Proof.
  intros H. unfold resizeHorizontal. fold srcHeight srcWidth.
  replace (srcWidth =? width) with true by lia. reflexivity.
Qed.

End PassUnfold.

(** ** Results of the passes *)

Section PassResults.

Import filters resize.
Local Open Scope Z_scope.

(** [draw.Draw] returns, and keeps the bounds of the destination. *)
Lemma Draw_total (dst : image.NRGBA) (r : image.Rectangle) (src : image.Image)
    (sp : image.Point) :
  exists dst', draw.Draw dst r src sp = Returns dst'
               /\ image.NRect dst' = image.NRect dst.
Proof.
  unfold draw.Draw. destruct (draw.clip dst r src sp) as [r' sp'].
  destruct (image.Empty r'); [eauto |].
  assert (Hloop : forall store,
            (forall t x y sx sy, image.NRect (store t x y sx sy) = image.NRect t) ->
            exists dst', draw.drawLoop dst r' sp' store = Returns dst'
                         /\ image.NRect dst' = image.NRect dst).
  { intros store Hstore. unfold draw.drawLoop, for_lt.
    apply (for_loop_returns (fun _ t => image.NRect t = image.NRect dst));
      [| reflexivity].
    intros y t _ Ht.
    apply (for_loop_returns (fun _ u => image.NRect u = image.NRect dst));
      [| exact Ht].
    intros x u _ Hu. eexists. split; [reflexivity |].
    rewrite Hstore. exact Hu. }
  destruct src; apply Hloop; intros; apply NRect_SetNRGBA.
Qed.

Lemma In_Rect_origin (w h x y : Z) :
  0 <= x < w -> 0 <= y < h ->
  image.In (image.Pt x y) (image.Rect 0 0 w h) = true.
Proof.
  intros Hx Hy. rewrite Rect_origin by lia. apply In_origin. lia.
Qed.

Variable src : image.Image.

Let srcWidth := image.Dx (image.Bounds src).
Let srcHeight := image.Dy (image.Bounds src).

(** A pass returns either an image of the requested bounds and no error, or
    no image and its own error. *)
Lemma resizeVertical_result (height : Z) (r : result) :
  resizeVertical src height = Returns r ->
  (exists dst, r = (Some dst, None)
               /\ image.NRect dst = image.Rect 0 0 srcWidth height)
  \/ (r = (None, Some ErrVerticalWeights) /\ srcHeight <> height
      /\ (srcHeight <= 0 \/ height <= 0)).
Proof.
  destruct (Z.eq_dec srcHeight height) as [E | E].
  - rewrite resizeVertical_copy by exact E. fold srcWidth.
    destruct (Draw_total (image.NewNRGBA (image.Rect 0 0 srcWidth height))
                (image.Rect 0 0 srcWidth height) src (image.Min (image.Bounds src)))
      as (dst & Hdst & Hrect).
    rewrite Hdst. cbn [bind]. intros H. inversion H; subst r. left. eauto.
  - rewrite resizeVertical_filtered by exact E. intros H.
    apply filteredPass_Returns in H.
    + destruct H as [[-> Hsz] | (weights & dst & _ & -> & Hrect & _)];
        [right; auto | left; eauto].
    + intros a b a' b' -> ->. auto.
    + intros a b Ha Hb. apply In_Rect_origin; assumption.
Qed.

Lemma resizeHorizontal_result (width : Z) (r : result) :
  resizeHorizontal src width = Returns r ->
  (exists dst, r = (Some dst, None)
               /\ image.NRect dst = image.Rect 0 0 width srcHeight)
  \/ (r = (None, Some ErrHorizontalWeights) /\ srcWidth <> width
      /\ (srcWidth <= 0 \/ width <= 0)).
Proof.
  destruct (Z.eq_dec srcWidth width) as [E | E].
  - rewrite resizeHorizontal_copy by exact E. fold srcHeight.
    destruct (Draw_total (image.NewNRGBA (image.Rect 0 0 width srcHeight))
                (image.Rect 0 0 width srcHeight) src (image.Min (image.Bounds src)))
      as (dst & Hdst & Hrect).
    rewrite Hdst. cbn [bind]. intros H. inversion H; subst r. left. eauto.
  - rewrite resizeHorizontal_filtered by exact E. intros H.
    apply filteredPass_Returns in H.
    + destruct H as [[-> Hsz] | (weights & dst & _ & -> & Hrect & _)];
        [right; auto | left; eauto].
    + intros a b a' b' -> ->. auto.
    + intros a b Ha Hb. apply In_Rect_origin; assumption.
Qed.

End PassResults.

(** ** Colours *)

Section ColourFacts.

Local Open Scope Z_scope.

Definition is8bit (v : Z) : Prop := 0 <= v < 256.

Definition is16bit (v : Z) : Prop := 0 <= v <= 65535.

Lemma widen_8bit (v : Z) : is8bit v -> Z.lor v (Z.shiftl v 8) = 257 * v.
Proof.
  intros Hv.
  assert (Hall : forallb (fun n => Z.lor (Z.of_nat n) (Z.shiftl (Z.of_nat n) 8)
                                   =? 257 * Z.of_nat n) (seq 0 256) = true)
    by (vm_compute; reflexivity).
  rewrite forallb_forall in Hall.
  specialize (Hall (Z.to_nat v)).
  unfold is8bit in Hv. rewrite Z2Nat.id in Hall by lia.
  apply Z.eqb_eq, Hall, in_seq. lia.
Qed.

Lemma uint32_small (v : Z) : 0 <= v < 4294967296 -> uint32 v = v.
Proof. intros H. unfold uint32. now apply Z.mod_small. Qed.

Lemma uint8_is8bit (v : Z) : is8bit (uint8 v).
Proof. unfold is8bit, uint8. apply Z.mod_pos_bound. lia. Qed.

(** An 8-bit channel under an 8-bit alpha, as [NRGBA.RGBA()] widens it. *)
Lemma NRGBA_channel (v a : Z) :
  is8bit v -> is8bit a ->
  uint32 (Z.lor (uint32 v) (Z.shiftl (uint32 v) 8) * uint32 a) / 255
  = 257 * v * a / 255.
Proof.
  intros Hv Ha. unfold is8bit in *.
  rewrite (uint32_small v), (uint32_small a) by lia.
  rewrite widen_8bit by exact Hv.
  rewrite uint32_small by nia. reflexivity.
Qed.

Definition NRGBA_is8bit (c : color.NRGBA) : Prop :=
  is8bit (color.R8 c) /\ is8bit (color.G8 c)
  /\ is8bit (color.B8 c) /\ is8bit (color.A8 c).

Definition RGBA_is16bit (c : color.RGBA) : Prop :=
  is16bit (color.red c) /\ is16bit (color.green c)
  /\ is16bit (color.blue c) /\ is16bit (color.alpha c).

(** [color.NRGBAModel] yields 8-bit channels. *)
Lemma nrgbaModel_is8bit (c : color.RGBA) : NRGBA_is8bit (color.nrgbaModel c).
Proof.
  unfold color.nrgbaModel, NRGBA_is8bit.
  destruct (color.alpha c =? 65535); [| destruct (color.alpha c =? 0)]; simpl;
    repeat split; try apply uint8_is8bit; unfold is8bit; lia.
Qed.

(** The [RGBA()] value of an 8-bit colour has 16-bit channels. *)
Lemma NRGBA_RGBA_is16bit (c : color.NRGBA) :
  NRGBA_is8bit c -> RGBA_is16bit (color.NRGBA_RGBA c).
Proof.
  intros (Hr & Hg & Hb & Ha).
  assert (Hch : forall v, is8bit v -> is16bit (257 * v * color.A8 c / 255)).
  { intros v Hv. unfold is8bit, is16bit in *. split.
    - apply Z.div_pos; nia.
    - apply Z.div_le_upper_bound; nia. }
  unfold color.NRGBA_RGBA, RGBA_is16bit. simpl.
  rewrite !NRGBA_channel by assumption.
  repeat split; try (apply Hch; assumption).
  - rewrite uint32_small, widen_8bit by (unfold is8bit in *; lia).
    unfold is8bit in *. lia.
  - rewrite uint32_small, widen_8bit by (unfold is8bit in *; lia).
    unfold is8bit in *. lia.
Qed.

(** The [RGBA()] value of an opaque 8-bit colour, and its conversion back. *)
Lemma NRGBA_RGBA_opaque (c : color.NRGBA) :
  NRGBA_is8bit c -> color.A8 c = 255 ->
  color.NRGBA_RGBA c
  = color.mkRGBA (257 * color.R8 c) (257 * color.G8 c) (257 * color.B8 c) 65535.
Proof.
  intros (Hr & Hg & Hb & Ha) Hop.
  unfold color.NRGBA_RGBA. simpl. rewrite !NRGBA_channel by assumption.
  rewrite Hop. rewrite !Z.div_mul by lia.
  rewrite uint32_small by lia. reflexivity.
Qed.

Lemma NRGBA_RGBA_transparent (c : color.NRGBA) :
  NRGBA_is8bit c -> color.A8 c = 0 ->
  color.NRGBA_RGBA c = color.mkRGBA 0 0 0 0.
Proof.
  intros (Hr & Hg & Hb & Ha) Htr.
  unfold color.NRGBA_RGBA. simpl. rewrite !NRGBA_channel by assumption.
  rewrite Htr. rewrite !Z.mul_0_r. reflexivity.
Qed.

Lemma shiftr_257 (v : Z) : is8bit v -> uint8 (Z.shiftr (257 * v) 8) = v.
Proof.
  intros Hv. unfold is8bit in Hv. rewrite Z.shiftr_div_pow2 by lia.
  change (2 ^ 8) with 256.
  replace (257 * v) with (v + v * 256) by lia.
  rewrite Z.div_add by lia. rewrite (Z.div_small v) by lia.
  unfold uint8. apply Z.mod_small. lia.
Qed.

(** A colour that is the value of an opaque or fully transparent 8-bit
    colour survives the conversion to [color.NRGBA] and back. *)
Lemma nrgbaModel_exact (n : color.NRGBA) :
  NRGBA_is8bit n -> color.A8 n = 255 \/ color.A8 n = 0 ->
  color.NRGBA_RGBA (color.nrgbaModel (color.NRGBA_RGBA n)) = color.NRGBA_RGBA n.
Proof.
  intros H8 [Hop | Htr].
  - rewrite (NRGBA_RGBA_opaque n H8 Hop).
    destruct H8 as (Hr & Hg & Hb & Ha).
    unfold color.nrgbaModel.
    cbn [color.red color.green color.blue color.alpha]. rewrite Z.eqb_refl.
    rewrite !shiftr_257 by assumption.
    apply (NRGBA_RGBA_opaque
             (color.mkNRGBA (color.R8 n) (color.G8 n) (color.B8 n) 255));
      [unfold NRGBA_is8bit, is8bit in *; simpl; lia |].
    reflexivity.
  - rewrite (NRGBA_RGBA_transparent n H8 Htr). reflexivity.
Qed.

(** The same through [SetRGBA64]. *)
Lemma ofRGBA64_exact (n : color.NRGBA) :
  NRGBA_is8bit n -> color.A8 n = 255 \/ color.A8 n = 0 ->
  color.NRGBA_RGBA (image.ofRGBA64 (color.NRGBA_RGBA n)) = color.NRGBA_RGBA n.
Proof.
  intros H8 [Hop | Htr].
  - rewrite (NRGBA_RGBA_opaque n H8 Hop).
    destruct H8 as (Hr & Hg & Hb & Ha).
    unfold image.ofRGBA64.
    cbn [color.red color.green color.blue color.alpha].
    change (uint32 (uint16 65535)) with 65535. cbn [Z.eqb Pos.eqb negb andb].
    assert (Hch : forall v, is8bit v ->
                    uint8 (Z.shiftr (uint32 (uint16 (257 * v))) 8) = v).
    { intros v Hv. unfold uint16. rewrite Z.mod_small by (unfold is8bit in Hv; lia).
      rewrite uint32_small by (unfold is8bit in Hv; lia). now apply shiftr_257. }
    rewrite !Hch by assumption.
    apply (NRGBA_RGBA_opaque
             (color.mkNRGBA (color.R8 n) (color.G8 n) (color.B8 n) 255));
      [unfold NRGBA_is8bit, is8bit in *; simpl; lia |].
    reflexivity.
  - rewrite (NRGBA_RGBA_transparent n H8 Htr). reflexivity.
Qed.

End ColourFacts.

(** ** The orchestrator *)

Section ResizeFacts.

Import filters resize.
Local Open Scope Z_scope.

Lemma Dx_Rect_origin (w h : Z) : 0 <= w -> image.Dx (image.Rect 0 0 w h) = w.
Proof.
  intros Hw. unfold image.Rect, image.Dx.
  replace (w <? 0) with false by lia. destruct (h <? 0); simpl; lia.
Qed.

Lemma Dy_Rect_origin (w h : Z) : 0 <= h -> image.Dy (image.Rect 0 0 w h) = h.
Proof.
  intros Hh. unfold image.Rect, image.Dy.
  replace (h <? 0) with false by lia. destruct (w <? 0); simpl; lia.
Qed.

(** What the two-pass branch does with the result of the horizontal pass. *)
Definition thenVertical (height : Z) (r : result) : outcome result :=
  match r with
  | (_, Some err) => Returns (None, Some err)
  | (None, None) => Panics
  | (Some intermediate, None) =>
      resizeVertical (image.as_Image intermediate) height
  end.

Variable src : image.Image.
Variables width height : Z.

Let srcWidth := image.Dx (image.Bounds src).
Let srcHeight := image.Dy (image.Bounds src).

Lemma Resize_invalid :
  width <= 0 \/ height <= 0 ->
  Resize (Some src) width height
  = Returns (None, Some (ErrInvalidDimensions width height)).
Proof.
  intros H. unfold Resize.
  replace ((width <=? 0) || (height <=? 0)) with true; [reflexivity |].
  symmetry. apply orb_true_iff. lia.
Qed.

Lemma Resize_two_passes :
  0 < width -> 0 < height -> srcWidth <> width -> srcHeight <> height ->
  Resize (Some src) width height
  = bind (resizeHorizontal src width) (thenVertical height).
Proof.
  intros Hw Hh Hdw Hdh. unfold Resize. fold srcWidth srcHeight.
  replace (width <=? 0) with false by lia.
  replace (height <=? 0) with false by lia.
  replace (srcWidth =? width) with false by lia.
  replace (srcHeight =? height) with false by lia.
  reflexivity.
Qed.

Lemma Resize_horizontal_only :
  0 < width -> 0 < height -> srcWidth <> width -> srcHeight = height ->
  Resize (Some src) width height = resizeHorizontal src width.
Proof.
  intros Hw Hh Hdw Hdh. unfold Resize. fold srcWidth srcHeight.
  replace (width <=? 0) with false by lia.
  replace (height <=? 0) with false by lia.
  replace (srcWidth =? width) with false by lia.
  replace (srcHeight =? height) with true by lia.
  reflexivity.
Qed.

Lemma Resize_vertical_only :
  0 < width -> 0 < height -> srcWidth = width ->
  Resize (Some src) width height = resizeVertical src height.
Proof.
  intros Hw Hh Hdw. unfold Resize. fold srcWidth srcHeight.
  replace (width <=? 0) with false by lia.
  replace (height <=? 0) with false by lia.
  replace (srcWidth =? width) with true by lia.
  reflexivity.
Qed.

(** A run of [Resize] on a present source that returns gives either an
    image of the requested bounds and no error, or no image and an error. *)
Lemma Resize_result (r : result) :
  Resize (Some src) width height = Returns r ->
  (r = (None, Some (ErrInvalidDimensions width height))
   /\ (width <= 0 \/ height <= 0))
  \/ (0 < width /\ 0 < height
      /\ ((exists dst, r = (Some dst, None)
                       /\ image.NRect dst = image.Rect 0 0 width height)
          \/ r = (None, Some ErrVerticalWeights)
          \/ r = (None, Some ErrHorizontalWeights))).
Proof.
  destruct (Z_le_gt_dec width 0) as [Hw | Hw];
    [rewrite Resize_invalid by lia; intros H; inversion H; left; split; [reflexivity | lia] |].
  destruct (Z_le_gt_dec height 0) as [Hh | Hh];
    [rewrite Resize_invalid by lia; intros H; inversion H; left; split; [reflexivity | lia] |].
  intros H. right. split; [lia |]. split; [lia |].
  destruct (Z.eq_dec srcWidth width) as [Ew | Ew].
  - rewrite Resize_vertical_only in H by lia.
    apply resizeVertical_result in H. fold srcWidth in H. rewrite Ew in H.
    destruct H as [H | (-> & _)]; [left; exact H | right; left; reflexivity].
  - destruct (Z.eq_dec srcHeight height) as [Eh | Eh].
    + rewrite Resize_horizontal_only in H by lia.
      apply resizeHorizontal_result in H. fold srcHeight in H. rewrite Eh in H.
      destruct H as [H | (-> & _)]; [left; exact H | right; right; reflexivity].
    + rewrite Resize_two_passes in H by lia.
      apply bind_Returns in H. destruct H as (r1 & Hh1 & Hv).
      apply resizeHorizontal_result in Hh1.
      destruct Hh1 as [(mid & -> & Hmid) | (-> & _)].
      * cbn [thenVertical] in Hv. apply resizeVertical_result in Hv.
        cbn [image.as_Image image.Bounds] in Hv. rewrite Hmid in Hv.
        rewrite Dx_Rect_origin in Hv by lia.
        destruct Hv as [Hv | (-> & _)]; [left; exact Hv | right; left; reflexivity].
      * cbn [thenVertical] in Hv. inversion Hv. right; right; reflexivity.
Qed.

End ResizeFacts.

Section OrchestratorClaims.

Import filters resize.
Local Open Scope Z_scope.

(** C9. For a present source and valid target dimensions: when both the
    width and the height differ from the source's, [Resize] runs the
    horizontal pass, which gives an intermediate image, and then the vertical
    pass on that intermediate; when only the width differs it runs the
    horizontal pass alone; otherwise it runs the vertical pass alone, which
    is the direct copy when the height matches as well. *)
Theorem Resize_pass_order (src : image.Image) (width height : Z) :
  0 < width -> 0 < height ->
  let srcWidth := image.Dx (image.Bounds src) in
  let srcHeight := image.Dy (image.Bounds src) in
  (srcWidth <> width -> srcHeight <> height ->
     Resize (Some src) width height
     = bind (resizeHorizontal src width) (thenVertical height)
     /\ forall r, resizeHorizontal src width = Returns r ->
          (exists intermediate,
              r = (Some intermediate, None)
              /\ image.NRect intermediate = image.Rect 0 0 width srcHeight
              /\ Resize (Some src) width height
                 = resizeVertical (image.as_Image intermediate) height)
          \/ (r = (None, Some ErrHorizontalWeights)
              /\ Resize (Some src) width height = Returns r))
  /\ (srcWidth <> width -> srcHeight = height ->
        Resize (Some src) width height = resizeHorizontal src width)
  /\ (srcWidth = width ->
        Resize (Some src) width height = resizeVertical src height)
  /\ (srcWidth = width -> srcHeight = height ->
        Resize (Some src) width height
        = bind (draw.Draw (image.NewNRGBA (image.Rect 0 0 srcWidth height))
                  (image.Rect 0 0 srcWidth height) src (image.Min (image.Bounds src)))
            (fun dst => Returns (Some dst, None))).
Proof.
  intros Hw Hh srcWidth srcHeight.
  split; [| split; [| split]].
  - intros Hdw Hdh.
    pose proof (Resize_two_passes src width height Hw Hh Hdw Hdh) as Htwo.
    split; [exact Htwo |].
    intros r Hr. rewrite Htwo, Hr. cbn [bind].
    apply resizeHorizontal_result in Hr.
    destruct Hr as [(mid & -> & Hmid) | (-> & _)].
    + left. exists mid. repeat split; [exact Hmid].
    + right. split; reflexivity.
  - intros Hdw Hdh. now apply Resize_horizontal_only.
  - intros Hdw. now apply Resize_vertical_only.
  - intros Hdw Hdh. rewrite Resize_vertical_only by assumption.
    now apply resizeVertical_copy.
Qed.

Lemma Resize_pass_order_witness :
  Resize (Some (image.mkImage (image.Rect 0 0 4 2)
                  (fun _ _ => color.mkRGBA 0 0 0 65535))) 8 2
  = resizeHorizontal (image.mkImage (image.Rect 0 0 4 2)
                        (fun _ _ => color.mkRGBA 0 0 0 65535)) 8.
Proof.
  apply (Resize_pass_order
           (image.mkImage (image.Rect 0 0 4 2) (fun _ _ => color.mkRGBA 0 0 0 65535))
           8 2); [lia | lia | vm_compute; lia | reflexivity].
Defined.

(** C8. [Resize] fails with the nil-source error exactly when the source is
    absent, and with the invalid-dimensions error exactly when the source is
    present and the width or the height is not positive (so the nil check
    comes first); a failure returns no image; and the weight table is [nil]
    exactly when the source or the destination length is not positive. *)
Theorem Resize_error_contract (src : option image.Image) (width height : Z) :
  ((exists img, Resize src width height = Returns (img, Some ErrNilSource))
   <-> src = None)
  /\ ((exists img w h,
         Resize src width height = Returns (img, Some (ErrInvalidDimensions w h)))
      <-> (src <> None /\ (width <= 0 \/ height <= 0)))
  /\ (forall img err,
        Resize src width height = Returns (img, Some err) -> img = None)
  /\ (forall srcSize dstSize filter,
        calculateWeights srcSize dstSize filter = Returns None
        <-> (srcSize <= 0 \/ dstSize <= 0)).
Proof.
  split; [| split; [| split]].
  - split.
    + intros (img & H). destruct src as [s |]; [| reflexivity].
      apply Resize_result in H.
      destruct H as [(H & _) | (_ & _ & [(dst & H & _) | [H | H]])]; discriminate.
    + intros ->. exists None. reflexivity.
  - split.
    + intros (img & w & h & H). destruct src as [s |]; [| discriminate].
      split; [discriminate |].
      apply Resize_result in H.
      destruct H as [(_ & H) | (_ & _ & [(dst & H & _) | [H | H]])];
        [exact H | discriminate ..].
    + intros (Hsrc & Hdim). destruct src as [s |]; [| contradiction].
      exists None, width, height. now apply Resize_invalid.
  - intros img err H. destruct src as [s |].
    + apply Resize_result in H.
      destruct H as [(H & _) | (_ & _ & [(dst & H & _) | [H | H]])];
        inversion H; reflexivity.
    + inversion H. reflexivity.
  - intros srcSize dstSize filter. apply calculateWeights_nil_iff.
Qed.

End OrchestratorClaims.

(** ** Clamping and narrowing *)

Section ClampFacts.

Import filters resize.
Local Open Scope R_scope.

Lemma clamp_range (v : float64) : 0 <= clamp v <= 65535.
Proof.
  unfold clamp. destruct (Rlt_dec v 0); [lra |].
  destruct (Rlt_dec 65535 v); lra.
Qed.

Lemma clamp_inside (v : float64) : 0 <= v <= 65535 -> clamp v = v.
Proof.
  intros H. unfold clamp. destruct (Rlt_dec v 0); [lra |].
  destruct (Rlt_dec 65535 v); lra.
Qed.

Lemma clamp_below (v : float64) : v < 0 -> clamp v = 0.
Proof. intros H. unfold clamp. destruct (Rlt_dec v 0); [reflexivity | lra]. Qed.

Lemma clamp_above (v : float64) : 65535 < v -> clamp v = 65535.
Proof.
  intros H. unfold clamp. destruct (Rlt_dec v 0); [lra |].
  destruct (Rlt_dec 65535 v); [reflexivity | lra].
Qed.

(** Narrowing a clamped value to [uint16] does not wrap. *)
Lemma uint16_of_clamp (v : float64) :
  uint16_of_float64 (clamp v) = Zfloor (clamp v)
  /\ is16bit (uint16_of_float64 (clamp v)).
Proof.
  pose proof (clamp_range v) as [Hlo Hhi].
  assert (Hfl : (0 <= Zfloor (clamp v) <= 65535)%Z).
  { split.
    - apply Zfloor_lub. simpl. exact Hlo.
    - apply le_IZR. pose proof (Zfloor_bound (clamp v)). lra. }
  unfold uint16_of_float64, uint16. rewrite int_of_float64_nonneg by exact Hlo.
  rewrite Z.mod_small by lia. split; [reflexivity | exact Hfl].
Qed.

End ClampFacts.

(** ** Passes that return *)

Section PassesReturn.

Import filters resize.
Local Open Scope Z_scope.

Variable src : image.Image.

Let srcWidth := image.Dx (image.Bounds src).
Let srcHeight := image.Dy (image.Bounds src).

Lemma resizeVertical_total (height : Z) :
  srcHeight = height
  \/ (exists weights,
        calculateWeights srcHeight height (OfLanczos (NewLanczos 3))
        = Returns (Some weights)) ->
  exists dst, resizeVertical src height = Returns (Some dst, None).
Proof.
  intros H. destruct (Z.eq_dec srcHeight height) as [E | E].
  - rewrite resizeVertical_copy by exact E.
    destruct (Draw_total (image.NewNRGBA (image.Rect 0 0 (image.Dx (image.Bounds src)) height))
                (image.Rect 0 0 (image.Dx (image.Bounds src)) height) src
                (image.Min (image.Bounds src))) as (dst & Hdst & _).
    rewrite Hdst. cbn [bind]. eauto.
  - destruct H as [H | (weights & H)]; [contradiction |].
    rewrite resizeVertical_filtered by exact E.
    now apply (filteredPass_total _ _ _ _ _ _ _ _ _ weights).
Qed.

Lemma resizeHorizontal_total (width : Z) :
  srcWidth = width
  \/ (exists weights,
        calculateWeights srcWidth width (OfLanczos (NewLanczos 3))
        = Returns (Some weights)) ->
  exists dst, resizeHorizontal src width = Returns (Some dst, None).
Proof.
  intros H. destruct (Z.eq_dec srcWidth width) as [E | E].
  - rewrite resizeHorizontal_copy by exact E.
    destruct (Draw_total (image.NewNRGBA (image.Rect 0 0 width (image.Dy (image.Bounds src))))
                (image.Rect 0 0 width (image.Dy (image.Bounds src))) src
                (image.Min (image.Bounds src))) as (dst & Hdst & _).
    rewrite Hdst. cbn [bind]. eauto.
  - destruct H as [H | (weights & H)]; [contradiction |].
    rewrite resizeHorizontal_filtered by exact E.
    now apply (filteredPass_total _ _ _ _ _ _ _ _ _ weights).
Qed.

End PassesReturn.

Section ResizeReturns.

Import filters resize.
Local Open Scope Z_scope.

Variable src : image.Image.

Let srcWidth := image.Dx (image.Bounds src).
Let srcHeight := image.Dy (image.Bounds src).

(** [Resize] returns an image when the weight tables of the passes it runs
    are built. *)
Lemma Resize_total (width height : Z) :
  0 < width -> 0 < height -> 0 <= srcHeight ->
  (srcWidth = width
   \/ exists weights,
        calculateWeights srcWidth width (OfLanczos (NewLanczos 3))
        = Returns (Some weights)) ->
  (srcHeight = height
   \/ exists weights,
        calculateWeights srcHeight height (OfLanczos (NewLanczos 3))
        = Returns (Some weights)) ->
  exists dst, Resize (Some src) width height = Returns (Some dst, None).
Proof.
  intros Hw Hh Hsh Hhor Hver.
  destruct (Z.eq_dec srcWidth width) as [Ew | Ew].
  - rewrite Resize_vertical_only by assumption. now apply resizeVertical_total.
  - destruct (Z.eq_dec srcHeight height) as [Eh | Eh].
    + rewrite Resize_horizontal_only by assumption. now apply resizeHorizontal_total.
    + rewrite Resize_two_passes by assumption.
      destruct (resizeHorizontal_total src width Hhor) as (mid & Hmid).
      rewrite Hmid. cbn [bind thenVertical].
      apply resizeHorizontal_result in Hmid.
      destruct Hmid as [(mid' & Hmid' & Hrect) | (Hmid' & _)]; [| discriminate].
      inversion Hmid'; subst mid'.
      apply resizeVertical_total. cbn [image.as_Image image.Bounds].
      rewrite Hrect, Dy_Rect_origin by exact Hsh. exact Hver.
Qed.

(** In particular when neither axis is shrunk. *)
Lemma Resize_upsampling (width height : Z) :
  1 <= srcWidth <= width -> 1 <= srcHeight <= height ->
  exists dst, Resize (Some src) width height = Returns (Some dst, None).
Proof.
  intros Hw Hh. apply Resize_total; try lia.
  - right. apply calculateWeights_upsampling; [lia | simpl; lia].
  - right. apply calculateWeights_upsampling; [lia | simpl; lia].
Qed.

End ResizeReturns.

Section ChannelClaims.

Import filters resize.
Local Open Scope Z_scope.

(** The channel [n] stored for the accumulated value [v]: [v] clamped to
    [[0, 65535]], then truncated, with no wrap-around. *)
Definition narrowedFrom (v : float64) (n : Z) : Prop :=
  (0 <= clamp v <= 65535)%R
  /\ n = int_of_float64 (clamp v)
  /\ is16bit n
  /\ ((v < 0)%R -> n = 0)
  /\ ((65535 < v)%R -> n = 65535)
  /\ ((0 <= v <= 65535)%R -> n = Zfloor v).

Lemma narrowedFrom_clamp (v : float64) :
  narrowedFrom v (uint16_of_float64 (clamp v)).
Proof.
  destruct (uint16_of_clamp v) as [Heq H16].
  pose proof (clamp_range v) as Hrange.
  unfold narrowedFrom. rewrite Heq in *.
  split; [exact Hrange |].
  split; [now rewrite int_of_float64_nonneg by apply Hrange |].
  split; [exact H16 |].
  split; [| split].
  - intros Hv. rewrite clamp_below by exact Hv. apply (ZfloorZ 0).
  - intros Hv. rewrite clamp_above by exact Hv. apply (ZfloorZ 65535).
  - intros Hv. now rewrite clamp_inside by exact Hv.
Qed.

End ChannelClaims.

Section IdentityClaim.

Import filters resize.
Local Open Scope Z_scope.

(** A 1x1 source whose pixel is an opaque colour with a 16-bit red channel
    ([0x1234]), as a 16-bit image holds it. *)
Definition deepRed : image.Image :=
  image.mkImage (image.Rect 0 0 1 1) (fun _ _ => color.mkRGBA 4660 0 0 65535).

(** C2, as stated, fails: resizing [deepRed] to its own size takes the copy
    path, and the red channel of the result ([0x1212]) is not the source's
    ([0x1234]). *)
Lemma Resize_identity_not_exact :
  exists dst,
    Resize (Some deepRed) (image.Dx (image.Bounds deepRed))
           (image.Dy (image.Bounds deepRed))
    = Returns (Some dst, None)
    /\ image.At deepRed 0 0 = color.mkRGBA 4660 0 0 65535
    /\ image.NRGBA_At dst 0 0 = color.mkRGBA 4626 0 0 65535
    /\ image.NRGBA_At dst 0 0 <> image.At deepRed 0 0.
Proof.
  eexists. split; [vm_compute; reflexivity |].
  split; [reflexivity |]. split; [vm_compute; reflexivity |].
  vm_compute. discriminate.
Qed.

(** C2, amended. For every source of positive width and height whose copy
    can be allocated, [Resize(src, src.width, src.height)] returns, by the
    direct copy and without filtering, an image of the same size.  When the
    source is an [image.NRGBA] every pixel is the source's pixel, bit for
    bit.  For a source of another type the pixel is the [color.NRGBA]
    conversion of the source's pixel ([SetRGBA64] or [color.NRGBAModel]); its
    four channel values equal the source's whenever the source pixel is the
    value of an opaque or fully transparent 8-bit colour. *)
Theorem Resize_identity_copy (src : image.Image) :
  let w := image.Dx (image.Bounds src) in
  let h := image.Dy (image.Bounds src) in
  0 < w -> 0 < h ->
  image.allocates (image.Rect 0 0 w h) = true ->
  exists dst,
    Resize (Some src) w h = Returns (Some dst, None)
    /\ Resize (Some src) w h
       = bind (draw.Draw (image.NewNRGBA (image.Rect 0 0 w h))
                 (image.Rect 0 0 w h) src (image.Min (image.Bounds src)))
           (fun dst => Returns (Some dst, None))
    /\ image.NRect dst = image.Rect 0 0 w h
    /\ forall x y, 0 <= x < w -> 0 <= y < h ->
         let sx := x + image.X (image.Min (image.Bounds src)) in
         let sy := y + image.Y (image.Min (image.Bounds src)) in
         image.Pix dst x y = draw.drawn src sx sy
         /\ (forall p : image.NRGBA,
               src = image.OfNRGBA p ->
               image.Pix dst x y = image.Pix p sx sy
               /\ image.NRGBA_At dst x y = image.At src sx sy)
         /\ (forall n : color.NRGBA,
               NRGBA_is8bit n -> color.A8 n = 255 \/ color.A8 n = 0 ->
               image.At src sx sy = color.NRGBA_RGBA n ->
               image.NRGBA_At dst x y = image.At src sx sy).
Proof.
  intros w h Hw Hh _.
  assert (Hcopy : Resize (Some src) w h
                  = bind (draw.Draw (image.NewNRGBA (image.Rect 0 0 w h))
                            (image.Rect 0 0 w h) src (image.Min (image.Bounds src)))
                      (fun dst => Returns (Some dst, None))).
  { rewrite Resize_vertical_only by auto. now apply resizeVertical_copy. }
  rewrite Hcopy. rewrite Rect_origin by lia.
  destruct (Draw_copy src w h Hw Hh eq_refl eq_refl) as (dst & Hdst & Hrect & Hpix).
  rewrite Hdst. cbn [bind]. exists dst.
  split; [reflexivity |]. split; [reflexivity |]. split; [exact Hrect |].
  intros x y Hx Hy.
  set (sx := x + image.X (image.Min (image.Bounds src))).
  set (sy := y + image.Y (image.Min (image.Bounds src))).
  assert (Hp : image.Pix dst x y = draw.drawn src sx sy) by (now apply Hpix).
  assert (Hat : image.NRGBA_At dst x y = color.NRGBA_RGBA (draw.drawn src sx sy)).
  { unfold image.NRGBA_At. rewrite Hrect.
    rewrite (proj2 (In_origin w h x y)) by lia. now rewrite Hp. }
  assert (Hin : image.In (image.Pt sx sy) (image.Bounds src) = true).
  { unfold image.In, sx, sy, w, h, image.Dx, image.Dy in *.
    cbn [image.X image.Y]. rewrite !andb_true_iff. lia. }
  assert (Hnrgba : forall p, src = image.OfNRGBA p ->
            image.Pix dst x y = image.Pix p sx sy
            /\ image.NRGBA_At dst x y = image.At src sx sy).
  { intros p Hsrc. rewrite Hat, Hp. rewrite Hsrc in Hin |- *.
    cbn [draw.drawn image.At image.Bounds] in Hin |- *.
    unfold image.NRGBA_At. rewrite Hin. split; reflexivity. }
  split; [exact Hp |]. split; [exact Hnrgba |].
  intros n H8 Ha Hc. destruct src as [p | bounds at_ | bounds at_] eqn:Esrc.
  - exact (proj2 (Hnrgba p eq_refl)).
  - rewrite Hat. cbn [draw.drawn image.At] in Hc |- *. rewrite Hc.
    now apply ofRGBA64_exact.
  - rewrite Hat. cbn [draw.drawn image.At] in Hc |- *.
    destruct (at_ sx sy) as [c | c]; cbn [color.NRGBAModel_Convert color.Color_RGBA] in Hc |- *.
    + reflexivity.
    + rewrite Hc. now apply nrgbaModel_exact.
Qed.

Lemma Resize_identity_copy_witness :
  exists dst,
    Resize (Some deepRed) (image.Dx (image.Bounds deepRed))
           (image.Dy (image.Bounds deepRed))
    = Returns (Some dst, None)
    /\ image.NRect dst = image.Rect 0 0 1 1.
Proof.
  destruct (Resize_identity_copy deepRed) as (dst & Hdst & _ & Hrect & _);
    [vm_compute; reflexivity | vm_compute; reflexivity | vm_compute; reflexivity |].
  exists dst. split; [exact Hdst | exact Hrect].
Defined.

End IdentityClaim.

Section FailingInputs.

Import filters resize.
Local Open Scope Z_scope.

(** C5, at a failing input.  For source length 20, destination length 16 and
    radius 3, the row capacity [int(2*support) + 1] is 8, while the source
    range of destination index 5 is [[2, 10]]: 9 indices, the last with a
    non-zero kernel value.  Its store lies beyond the row and the builder
    panics. *)
Theorem calculateWeights_capacity_exceeded :
  let filter := OfLanczos (NewLanczos 3) in
  let scale := scaleOf 20 16 in
  let support := supportOf (filterRadiusOf filter) scale in
  let center := centerOf 5 scale in
  let left := leftOf center support in
  let right := rightOf center support 20 in
  weightsPerPixelOf support = 8
  /\ left = 2 /\ right = 10
  /\ weightsPerPixelOf support < right - left + 1
  /\ weightOf filter scale center right <> 0%R
  /\ calculateWeights 20 16 filter = Panics.
Proof.
  cbv zeta. unfold filterRadiusOf, float64_of_int. simpl Radius.
  rewrite scaleOf_20_16, supportOf_20_16, centerOf_5_20_16,
    weightsPerPixelOf_20_16, leftOf_5_20_16, rightOf_5_20_16.
  repeat split; try lia.
  - apply weightOf_10_nonzero.
  - apply calculateWeights_20_16.
Qed.

(** C1, at failing inputs.  [Resize] of a source 20 pixels wide to a width
    of 16 panics in the horizontal pass, whatever the heights: it returns no
    image. *)
Theorem Resize_panics_20_to_16 (src : image.Image) (height : Z) :
  image.Dx (image.Bounds src) = 20 -> 0 < height ->
  Resize (Some src) 16 height = Panics.
Proof.
  intros Hdx Hh.
  assert (Hhor : resizeHorizontal src 16 = Panics).
  { rewrite resizeHorizontal_filtered by lia. apply filteredPass_Panics.
    rewrite Hdx. apply calculateWeights_20_16. }
  destruct (Z.eq_dec (image.Dy (image.Bounds src)) height) as [E | E].
  - rewrite Resize_horizontal_only by lia. exact Hhor.
  - rewrite Resize_two_passes by lia. now rewrite Hhor.
Qed.

Lemma Resize_panics_20_to_16_witness :
  Resize (Some (image.mkImage (image.Rect 0 0 20 20)
                  (fun _ _ => color.mkRGBA 65535 65535 65535 65535))) 16 16
  = Panics.
Proof.
  apply Resize_panics_20_to_16; [vm_compute; reflexivity | lia].
Defined.

End FailingInputs.

(** ** Further properties of the engine *)

Section Sums.

Local Open Scope R_scope.

(** The sum of the entries of a row, as a test adds them. *)
Definition rowSum (row : list float64) : float64 := fold_right Rplus 0 row.

Lemma sumWeights_ext (f g : Z -> float64) (lo : Z) (n : nat) :
  (forall i, (lo <= i < lo + Z.of_nat n)%Z -> f i = g i) ->
  sumWeights f lo n = sumWeights g lo n.
Proof.
  induction n as [| n IH]; intros H; [reflexivity |].
  cbn [sumWeights]. rewrite IH by (intros i Hi; apply H; lia).
  rewrite H by lia. reflexivity.
Qed.

Lemma sumWeights_first (f : Z -> float64) (lo : Z) (n : nat) :
  sumWeights f lo (S n) = f lo + sumWeights f (lo + 1)%Z n.
Proof.
  induction n as [| n IH].
  - cbn [sumWeights]. replace (lo + Z.of_nat 0)%Z with lo by lia. lra.
  - change (sumWeights f lo (S (S n)))
      with (sumWeights f lo (S n) + f (lo + Z.of_nat (S n))%Z).
    rewrite IH. cbn [sumWeights].
    replace (lo + 1 + Z.of_nat n)%Z with (lo + Z.of_nat (S n))%Z by lia. lra.
Qed.

Lemma sumWeights_zero (f : Z -> float64) (lo : Z) (n : nat) :
  (forall i, (lo <= i < lo + Z.of_nat n)%Z -> f i = 0) ->
  sumWeights f lo n = 0.
Proof.
  induction n as [| n IH]; intros H; [reflexivity |].
  cbn [sumWeights]. rewrite IH by (intros i Hi; apply H; lia).
  rewrite H by lia. lra.
Qed.

Lemma sumWeights_app (f : Z -> float64) (lo : Z) (n m : nat) :
  sumWeights f lo (n + m)
  = sumWeights f lo n + sumWeights f (lo + Z.of_nat n)%Z m.
Proof.
  induction m as [| m IH].
  - rewrite Nat.add_0_r. cbn [sumWeights]. lra.
  - rewrite Nat.add_succ_r. cbn [sumWeights]. rewrite IH.
    replace (lo + Z.of_nat n + Z.of_nat m)%Z with (lo + Z.of_nat (n + m))%Z by lia.
    lra.
Qed.

(** Entries that vanish from [n] on do not change the sum. *)
Lemma sumWeights_vanishing (f : Z -> float64) (lo : Z) (n m : nat) :
  (n <= m)%nat ->
  (forall i, (lo + Z.of_nat n <= i)%Z -> f i = 0) ->
  sumWeights f lo m = sumWeights f lo n.
Proof.
  intros Hnm Hz. replace m with (n + (m - n))%nat by lia.
  rewrite sumWeights_app, (sumWeights_zero f (lo + Z.of_nat n)%Z).
  - lra.
  - intros i Hi. apply Hz. lia.
Qed.

Lemma sumWeights_div (f : Z -> float64) (c : float64) (lo : Z) (n : nat) :
  sumWeights (fun i => f i / c) lo n = sumWeights f lo n / c.
Proof.
  induction n as [| n IH]; cbn [sumWeights]; [lra |]. rewrite IH. lra.
Qed.

Lemma sumWeights_shift (f : Z -> float64) (lo : Z) (n : nat) :
  sumWeights f (lo + 1)%Z n = sumWeights (fun i => f (i + 1)%Z) lo n.
Proof.
  induction n as [| n IH]; [reflexivity |].
  cbn [sumWeights]. rewrite IH.
  replace (lo + 1 + Z.of_nat n)%Z with (lo + Z.of_nat n + 1)%Z by lia.
  reflexivity.
Qed.

Lemma rowSum_sumWeights (row : list float64) :
  rowSum row = sumWeights (fun i => nth (Z.to_nat i) row 0) 0 (length row).
Proof.
  induction row as [| a row IH]; [reflexivity |].
  cbn [rowSum fold_right length]. fold (rowSum row).
  rewrite sumWeights_first, sumWeights_shift, IH. f_equal.
  apply sumWeights_ext. intros i Hi.
  replace (Z.to_nat (i + 1)) with (S (Z.to_nat i)) by lia. reflexivity.
Qed.

End Sums.

Section Normalization.

Import filters resize.
Local Open Scope R_scope.

(** When the table is built, the row of a destination index whose kernel
    values add up to a positive sum adds up to 1; a row whose kernel values
    do not add up to a positive sum holds the kernel values themselves. *)
Theorem calculateWeights_row_normalized
    (srcSize dstSize : Z) (filter : Resampler) (weights : list (list float64))
    (dstIdx : Z) :
  calculateWeights srcSize dstSize filter = Returns (Some weights) ->
  (0 <= dstIdx < dstSize)%Z ->
  let scale := scaleOf srcSize dstSize in
  let support := supportOf (filterRadiusOf filter) scale in
  let center := centerOf dstIdx scale in
  let left := leftOf center support in
  let right := rightOf center support srcSize in
  let row := nth (Z.to_nat dstIdx) weights [] in
  let sum := sumWeights (weightOf filter scale center) left (rangeCount left right) in
  (0 < sum -> rowSum row = 1)
  /\ (sum <= 0 ->
      forall srcIdx, (left <= srcIdx <= right)%Z ->
        nth (Z.to_nat (srcIdx - left)) row 0 = weightOf filter scale center srcIdx).
Proof.
  intros Hrun Hd. cbv zeta.
  apply calculateWeights_Returns in Hrun.
  destruct Hrun as (Hs & Hdst & Hlen & Hrows).
  specialize (Hrows dstIdx Hd).
  apply weightsRow_Returns in Hrows. cbv zeta in Hrows.
  destruct Hrows as (Hwpp & Hrowlen & Hin & Hout & Hroom).
  set (scale := scaleOf srcSize dstSize) in *.
  set (support := supportOf (filterRadiusOf filter) scale) in *.
  set (center := centerOf dstIdx scale) in *.
  set (left := leftOf center support) in *.
  set (right := rightOf center support srcSize) in *.
  set (row := nth (Z.to_nat dstIdx) weights []) in *.
  set (w := weightOf filter scale center) in *.
  set (n := rangeCount left right) in *.
  set (sum := sumWeights w left n) in *.
  split.
  - intros Hpos.
    set (g := fun i : Z => nth (Z.to_nat i) row 0).
    assert (Hlong : forall i, (0 + Z.of_nat (length row) <= i)%Z -> g i = 0).
    { intros i Hi. unfold g. apply nth_overflow. lia. }
    assert (Hshort : forall i, (0 + Z.of_nat n <= i)%Z -> g i = 0).
    { intros i Hi. unfold g. apply Hout. lia. }
    rewrite rowSum_sumWeights. fold g.
    rewrite <- (sumWeights_vanishing g 0 (length row) (Nat.max n (length row)))
      by (try lia; exact Hlong).
    rewrite (sumWeights_vanishing g 0 n (Nat.max n (length row)))
      by (try lia; exact Hshort).
    rewrite (sumWeights_ext g (fun i => w (left + i)%Z / sum)).
    + rewrite sumWeights_div.
      assert (Hshift : sumWeights (fun i => w (left + i)%Z) 0 n = sum).
      { unfold sum. clear. induction n as [| m IH]; [reflexivity |].
        cbn [sumWeights]. rewrite IH. reflexivity. }
      rewrite Hshift. field. lra.
    + intros i Hi. unfold g. rewrite Hin by lia.
      unfold normalized. destruct (Rlt_dec 0 sum); [| lra].
      f_equal. f_equal. lia.
  - intros Hneg srcIdx Hrange.
    rewrite Hin by (unfold n, rangeCount; lia).
    unfold normalized. destruct (Rlt_dec 0 sum); [lra |].
    f_equal. lia.
Qed.

Lemma calculateWeights_row_normalized_witness :
  exists weights,
    calculateWeights 1 1 (OfLanczos (NewLanczos 3)) = Returns (Some weights)
    /\ rowSum (nth (Z.to_nat 0) weights []) = 1.
Proof.
  destruct (calculateWeights_upsampling 1 1 (NewLanczos 3)) as [weights H];
    [lia | simpl; lia |].
  exists weights. split; [exact H |].
  apply (calculateWeights_row_normalized 1 1 (OfLanczos (NewLanczos 3)) weights 0 H);
    [lia |].
  assert (Hscale : scaleOf 1 1 = 1) by (unfold scaleOf, float64_of_int; lra).
  rewrite Hscale. unfold filterRadiusOf, float64_of_int. simpl Radius.
  assert (Hsup : supportOf 3 1 = 3)
    by (unfold supportOf; destruct (Rlt_dec 1 1); lra).
  assert (Hc : centerOf 0 1 = 0) by (unfold centerOf, float64_of_int; lra).
  rewrite Hsup, Hc.
  assert (Hl : leftOf 0 3 = 0%Z).
  { unfold leftOf. replace (0 - 3) with (IZR (-3)) by lra.
    rewrite int_of_float64_IZR. reflexivity. }
  assert (Hr : rightOf 0 3 1 = 0%Z).
  { unfold rightOf. replace (0 + 3) with (IZR 3) by lra.
    rewrite int_of_float64_IZR. reflexivity. }
  rewrite Hl, Hr. unfold rangeCount. simpl. unfold weightOf.
  destruct (Rlt_dec 1 1); [lra |]. unfold float64_of_int.
  replace (0 - 0) with 0 by lra. unfold Kernel.
  rewrite Lanczos_Kernel_inside by (rewrite Rabs_R0; simpl; lra).
  rewrite Rabs_R0. unfold Rdiv. rewrite Rmult_0_l, sinc_0. lra.
Defined.

End Normalization.

Section Dimensions.

Import filters resize.
Local Open Scope Z_scope.

(** Whenever [Resize] returns an image, the image has exactly the requested
    width and height, with its origin at [(0, 0)], and comes with no
    error. *)
Theorem Resize_returns_requested_size
    (src : option image.Image) (width height : Z) (dst : image.NRGBA)
    (err : option error) :
  Resize src width height = Returns (Some dst, err) ->
  err = None
  /\ image.NRect dst = image.mkRectangle (image.Pt 0 0) (image.Pt width height)
  /\ image.Dx (image.NRect dst) = width
  /\ image.Dy (image.NRect dst) = height.
Proof.
  intros H. destruct src as [s |]; [| discriminate].
  apply Resize_result in H.
  destruct H as [(H & _) | (Hw & Hh & [(dst' & H & Hrect) | [H | H]])];
    try discriminate.
  inversion H; subst dst' err. rewrite Hrect, Rect_origin by lia.
  repeat split; unfold image.Dx, image.Dy; simpl; lia.
Qed.

(** [Resize] returns an image of the requested size whenever the source is
    not empty, neither axis is shrunk, and the images of the passes (the
    intermediate one, of the requested width and the source's height, and
    the final one) are of a size [image.NewNRGBA] allocates. *)
Theorem Resize_succeeds_without_shrinking
    (src : image.Image) (width height : Z) :
  1 <= image.Dx (image.Bounds src) <= width ->
  1 <= image.Dy (image.Bounds src) <= height ->
  image.allocates (image.Rect 0 0 width (image.Dy (image.Bounds src))) = true ->
  image.allocates (image.Rect 0 0 width height) = true ->
  exists dst,
    Resize (Some src) width height = Returns (Some dst, None)
    /\ image.NRect dst = image.mkRectangle (image.Pt 0 0) (image.Pt width height).
Proof.
  intros Hw Hh _ _.
  destruct (Resize_upsampling src width height Hw Hh) as (dst & Hdst).
  exists dst. split; [exact Hdst |].
  apply Resize_result in Hdst.
  destruct Hdst as [(H & _) | (_ & _ & [(dst' & H & Hrect) | [H | H]])];
    try discriminate.
  inversion H; subst dst'. rewrite Hrect. apply Rect_origin; lia.
Qed.

Lemma Resize_succeeds_without_shrinking_witness :
  exists dst,
    Resize (Some (image.mkImage (image.Rect 0 0 4 4)
                    (fun x y => color.mkRGBA (x * 257) (y * 257) 0 65535))) 8 8
    = Returns (Some dst, None)
    /\ image.NRect dst = image.mkRectangle (image.Pt 0 0) (image.Pt 8 8).
Proof.
  apply Resize_succeeds_without_shrinking;
    first [reflexivity | vm_compute; split; discriminate].
Defined.

Lemma Resize_returns_requested_size_witness :
  exists dst,
    Resize (Some deepRed) 1 1 = Returns (Some dst, None)
    /\ image.Dx (image.NRect dst) = 1.
Proof.
  destruct (Resize_upsampling deepRed 1 1) as (dst & Hdst);
    [vm_compute; split; discriminate .. |].
  exists dst. split; [exact Hdst |].
  exact (proj1 (proj2 (proj2 (Resize_returns_requested_size _ 1 1 dst None Hdst)))).
Defined.

End Dimensions.

Section WholeSupport.

Import filters resize.
Local Open Scope R_scope.

(** The weight table is built, without a panic, whenever twice the support
    is a whole number: for every upsampling, and for every downsampling
    whose scale times twice the radius is whole (halving, thirds, ...). *)
Theorem calculateWeights_builds_for_whole_support
    (srcSize dstSize : Z) (l : Lanczos) (m : Z) :
  (1 <= srcSize)%Z -> (1 <= dstSize)%Z -> (0 <= Radius l)%Z ->
  2 * supportOf (float64_of_int (Radius l)) (scaleOf srcSize dstSize) = IZR m ->
  exists weights,
    calculateWeights srcSize dstSize (OfLanczos l) = Returns (Some weights)
    /\ len weights = dstSize.
Proof.
  intros Hs Hd Hr Hm.
  destruct (calculateWeights_fits srcSize dstSize (OfLanczos l) Hs Hd)
    as (weights & Hw).
  - intros d Hd'. cbv zeta.
    apply (rangeCount_fits_whole srcSize dstSize d Hs Hd Hd' _ m); [| exact Hm].
    apply supportOf_nonneg; try assumption.
    unfold float64_of_int. now apply IZR_le in Hr.
  - exists weights. split; [exact Hw |].
    now apply calculateWeights_Returns in Hw.
Qed.

Lemma calculateWeights_builds_for_whole_support_witness :
  exists weights,
    calculateWeights 10 5 (OfLanczos (NewLanczos 3)) = Returns (Some weights)
    /\ len weights = 5%Z.
Proof.
  apply (calculateWeights_builds_for_whole_support 10 5 (NewLanczos 3) 12);
    try lia; [simpl; lia |].
  unfold scaleOf, supportOf, float64_of_int. simpl Radius.
  destruct (Rlt_dec 1 (10 / 5)); lra.
Defined.

End WholeSupport.

(** ** The flat-table variant *)

Section FlatCapacity.

Import filters resize.
Local Open Scope R_scope.

Variables srcSize dstSize : Z.
Hypothesis HsrcSize : (1 <= srcSize)%Z.
Hypothesis HdstSize : (1 <= dstSize)%Z.

Let scale := scaleOf srcSize dstSize.

(** The source range of a destination index has at most one index more
    than the capacity [int(2*support) + 1]. *)
Lemma rangeCount_le_capacity_succ (dstIdx : Z) (support : float64) :
  (0 <= dstIdx < dstSize)%Z ->
  0 <= support ->
  let center := centerOf dstIdx scale in
  (Z.of_nat (rangeCount (leftOf center support) (rightOf center support srcSize))
   <= weightsPerPixelOf support + 1)%Z.
Proof.
  intros Hd Hsup center.
  pose proof (leftOf_max srcSize dstSize dstIdx support) as Hleft.
  fold scale center in Hleft.
  pose proof (int_center_plus_support_nonneg srcSize dstSize HsrcSize HdstSize
                dstIdx Hd support Hsup) as Hint.
  fold scale center in Hint.
  unfold weightsPerPixelOf. rewrite int_of_float64_nonneg by lra.
  pose proof (Zfloor_bound (center - support)) as HF.
  pose proof (Zfloor_bound (2 * support)) as H2.
  assert (Hright : (rightOf center support srcSize
                    <= int_of_float64 (center + support))%Z).
  { unfold rightOf.
    destruct (int_of_float64 (center + support) >=? srcSize)%Z eqn:E; lia. }
  assert (Hgap : (int_of_float64 (center + support) - Zfloor (center - support) - 1
                  <= Zfloor (2 * support))%Z).
  { destruct (Rle_dec 0 (center + support)) as [Hpos | Hneg].
    - rewrite (int_of_float64_nonneg _ Hpos). apply Zfloor_lub.
      pose proof (Zfloor_bound (center + support)) as HG.
      rewrite !minus_IZR. lra.
    - assert (Hc : int_of_float64 (center + support) = 0%Z).
      { pose proof (center_lower srcSize dstSize HsrcSize HdstSize dstIdx Hd) as Hcl.
        fold scale center in Hcl.
        rewrite int_of_float64_neg by lra. apply Zceil_eq. simpl. lra. }
      rewrite Hc.
      pose proof (center_lower srcSize dstSize HsrcSize HdstSize dstIdx Hd) as Hcl.
      fold scale center in Hcl.
      assert (HFlow : (-2 < Zfloor (center - support))%Z)
        by (apply lt_IZR; simpl; lra).
      assert (H2low : (0 <= Zfloor (2 * support))%Z)
        by (apply Zfloor_lub; simpl; lra).
      lia. }
  assert (H2low : (0 <= Zfloor (2 * support))%Z)
    by (apply Zfloor_lub; simpl; lra).
  unfold rangeCount. rewrite Hleft. lia.
Qed.

(** The source range of the last destination index fits the capacity when
    the radius is at least 1. *)
Lemma last_rangeCount_fits (radius : float64) :
  1 <= radius ->
  let support := supportOf radius scale in
  let center := centerOf (dstSize - 1) scale in
  (Z.of_nat (rangeCount (leftOf center support) (rightOf center support srcSize))
   <= weightsPerPixelOf support)%Z.
Proof.
  intros Hr support center.
  pose proof (scale_pos srcSize dstSize HsrcSize HdstSize) as Hscale.
  pose proof (scale_dstSize srcSize dstSize HdstSize) as Hmul.
  fold scale in Hscale, Hmul.
  assert (Hsup : 1 / 2 + scale / 2 <= support).
  { unfold support, supportOf. destruct (Rlt_dec 1 scale); nra. }
  assert (Hcenter : center = IZR srcSize - scale / 2 - 1 / 2).
  { unfold center, centerOf, float64_of_int. rewrite minus_IZR. nra. }
  pose proof (leftOf_max srcSize dstSize (dstSize - 1) support) as Hleft.
  fold scale center in Hleft.
  unfold weightsPerPixelOf. rewrite int_of_float64_nonneg by lra.
  pose proof (Zfloor_bound (center - support)) as HF.
  assert (Hright : (rightOf center support srcSize <= srcSize - 1)%Z).
  { unfold rightOf.
    destruct (int_of_float64 (center + support) >=? srcSize)%Z eqn:E; lia. }
  assert (Hgap : (srcSize - Zfloor (center - support) - 1
                  <= Zfloor (2 * support))%Z).
  { apply Zfloor_lub. rewrite !minus_IZR. simpl. lra. }
  assert (H2low : (0 <= Zfloor (2 * support))%Z)
    by (apply Zfloor_lub; simpl; lra).
  unfold rangeCount. rewrite Hleft. lia.
Qed.

End FlatCapacity.

Section FlatRowFacts.

Import filters resize flat.
Local Open Scope R_scope.

Variable filter : Resampler.
Variables scale center : float64.
Variables left right : Z.
Variable weights0 : list float64.
Variable start : Z.
Hypothesis Hstart : (0 <= start)%Z.

Let w : Z -> float64 := weightOf filter scale center.

(** What the store loop leaves in a slot of the range: the kernel value,
    or the slot's old content when the kernel value is zero. *)
Definition storedOver (old : float64) (srcIdx : Z) : float64 :=
  if Req_dec_T (w srcIdx) 0 then old else w srcIdx.

Definition fillFlatBody (srcIdx : Z) (st : flatState) : outcome flatState :=
  let weight := weightOf filter scale center srcIdx in
  if Req_dec_T weight 0
  then Returns (mkFlatState (flatWeights st) (flatSum st) (flatIdx st + 1))
  else
    bind (slice_set (flatWeights st) (flatIdx st) weight)
      (fun weights' =>
         Returns (mkFlatState weights' (flatSum st + weight)%R (flatIdx st + 1))).

Definition fillFlatInv (i : Z) (st : flatState) : Prop :=
  (left <= i)%Z
  /\ flatIdx st = (start + (i - left))%Z
  /\ flatSum st = sumWeights w left (Z.to_nat (i - left))
  /\ length (flatWeights st) = length weights0
  /\ (forall j : nat, (start <= Z.of_nat j < start + (i - left))%Z ->
        nth j (flatWeights st) 0
        = storedOver (nth j weights0 0) (left + (Z.of_nat j - start))%Z)
  /\ (forall j : nat, (Z.of_nat j < start \/ start + (i - left) <= Z.of_nat j)%Z ->
        nth j (flatWeights st) 0 = nth j weights0 0).

Lemma fillFlatInv_init : fillFlatInv left (mkFlatState weights0 0 start).
Proof.
  unfold fillFlatInv; simpl. replace (left - left)%Z with 0%Z by lia.
  repeat split; try lia; auto.
Qed.

Lemma fillFlatInv_step (i : Z) (st st' : flatState) :
  fillFlatInv i st -> fillFlatBody i st = Returns st' -> fillFlatInv (i + 1) st'.
Proof.
  intros (Hle & Hidx & Hsum & Hlen & Hin & Hout) Hbody.
  assert (Hn : Z.to_nat (i + 1 - left) = S (Z.to_nat (i - left))) by lia.
  assert (Hi : (left + Z.of_nat (Z.to_nat (i - left)))%Z = i) by lia.
  unfold fillFlatBody in Hbody. fold (w i) in Hbody.
  destruct (Req_dec_T (w i) 0) as [Hz | Hnz].
  - inversion Hbody; subst st'; clear Hbody. unfold fillFlatInv; simpl.
    split; [lia |]. split; [lia |].
    split. { rewrite Hn. simpl. rewrite Hi, Hz, Hsum. lra. }
    split; [exact Hlen |].
    split.
    + intros j Hj. destruct (Z.eq_dec (Z.of_nat j) (start + (i - left))) as [E | E].
      * replace (left + (Z.of_nat j - start))%Z with i by lia.
        unfold storedOver. destruct (Req_dec_T (w i) 0); [| contradiction].
        apply Hout. lia.
      * apply Hin. lia.
    + intros j Hj. apply Hout. lia.
  - apply bind_Returns in Hbody. destruct Hbody as (weights' & Hset & Hret).
    apply slice_set_Returns in Hset. destruct Hset as [Hrange ->].
    inversion Hret; subst st'; clear Hret. unfold fillFlatInv; simpl.
    unfold len in Hrange.
    split; [lia |]. split; [lia |].
    split. { rewrite Hn. simpl. rewrite Hi, Hsum. reflexivity. }
    split. { rewrite length_update. exact Hlen. }
    split.
    + intros j Hj. destruct (Z.eq_dec (Z.of_nat j) (start + (i - left))) as [E | E].
      * replace (left + (Z.of_nat j - start))%Z with i by lia.
        unfold storedOver. destruct (Req_dec_T (w i) 0); [contradiction |].
        replace (Z.to_nat (flatIdx st)) with j by lia.
        apply nth_update_same. lia.
      * rewrite nth_update_other by lia. apply Hin. lia.
    + intros j Hj. rewrite nth_update_other by lia. apply Hout. lia.
Qed.

(** The store loop returns when the slots of the whole range lie in the
    table, and then satisfies its invariant at the end of the range. *)
Lemma fillFlat_spec :
  (start + Z.of_nat (rangeCount left right) <= len weights0)%Z ->
  exists st,
    fillFlat filter scale center left right weights0 start = Returns st
    /\ fillFlatInv (left + Z.of_nat (rangeCount left right)) st.
Proof.
  intros Hfit.
  change (fillFlat filter scale center left right weights0 start)
    with (for_le left right fillFlatBody (mkFlatState weights0 0 start)).
  unfold for_le.
  destruct (for_loop_returns
              (fun i st => (i <= left + Z.of_nat (rangeCount left right))%Z
                           /\ fillFlatInv i st)
              fillFlatBody (Z.to_nat (right - left + 1)) left
              (mkFlatState weights0 0 start))
    as (st & Hst & _ & Hinv).
  - intros i t Hi (_ & Hinv).
    assert (Hb : exists t', fillFlatBody i t = Returns t').
    { destruct Hinv as (Hle & Hidx & _ & Hlen & _).
      unfold fillFlatBody.
      destruct (Req_dec_T (weightOf filter scale center i) 0); [eauto |].
      rewrite slice_set_in_range; [simpl; eauto |].
      unfold len, rangeCount in *. lia. }
    destruct Hb as (t' & Hb). exists t'. split; [exact Hb |].
    split; [unfold rangeCount; lia | exact (fillFlatInv_step i t t' Hinv Hb)].
  - split; [lia | apply fillFlatInv_init].
  - exists st. split; [exact Hst | exact Hinv].
Qed.

End FlatRowFacts.

Section FlatNormalizeFacts.

Import filters resize flat.
Local Open Scope R_scope.

Variables left right : Z.
Variable sum : float64.
Variable weights0 : list float64.
Variable start : Z.
Hypothesis Hstart : (0 <= start)%Z.

Definition normalizeFlatBody (srcIdx : Z) (st : flatState) : outcome flatState :=
  bind (slice_get (flatWeights st) (flatIdx st))
    (fun w =>
       bind (slice_set (flatWeights st) (flatIdx st) (w / sum))
         (fun weights' =>
            Returns (mkFlatState weights' (flatSum st) (flatIdx st + 1)))).

Definition normalizeFlatInv (i : Z) (st : flatState) : Prop :=
  (left <= i)%Z
  /\ flatIdx st = (start + (i - left))%Z
  /\ length (flatWeights st) = length weights0
  /\ (forall j : nat, (start <= Z.of_nat j < start + (i - left))%Z ->
        nth j (flatWeights st) 0 = nth j weights0 0 / sum)
  /\ (forall j : nat, (Z.of_nat j < start \/ start + (i - left) <= Z.of_nat j)%Z ->
        nth j (flatWeights st) 0 = nth j weights0 0).

Lemma normalizeFlatInv_step (i : Z) (st st' : flatState) :
  normalizeFlatInv i st -> normalizeFlatBody i st = Returns st' ->
  normalizeFlatInv (i + 1) st'.
Proof.
  intros (Hle & Hidx & Hlen & Hin & Hout) Hbody. unfold normalizeFlatBody in Hbody.
  apply bind_Returns in Hbody. destruct Hbody as (v & Hget & Hbody).
  apply bind_Returns in Hbody. destruct Hbody as (weights' & Hset & Hret).
  apply (slice_get_Returns _ _ _ 0) in Hget. destruct Hget as [Hrange Hv].
  apply slice_set_Returns in Hset. destruct Hset as [_ ->].
  inversion Hret; subst st'; clear Hret. unfold normalizeFlatInv; simpl.
  unfold len in Hrange.
  split; [lia |]. split; [lia |].
  split. { rewrite length_update. exact Hlen. }
  split.
  - intros j Hj. destruct (Z.eq_dec (Z.of_nat j) (start + (i - left))) as [E | E].
    + replace (Z.to_nat (flatIdx st)) with j in * by lia.
      rewrite nth_update_same by lia. rewrite <- Hv. f_equal. apply Hout. lia.
    + rewrite nth_update_other by lia. apply Hin. lia.
  - intros j Hj. rewrite nth_update_other by lia. apply Hout. lia.
Qed.

Lemma normalizeFlat_spec :
  (start + Z.of_nat (rangeCount left right) <= len weights0)%Z ->
  exists st,
    normalizeFlat left right sum weights0 start = Returns st
    /\ normalizeFlatInv (left + Z.of_nat (rangeCount left right)) st.
Proof.
  intros Hfit.
  change (normalizeFlat left right sum weights0 start)
    with (for_le left right normalizeFlatBody (mkFlatState weights0 sum start)).
  unfold for_le.
  destruct (for_loop_returns
              (fun i st => (i <= left + Z.of_nat (rangeCount left right))%Z
                           /\ normalizeFlatInv i st)
              normalizeFlatBody (Z.to_nat (right - left + 1)) left
              (mkFlatState weights0 sum start))
    as (st & Hst & _ & Hinv).
  - intros i t Hi (_ & Hinv).
    assert (Hb : exists t', normalizeFlatBody i t = Returns t').
    { destruct Hinv as (Hle & Hidx & Hlen & _).
      unfold normalizeFlatBody.
      rewrite (slice_get_in_range _ _ 0) by (unfold len, rangeCount in *; lia).
      cbn [bind].
      rewrite slice_set_in_range by (unfold len, rangeCount in *; lia).
      cbn [bind]. eauto. }
    destruct Hb as (t' & Hb). exists t'. split; [exact Hb |].
    split; [unfold rangeCount; lia | exact (normalizeFlatInv_step i t t' Hinv Hb)].
  - split; [lia |]. unfold normalizeFlatInv; simpl.
    replace (left - left)%Z with 0%Z by lia. repeat split; try lia; auto.
  - exists st. split; [exact Hst | exact Hinv].
Qed.

End FlatNormalizeFacts.

Section FlatRow.

Import filters resize flat.
Local Open Scope R_scope.

Variable srcSize : Z.
Variable filter : Resampler.
Variables scale support : float64.
Variable weightsPerPixel : Z.
Variable dstIdx : Z.
Variable weights0 : list float64.

Let center := centerOf dstIdx scale.
Let left := leftOf center support.
Let right := rightOf center support srcSize.
Let start := (dstIdx * weightsPerPixel)%Z.
Let count := rangeCount left right.
Let sum := sumWeights (weightOf filter scale center) left count.

(** One iteration of the loop over [dstIdx] returns when the slots it
    addresses lie in the table.  The slots it addresses, [start] to
    [start + count - 1], then hold the stored kernel values, normalized; the
    other slots keep their content. *)
Lemma flatRow_spec :
  (0 <= start)%Z ->
  (start + Z.of_nat count <= len weights0)%Z ->
  exists weights,
    flatRow srcSize filter scale support weightsPerPixel dstIdx weights0
    = Returns weights
    /\ length weights = length weights0
    /\ (forall j : nat, (start <= Z.of_nat j < start + Z.of_nat count)%Z ->
          nth j weights 0
          = normalized sum
              (storedOver filter scale center (nth j weights0 0)
                 (left + (Z.of_nat j - start))%Z))
    /\ (forall j : nat,
          (Z.of_nat j < start \/ start + Z.of_nat count <= Z.of_nat j)%Z ->
          nth j weights 0 = nth j weights0 0).
Proof.
  intros Hstart Hfit. unfold flatRow. fold center left right start.
  destruct (fillFlat_spec filter scale center left right weights0 start Hstart Hfit)
    as (st & Hst & (_ & _ & Hsum & Hlen & Hin & Hout)).
  rewrite Hst. cbn [bind].
  replace (Z.to_nat (left + Z.of_nat (rangeCount left right) - left))
    with count in Hsum by (unfold count; lia).
  fold sum in Hsum. rewrite Hsum. unfold normalized.
  destruct (Rlt_dec 0 sum) as [Hpos | Hnpos].
  - destruct (normalizeFlat_spec left right sum (flatWeights st) start Hstart)
      as (st' & Hst' & (_ & _ & Hlen' & Hin' & Hout')).
    { unfold len in *. rewrite Hlen. exact Hfit. }
    rewrite Hst'. cbn [bind]. eexists. split; [reflexivity |].
    split; [congruence |]. split.
    + intros j Hj. rewrite Hin' by (unfold count in Hj; lia).
      rewrite Hin by (unfold count in Hj; lia). reflexivity.
    + intros j Hj. rewrite Hout' by (unfold count in Hj; lia).
      apply Hout. unfold count in Hj. lia.
  - eexists. split; [reflexivity |]. split; [exact Hlen |]. split.
    + intros j Hj. apply Hin. unfold count in Hj. lia.
    + intros j Hj. apply Hout. unfold count in Hj. lia.
Qed.

End FlatRow.

Section FlatTable.

Import filters resize flat.
Local Open Scope Z_scope.

Variables srcSize dstSize : Z.
Variable lanczos : Lanczos.
Hypothesis HsrcSize : 1 <= srcSize.
Hypothesis HdstSize : 1 <= dstSize.
Hypothesis Hradius : 1 <= Radius lanczos.

Let filter := OfLanczos lanczos.
Let scale := scaleOf srcSize dstSize.
Let support := supportOf (filterRadiusOf filter) scale.
Let weightsPerPixel := weightsPerPixelOf support.
Let total := dstSize * weightsPerPixel.

Lemma flat_support_nonneg : (0 <= support)%R.
Proof.
  apply supportOf_nonneg; try assumption.
  unfold filter, filterRadiusOf, float64_of_int.
  assert (0 <= Radius lanczos) by lia. now apply IZR_le in H.
Qed.

Lemma flat_weightsPerPixel_pos : 1 <= weightsPerPixel.
Proof.
  pose proof flat_support_nonneg as Hsup.
  unfold weightsPerPixel, weightsPerPixelOf.
  rewrite int_of_float64_nonneg by lra.
  assert (0 <= Zfloor (2 * support)) by (apply Zfloor_lub; simpl; lra).
  lia.
Qed.

(** The slots a destination index addresses lie in the table. *)
Lemma flat_slots_in_table (d : Z) :
  0 <= d < dstSize ->
  let center := centerOf d scale in
  0 <= d * weightsPerPixel
  /\ d * weightsPerPixel
     + Z.of_nat (rangeCount (leftOf center support) (rightOf center support srcSize))
     <= total.
Proof.
  intros Hd center. pose proof flat_weightsPerPixel_pos as Hwpp.
  pose proof flat_support_nonneg as Hsup.
  split; [nia |]. unfold total.
  destruct (Z.eq_dec d (dstSize - 1)) as [-> | Hne].
  - pose proof (last_rangeCount_fits srcSize dstSize HsrcSize HdstSize
                  (filterRadiusOf filter)) as Hlast.
    cbv zeta in Hlast. fold scale support weightsPerPixel in Hlast.
    assert (Hr : (1 <= filterRadiusOf filter)%R).
    { unfold filter, filterRadiusOf, float64_of_int. now apply IZR_le in Hradius. }
    specialize (Hlast Hr). unfold center. nia.
  - pose proof (rangeCount_le_capacity_succ srcSize dstSize HsrcSize HdstSize
                  d support Hd Hsup) as Hsucc.
    cbv zeta in Hsucc. fold scale weightsPerPixel in Hsucc. unfold center. nia.
Qed.

(** What one iteration of the loop over [dstIdx] does to the table. *)
Definition flatRowPost (d : Z) (before after : list float64) : Prop :=
  let center := centerOf d scale in
  let left := leftOf center support in
  let right := rightOf center support srcSize in
  let start := d * weightsPerPixel in
  let count := rangeCount left right in
  let sum := sumWeights (weightOf filter scale center) left count in
  length after = length before
  /\ (forall j : nat, start <= Z.of_nat j < start + Z.of_nat count ->
        nth j after 0%R
        = normalized sum
            (storedOver filter scale center (nth j before 0%R)
               (left + (Z.of_nat j - start))))
  /\ (forall j : nat, Z.of_nat j < start \/ start + Z.of_nat count <= Z.of_nat j ->
        nth j after 0%R = nth j before 0%R).

(** The flat builder never panics; a property of the table that every
    iteration keeps holds of the table it returns. *)
Lemma flat_calculateWeights_invariant (Q : Z -> list float64 -> Prop) :
  Q 0 (repeat 0%R (Z.to_nat total)) ->
  (forall d before after,
     0 <= d < dstSize -> Q d before -> flatRowPost d before after ->
     Q (d + 1) after) ->
  exists weights,
    flat.calculateWeights srcSize dstSize filter = Returns (Some weights)
    /\ len weights = total
    /\ Q dstSize weights.
Proof.
  intros Hinit Hstep. pose proof flat_weightsPerPixel_pos as Hwpp.
  assert (Htotal : 0 <= total) by (unfold total; nia).
  unfold flat.calculateWeights.
  replace (srcSize <=? 0) with false by lia.
  replace (dstSize <=? 0) with false by lia. cbn [orb].
  fold scale support weightsPerPixel total.
  rewrite make_nonneg by exact Htotal. cbn [bind]. unfold for_lt.
  destruct (for_loop_returns
              (fun i ws => i <= dstSize /\ len ws = total /\ Q i ws)
              (fun d ws => flatRow srcSize filter scale support weightsPerPixel d ws)
              (Z.to_nat (dstSize - 0)) 0 (repeat 0%R (Z.to_nat total)))
    as (ws & Hws & _ & Hlen & HQ).
  - intros d t Hd (_ & Hlen & HQ).
    destruct (flat_slots_in_table d) as [Hs0 Hs1]; [lia |].
    destruct (flatRow_spec srcSize filter scale support weightsPerPixel d t)
      as (t' & Ht' & Hlen' & Hin & Hout); [exact Hs0 | rewrite Hlen; exact Hs1 |].
    exists t'. split; [exact Ht' |]. split; [lia |].
    split; [unfold len in *; lia |].
    apply (Hstep d t t'); [lia | exact HQ |].
    unfold flatRowPost. split; [exact Hlen' |]. split; [exact Hin | exact Hout].
  - split; [lia |]. split; [unfold len; rewrite repeat_length; lia | exact Hinit].
  - rewrite Hws. cbn [bind]. exists ws. split; [reflexivity |].
    split; [exact Hlen |].
    replace (0 + Z.of_nat (Z.to_nat (dstSize - 0))) with dstSize in HQ by lia.
    exact HQ.
Qed.

End FlatTable.

(** ** The flat table for 11 source pixels, 9 destination pixels, radius 2 *)

Section FlatExample.

Import filters resize flat.
Local Open Scope R_scope.

Definition lanczos2 : Resampler := OfLanczos (NewLanczos 2).

(** The kernel values of destination indices 5 and 6. *)
Definition w5 : Z -> float64 := weightOf lanczos2 (11 / 9) (56 / 9).
Definition w6 : Z -> float64 := weightOf lanczos2 (11 / 9) (67 / 9).

(** Their sums over the source ranges [[3, 8]] and [[5, 9]]. *)
Definition sum5 : float64 := sumWeights w5 3 6.
Definition sum6 : float64 := sumWeights w6 5 5.

(** What the iteration of destination index 5 leaves in slot 30, the first
    slot of destination index 6: its own last weight, normalized. *)
Definition spilled : float64 := normalized sum5 (w5 8).

Lemma scaleOf_11_9 : scaleOf 11 9 = 11 / 9.
Proof. unfold scaleOf, float64_of_int. lra. Qed.

Lemma supportOf_11_9 : supportOf (filterRadiusOf lanczos2) (11 / 9) = 22 / 9.
Proof.
  unfold supportOf, lanczos2, filterRadiusOf, float64_of_int. simpl Radius.
  destruct (Rlt_dec 1 (11 / 9)); lra.
Qed.

Lemma weightsPerPixelOf_11_9 : weightsPerPixelOf (22 / 9) = 5%Z.
Proof.
  unfold weightsPerPixelOf. rewrite (int_of_float64_eq 4); [reflexivity | lia | lra].
Qed.

Lemma centerOf_5_11_9 : centerOf 5 (11 / 9) = 56 / 9.
Proof. unfold centerOf, float64_of_int. lra. Qed.

Lemma centerOf_6_11_9 : centerOf 6 (11 / 9) = 67 / 9.
Proof. unfold centerOf, float64_of_int. lra. Qed.

Lemma leftOf_5_11_9 : leftOf (56 / 9) (22 / 9) = 3%Z.
Proof. unfold leftOf. rewrite (int_of_float64_eq 3); [reflexivity | lia | lra]. Qed.

Lemma rightOf_5_11_9 : rightOf (56 / 9) (22 / 9) 11 = 8%Z.
Proof. unfold rightOf. rewrite (int_of_float64_eq 8); [reflexivity | lia | lra]. Qed.

Lemma leftOf_6_11_9 : leftOf (67 / 9) (22 / 9) = 5%Z.
Proof. unfold leftOf. rewrite (int_of_float64_eq 5); [reflexivity | lia | lra]. Qed.

Lemma rightOf_6_11_9 : rightOf (67 / 9) (22 / 9) 11 = 9%Z.
Proof. unfold rightOf. rewrite (int_of_float64_eq 9); [reflexivity | lia | lra]. Qed.

(** The kernel argument of source index [s] for a destination index centred
    at [c], at scale 11/9. *)
Lemma weightOf_11_9 (c : float64) (s : Z) :
  weightOf lanczos2 (11 / 9) c s
  = Lanczos_Kernel (NewLanczos 2) ((IZR s - c) / (11 / 9)).
Proof.
  unfold weightOf, float64_of_int. destruct (Rlt_dec 1 (11 / 9)); [reflexivity | lra].
Qed.

(** The first source index of destination index 6 lies at kernel distance
    2: its kernel value is zero. *)
Lemma w6_5_zero : w6 5 = 0.
Proof.
  unfold w6. rewrite weightOf_11_9.
  replace ((5 - 67 / 9) / (11 / 9)) with (- (2)) by lra.
  apply Lanczos_Kernel_outside. cbn [Radius].
  rewrite Rabs_Ropp, Rabs_pos_eq; lra.
Qed.

Lemma sinc_not_whole (p q : Z) :
  (0 < q)%Z -> (p mod q <> 0)%Z -> sinc (IZR p / IZR q) <> 0.
Proof.
  intros Hq Hmod H. apply sinc_zero_integer in H. destruct H as [k Hk].
  assert (Hq' : IZR q <> 0) by (apply not_0_IZR; lia).
  assert (Hp : IZR p = IZR (k * q)).
  { rewrite mult_IZR, <- Hk. field. exact Hq'. }
  apply eq_IZR in Hp. subst p. rewrite Z.mod_mul in Hmod by lia. contradiction.
Qed.

(** The last source index of destination index 5 lies at kernel distance
    16/11: its kernel value is not zero. *)
Lemma w5_8_nonzero : w5 8 <> 0.
Proof.
  unfold w5. rewrite weightOf_11_9.
  replace ((8 - 56 / 9) / (11 / 9)) with (16 / 11) by lra.
  rewrite Lanczos_Kernel_inside by (rewrite Rabs_pos_eq; simpl; lra).
  rewrite Rabs_pos_eq by lra. simpl.
  apply Rmult_integral_contrapositive. split.
  - apply (sinc_not_whole 16 11); [lia | discriminate].
  - replace (16 / 11 / 2) with (IZR 8 / IZR 11) by lra.
    apply (sinc_not_whole 8 11); [lia | discriminate].
Qed.

Lemma normalized_nonzero (sum v : float64) : v <> 0 -> normalized sum v <> 0.
Proof.
  intros Hv. unfold normalized. destruct (Rlt_dec 0 sum) as [Hs | Hs]; [| exact Hv].
  unfold Rdiv. apply Rmult_integral_contrapositive. split; [exact Hv |].
  apply Rinv_neq_0_compat. lra.
Qed.

Lemma spilled_nonzero : spilled <> 0.
Proof. apply normalized_nonzero, w5_8_nonzero. Qed.

End FlatExample.

Section FlatExampleTable.

Import filters resize flat.
Local Open Scope R_scope.

(** One iteration of the flat builder at this input, with the geometry
    evaluated. *)
Lemma flatRowPost_11_9 (d : Z) (before after : list float64) :
  flatRowPost 11 9 (NewLanczos 2) d before after ->
  let center := centerOf d (11 / 9) in
  let left := leftOf center (22 / 9) in
  let right := rightOf center (22 / 9) 11 in
  let start := (d * 5)%Z in
  let count := rangeCount left right in
  let sum := sumWeights (weightOf lanczos2 (11 / 9) center) left count in
  (forall j : nat, (start <= Z.of_nat j < start + Z.of_nat count)%Z ->
     nth j after 0
     = normalized sum
         (storedOver lanczos2 (11 / 9) center (nth j before 0)
            (left + (Z.of_nat j - start))%Z))
  /\ (forall j : nat,
        (Z.of_nat j < start \/ start + Z.of_nat count <= Z.of_nat j)%Z ->
        nth j after 0 = nth j before 0).
Proof.
  unfold flatRowPost. cbv zeta. fold lanczos2.
  rewrite scaleOf_11_9, supportOf_11_9, weightsPerPixelOf_11_9.
  intros (_ & Hin & Hout). split; assumption.
Qed.

Lemma rangeCount_11_9 (d : Z) :
  (0 <= d < 9)%Z ->
  (Z.of_nat (rangeCount (leftOf (centerOf d (11 / 9)) (22 / 9))
                        (rightOf (centerOf d (11 / 9)) (22 / 9) 11)) <= 6)%Z.
Proof.
  intros Hd.
  pose proof (rangeCount_le_capacity_succ 11 9 ltac:(lia) ltac:(lia) d (22 / 9)
                Hd ltac:(lra)) as H.
  cbv zeta in H. rewrite scaleOf_11_9, weightsPerPixelOf_11_9 in H. exact H.
Qed.

Lemma storedOver_zero (filter : Resampler) (scale center : float64) (s : Z) :
  storedOver filter scale center 0 s = weightOf filter scale center s.
Proof.
  unfold storedOver. destruct (Req_dec_T (weightOf filter scale center s) 0) as [E | E];
    [now rewrite E | reflexivity].
Qed.

(** The slots 30 to 34 of the table, which belong to destination index 6,
    while the loop over [dstIdx] is at [i]. *)
Definition slotsInv (i : Z) (ws : list float64) : Prop :=
  ((i <= 5)%Z -> forall j : nat, (30 <= j <= 34)%nat -> nth j ws 0 = 0)
  /\ (i = 6%Z ->
      nth 30 ws 0 = spilled
      /\ forall j : nat, (31 <= j <= 34)%nat -> nth j ws 0 = 0)
  /\ ((7 <= i)%Z ->
      nth 30 ws 0 = normalized sum6 spilled
      /\ forall j : nat, (31 <= j <= 34)%nat ->
           nth j ws 0 = normalized sum6 (w6 (5 + (Z.of_nat j - 30))%Z)).

Lemma slotsInv_step (d : Z) (before after : list float64) :
  (0 <= d < 9)%Z -> slotsInv d before ->
  flatRowPost 11 9 (NewLanczos 2) d before after ->
  slotsInv (d + 1) after.
Proof.
  intros Hd (Hlow & Hsix & Hhigh) Hpost.
  apply flatRowPost_11_9 in Hpost. cbv zeta in Hpost.
  pose proof (rangeCount_11_9 d Hd) as Hcount.
  destruct Hpost as (Hin & Hout).
  destruct (Z_lt_le_dec d 5) as [H5 | H5].
  { (* the iterations before destination index 5 do not reach slot 30 *)
    split; [| split; intros; lia].
    intros _ j Hj. rewrite Hout by lia. apply Hlow; [lia | exact Hj]. }
  destruct (Z.eq_dec d 5) as [-> | Hne5].
  { (* destination index 5 stores its last weight in slot 30 *)
    rewrite centerOf_5_11_9, leftOf_5_11_9, rightOf_5_11_9 in Hin, Hout.
    change (rangeCount 3 8) with 6%nat in Hin, Hout.
    split; [intros; lia |]. split; [| intros; lia].
    intros _. split.
    - rewrite (Hin 30%nat) by lia. rewrite (Hlow ltac:(lia) 30%nat) by lia.
      rewrite storedOver_zero. reflexivity.
    - intros j Hj. rewrite Hout by lia. apply Hlow; lia. }
  destruct (Z.eq_dec d 6) as [-> | Hne6].
  { (* destination index 6 keeps what it finds where its kernel value is 0 *)
    rewrite centerOf_6_11_9, leftOf_6_11_9, rightOf_6_11_9 in Hin, Hout.
    change (rangeCount 5 9) with 5%nat in Hin, Hout.
    destruct (Hsix eq_refl) as (H30 & Hrest).
    split; [intros; lia |]. split; [intros; lia |].
    intros _. split.
    - rewrite (Hin 30%nat) by lia. rewrite H30. f_equal.
      unfold storedOver. change (weightOf lanczos2 (11 / 9) (67 / 9)) with w6.
      replace (5 + (Z.of_nat 30 - 6 * 5))%Z with 5%Z by lia.
      destruct (Req_dec_T (w6 5) 0) as [E | E]; [reflexivity |].
      contradiction (E w6_5_zero).
    - intros j Hj. rewrite (Hin j) by lia. rewrite (Hrest j Hj).
      rewrite storedOver_zero. reflexivity. }
  (* the later iterations start beyond slot 34 *)
  split; [intros; lia |]. split; [intros; lia |].
  intros _. destruct (Hhigh ltac:(lia)) as (H30 & Hrest). split.
  - rewrite Hout by lia. exact H30.
  - intros j Hj. rewrite Hout by lia. apply Hrest. exact Hj.
Qed.

(** The flat builder returns a table of 45 slots for this input; slot 30
    holds the weight spilled by destination index 5, normalized once more,
    and slots 31 to 34 the normalized kernel values of destination index 6. *)
Lemma flat_table_11_9 :
  exists weights,
    flat.calculateWeights 11 9 lanczos2 = Returns (Some weights)
    /\ len weights = 45%Z
    /\ nth 30 weights 0 = normalized sum6 spilled
    /\ forall j : nat, (31 <= j <= 34)%nat ->
         nth j weights 0 = normalized sum6 (w6 (5 + (Z.of_nat j - 30))%Z).
Proof.
  destruct (flat_calculateWeights_invariant 11 9 (NewLanczos 2)
              ltac:(lia) ltac:(lia) ltac:(simpl; lia) slotsInv)
    as (weights & Hw & Hlen & (_ & _ & Hhigh)).
  - split; [| split; intros; lia].
    intros _ j Hj. apply nth_repeat_zero.
  - intros d before after Hd HQ Hpost. now apply (slotsInv_step d before after).
  - exists weights. split; [exact Hw |].
    split.
    { rewrite Hlen. fold lanczos2.
      rewrite scaleOf_11_9, supportOf_11_9, weightsPerPixelOf_11_9. reflexivity. }
    exact (Hhigh ltac:(lia)).
Qed.

End FlatExampleTable.

Section FlatExampleBounds.

Import filters resize flat.
Local Open Scope R_scope.

(** The Lanczos kernel of radius 2 at a distance [0 < x < 2]. *)
Definition kernel2 (x : float64) : float64 := sinc x * sinc (x / 2).

Lemma PI_lower : 3 < PI.
Proof. pose proof PI2_3_2. lra. Qed.

Lemma PI_upper : PI <= 315 / 100.
Proof.
  pose proof (PI_2_3_7_ineq 1) as [_ H].
  simpl in H. unfold tg_alt, PI_2_3_7_tg, Ratan_seq in H. simpl in H.
  lra.
Qed.

Lemma kernel2_sin (x : float64) :
  0 < x -> kernel2 x = sin (PI * x) * sin (PI * (x / 2)) * (2 / (PI * PI * (x * x))).
Proof.
  intros Hx. unfold kernel2. rewrite !sinc_nonzero by lra.
  pose proof PI_lower. field. split; lra.
Qed.

Lemma weightOf_kernel2 (c : float64) (s : Z) (x : float64) :
  0 < x < 2 -> Rabs ((IZR s - c) / (11 / 9)) = x ->
  weightOf lanczos2 (11 / 9) c s = kernel2 x.
Proof.
  intros Hx Habs. rewrite weightOf_11_9.
  rewrite Lanczos_Kernel_inside by (rewrite Habs; simpl; lra).
  rewrite Habs. reflexivity.
Qed.

Lemma weightOf_outside (c : float64) (s : Z) :
  2 <= Rabs ((IZR s - c) / (11 / 9)) ->
  weightOf lanczos2 (11 / 9) c s = 0.
Proof.
  intros H. rewrite weightOf_11_9. apply Lanczos_Kernel_outside. exact H.
Qed.

(** Between 0 and 1 the kernel is not negative, between 1 and 2 not
    positive, and it never exceeds 1. *)
Lemma kernel2_nonneg (x : float64) : 0 < x <= 1 -> 0 <= kernel2 x.
Proof.
  intros Hx. rewrite kernel2_sin by lra. pose proof PI_lower as Hpi.
  assert (H1 : 0 <= sin (PI * x)).
  { apply sin_ge_0; [apply Rmult_le_pos; lra |].
    rewrite <- (Rmult_1_r PI) at 2. apply Rmult_le_compat_l; lra. }
  assert (H2 : 0 <= sin (PI * (x / 2))).
  { apply sin_ge_0; [apply Rmult_le_pos; lra |].
    rewrite <- (Rmult_1_r PI) at 2. apply Rmult_le_compat_l; lra. }
  assert (H3 : 0 < 2 / (PI * PI * (x * x))).
  { apply Rdiv_lt_0_compat; [lra |]. apply Rmult_lt_0_compat; apply Rmult_lt_0_compat; lra. }
  apply Rmult_le_pos; [apply Rmult_le_pos; assumption | lra].
Qed.

Lemma kernel2_nonpos (x : float64) : 1 <= x < 2 -> kernel2 x <= 0.
Proof.
  intros Hx. rewrite kernel2_sin by lra. pose proof PI_lower as Hpi.
  assert (H1 : sin (PI * x) <= 0).
  { apply sin_le_0.
    - rewrite <- (Rmult_1_r PI) at 1. apply Rmult_le_compat_l; lra.
    - rewrite (Rmult_comm 2 PI). apply Rmult_le_compat_l; lra. }
  assert (H2 : 0 <= sin (PI * (x / 2))).
  { apply sin_ge_0; [apply Rmult_le_pos; lra |].
    rewrite <- (Rmult_1_r PI) at 2. apply Rmult_le_compat_l; lra. }
  assert (H3 : 0 < 2 / (PI * PI * (x * x))).
  { apply Rdiv_lt_0_compat; [lra |]. apply Rmult_lt_0_compat; apply Rmult_lt_0_compat; lra. }
  assert (H4 : sin (PI * x) * sin (PI * (x / 2)) <= 0) by nra.
  nra.
Qed.

Lemma sinc_le_1 (x : float64) : 0 < x -> sinc x <= 1.
Proof.
  intros Hx. rewrite sinc_nonzero by lra. pose proof PI_lower as Hpi.
  assert (Hp : 0 < PI * x) by (apply Rmult_lt_0_compat; lra).
  pose proof (sin_lt_x _ Hp) as Hs.
  apply Rmult_le_reg_r with (PI * x); [exact Hp |].
  unfold Rdiv. rewrite Rmult_assoc, Rinv_l by lra. lra.
Qed.

Lemma sinc_ge_0 (x : float64) : 0 < x <= 1 -> 0 <= sinc x.
Proof.
  intros Hx. rewrite sinc_nonzero by lra. pose proof PI_lower as Hpi.
  assert (Hp : 0 < PI * x) by (apply Rmult_lt_0_compat; lra).
  assert (H1 : 0 <= sin (PI * x)).
  { apply sin_ge_0; [lra |].
    rewrite <- (Rmult_1_r PI) at 2. apply Rmult_le_compat_l; lra. }
  apply Rmult_le_pos; [exact H1 |]. left. apply Rinv_0_lt_compat. exact Hp.
Qed.

Lemma kernel2_le_1 (x : float64) : 0 < x <= 1 -> kernel2 x <= 1.
Proof.
  intros Hx. unfold kernel2.
  pose proof (sinc_le_1 x ltac:(lra)). pose proof (sinc_ge_0 x Hx).
  pose proof (sinc_le_1 (x / 2) ltac:(lra)). pose proof (sinc_ge_0 (x / 2) ltac:(lra)).
  nra.
Qed.

(** Away from 0 the kernel is small. *)
Lemma kernel2_lower (x : float64) : 0 < x -> - (2 / (9 * (x * x))) <= kernel2 x.
Proof.
  intros Hx. rewrite kernel2_sin by lra. pose proof PI_lower as Hpi.
  pose proof (SIN_bound (PI * x)) as H1. pose proof (SIN_bound (PI * (x / 2))) as H2.
  assert (Hxx : 0 < x * x) by nra.
  assert (Hpp : 9 < PI * PI) by nra.
  assert (H3 : 0 < 2 / (PI * PI * (x * x)) <= 2 / (9 * (x * x))).
  { split.
    - apply Rdiv_lt_0_compat; [lra | nra].
    - unfold Rdiv. apply Rmult_le_compat_l; [lra |].
      apply Rinv_le_contravar; nra. }
  assert (H4 : -1 <= sin (PI * x) * sin (PI * (x / 2))) by nra.
  nra.
Qed.

Lemma two_over_lower (c d : R) : 0 < d -> c * d <= 2 -> c <= 2 / d.
Proof.
  intros Hd H. apply Rmult_le_reg_r with d; [exact Hd |].
  unfold Rdiv. rewrite Rmult_assoc, Rinv_l by lra. lra.
Qed.

(** Three values of the kernel. *)
Lemma sin_ge_half (x : R) : PI / 6 <= x <= PI / 2 -> 1 / 2 <= sin x.
Proof.
  intros Hx. rewrite <- sin_PI6. pose proof PI_lower.
  apply sin_incr_1; lra.
Qed.

Lemma sin_half_angle (x : R) : 0 <= x <= PI / 2 -> sin (2 * x) <= 2 * sin x.
Proof.
  intros Hx. rewrite sin_2a. pose proof PI_lower.
  assert (0 <= sin x) by (apply sin_ge_0; lra).
  pose proof (COS_bound x). nra.
Qed.

Lemma kernel2_at_2_11 : 3 / 4 <= kernel2 (2 / 11).
Proof.
  rewrite kernel2_sin by lra. pose proof PI_lower as Hlo. pose proof PI_upper as Hup.
  assert (H1 : 1 / 2 <= sin (PI * (2 / 11))) by (apply sin_ge_half; lra).
  assert (H2 : 1 / 4 <= sin (PI * (2 / 11 / 2))).
  { pose proof (sin_half_angle (PI * (2 / 11 / 2)) ltac:(lra)) as H.
    replace (2 * (PI * (2 / 11 / 2))) with (PI * (2 / 11)) in H by lra. lra. }
  assert (H3 : 1 / 8 <= sin (PI * (2 / 11)) * sin (PI * (2 / 11 / 2))) by nra.
  assert (H4 : 6 <= 2 / (PI * PI * (2 / 11 * (2 / 11)))).
  { apply two_over_lower; nra. }
  nra.
Qed.

Lemma kernel2_at_4_11 : 3 / 8 <= kernel2 (4 / 11).
Proof.
  rewrite kernel2_sin by lra. pose proof PI_lower as Hlo. pose proof PI_upper as Hup.
  assert (H1 : 1 / 2 <= sin (PI * (4 / 11))) by (apply sin_ge_half; lra).
  assert (H2 : 1 / 2 <= sin (PI * (4 / 11 / 2))) by (apply sin_ge_half; lra).
  assert (H3 : 1 / 4 <= sin (PI * (4 / 11)) * sin (PI * (4 / 11 / 2))) by nra.
  assert (H4 : 3 / 2 <= 2 / (PI * PI * (4 / 11 * (4 / 11)))).
  { apply two_over_lower; nra. }
  nra.
Qed.

Lemma sin_ge_PI4 (x : R) : PI / 4 <= x <= PI / 2 -> sin (PI / 4) <= sin x.
Proof. intros Hx. pose proof PI_lower. apply sin_incr_1; lra. Qed.

Lemma sin_PI4_square : sin (PI / 4) * sin (PI / 4) = 1 / 2.
Proof.
  rewrite sin_PI4. unfold Rdiv. rewrite !Rmult_1_l, <- Rinv_mult, sqrt_sqrt by lra.
  lra.
Qed.

Lemma kernel2_at_16_11 : kernel2 (16 / 11) <= - (47 / 1000).
Proof.
  rewrite kernel2_sin by lra. pose proof PI_lower as Hlo. pose proof PI_upper as Hup.
  replace (PI * (16 / 11)) with (PI * (5 / 11) + PI) by lra. rewrite neg_sin.
  replace (PI * (16 / 11 / 2)) with (PI - PI * (3 / 11)) by lra. rewrite sin_PI_x.
  pose proof (sin_ge_PI4 (PI * (5 / 11)) ltac:(lra)) as H1.
  pose proof (sin_ge_PI4 (PI * (3 / 11)) ltac:(lra)) as H2.
  pose proof sin_PI4_square as Hsq.
  assert (H0 : 0 <= sin (PI / 4)) by (apply sin_ge_0; lra).
  assert (H3 : 1 / 2 <= sin (PI * (5 / 11)) * sin (PI * (3 / 11))) by nra.
  assert (H4 : 95 / 1000 <= 2 / (PI * PI * (16 / 11 * (16 / 11)))).
  { apply two_over_lower; nra. }
  nra.
Qed.

(** The kernel values of destination index 5, over the source range
    [[3, 8]]. *)
Lemma w5_values :
  w5 3 = 0 /\ w5 4 = kernel2 (20 / 11) /\ w5 5 = kernel2 1
  /\ w5 6 = kernel2 (2 / 11) /\ w5 7 = kernel2 (7 / 11)
  /\ w5 8 = kernel2 (16 / 11).
Proof.
  unfold w5. repeat split.
  - apply weightOf_outside.
    replace ((3 - 56 / 9) / (11 / 9)) with (- (29 / 11)) by lra.
    rewrite Rabs_Ropp, Rabs_pos_eq; lra.
  - apply weightOf_kernel2; [lra |].
    replace ((4 - 56 / 9) / (11 / 9)) with (- (20 / 11)) by lra.
    rewrite Rabs_Ropp, Rabs_pos_eq; lra.
  - apply weightOf_kernel2; [lra |].
    replace ((5 - 56 / 9) / (11 / 9)) with (- (1)) by lra.
    rewrite Rabs_Ropp, Rabs_pos_eq; lra.
  - apply weightOf_kernel2; [lra |].
    replace ((6 - 56 / 9) / (11 / 9)) with (- (2 / 11)) by lra.
    rewrite Rabs_Ropp, Rabs_pos_eq; lra.
  - apply weightOf_kernel2; [lra |].
    replace ((7 - 56 / 9) / (11 / 9)) with (7 / 11) by lra.
    rewrite Rabs_pos_eq; lra.
  - apply weightOf_kernel2; [lra |].
    replace ((8 - 56 / 9) / (11 / 9)) with (16 / 11) by lra.
    rewrite Rabs_pos_eq; lra.
Qed.

(** The kernel values of destination index 6, over the source range
    [[5, 9]]. *)
Lemma w6_values :
  w6 5 = 0 /\ w6 6 = kernel2 (13 / 11) /\ w6 7 = kernel2 (4 / 11)
  /\ w6 8 = kernel2 (5 / 11) /\ w6 9 = kernel2 (14 / 11).
Proof.
  split; [exact w6_5_zero |]. unfold w6. repeat split.
  - apply weightOf_kernel2; [lra |].
    replace ((6 - 67 / 9) / (11 / 9)) with (- (13 / 11)) by lra.
    rewrite Rabs_Ropp, Rabs_pos_eq; lra.
  - apply weightOf_kernel2; [lra |].
    replace ((7 - 67 / 9) / (11 / 9)) with (- (4 / 11)) by lra.
    rewrite Rabs_Ropp, Rabs_pos_eq; lra.
  - apply weightOf_kernel2; [lra |].
    replace ((8 - 67 / 9) / (11 / 9)) with (5 / 11) by lra.
    rewrite Rabs_pos_eq; lra.
  - apply weightOf_kernel2; [lra |].
    replace ((9 - 67 / 9) / (11 / 9)) with (14 / 11) by lra.
    rewrite Rabs_pos_eq; lra.
Qed.

Lemma sum5_values : sum5 = w5 3 + w5 4 + w5 5 + w5 6 + w5 7 + w5 8.
Proof.
  unfold sum5.
  change (sumWeights w5 3 6) with (0 + w5 3 + w5 4 + w5 5 + w5 6 + w5 7 + w5 8).
  lra.
Qed.

Lemma sum6_values : sum6 = w6 5 + w6 6 + w6 7 + w6 8 + w6 9.
Proof.
  unfold sum6.
  change (sumWeights w6 5 5) with (0 + w6 5 + w6 6 + w6 7 + w6 8 + w6 9).
  lra.
Qed.

(** Both weight sums are positive, so both destination indices are
    normalized, and neither exceeds 2. *)
Lemma sum5_bounds : 1 / 2 <= sum5 <= 2.
Proof.
  rewrite sum5_values.
  destruct w5_values as (-> & -> & -> & -> & -> & ->).
  pose proof (kernel2_lower (20 / 11) ltac:(lra)).
  pose proof (kernel2_nonpos (20 / 11) ltac:(lra)).
  pose proof (kernel2_nonneg 1 ltac:(lra)).
  pose proof (kernel2_nonpos 1 ltac:(lra)).
  pose proof kernel2_at_2_11.
  pose proof (kernel2_le_1 (2 / 11) ltac:(lra)).
  pose proof (kernel2_nonneg (7 / 11) ltac:(lra)).
  pose proof (kernel2_le_1 (7 / 11) ltac:(lra)).
  pose proof (kernel2_lower (16 / 11) ltac:(lra)).
  pose proof kernel2_at_16_11.
  lra.
Qed.

Lemma sum6_bounds : 1 / 20 <= sum6 <= 2.
Proof.
  rewrite sum6_values.
  destruct w6_values as (-> & -> & -> & -> & ->).
  pose proof (kernel2_lower (13 / 11) ltac:(lra)).
  pose proof (kernel2_nonpos (13 / 11) ltac:(lra)).
  pose proof kernel2_at_4_11.
  pose proof (kernel2_le_1 (4 / 11) ltac:(lra)).
  pose proof (kernel2_nonneg (5 / 11) ltac:(lra)).
  pose proof (kernel2_le_1 (5 / 11) ltac:(lra)).
  pose proof (kernel2_lower (14 / 11) ltac:(lra)).
  pose proof (kernel2_nonpos (14 / 11) ltac:(lra)).
  lra.
Qed.

Lemma normalized_positive (sum v : float64) : 0 < sum -> normalized sum v = v / sum.
Proof.
  intros H. unfold normalized. destruct (Rlt_dec 0 sum); [reflexivity | contradiction].
Qed.

(** What destination index 5 spills is at least 47/4000 when divided by
    the sum of destination index 6. *)
Lemma spilled_bound : normalized sum6 spilled <= - (47 / 4000).
Proof.
  pose proof sum5_bounds as H5. pose proof sum6_bounds as H6.
  unfold spilled. rewrite !normalized_positive by lra.
  destruct w5_values as (_ & _ & _ & _ & _ & ->).
  pose proof kernel2_at_16_11 as Hk.
  replace (kernel2 (16 / 11) / sum5 / sum6)
    with (- ((- kernel2 (16 / 11)) * / (sum5 * sum6))) by (field; lra).
  apply Ropp_le_contravar.
  assert (Hinv : / 4 <= / (sum5 * sum6)) by (apply Rinv_le_contravar; nra).
  assert (Hpos : 0 < / (sum5 * sum6)) by (apply Rinv_0_lt_compat; nra).
  nra.
Qed.

(** The slots [start, start + count) of a flat table. *)
Definition slots (weights : list float64) (start count : nat) : list float64 :=
  firstn count (skipn start weights).

Lemma rowSum_slots_5 (weights : list float64) (start : nat) :
  (start + 5 <= length weights)%nat ->
  rowSum (slots weights start 5)
  = nth start weights 0 + nth (start + 1) weights 0 + nth (start + 2) weights 0
    + nth (start + 3) weights 0 + nth (start + 4) weights 0.
Proof.
  intros Hlen. rewrite rowSum_sumWeights. unfold slots.
  rewrite length_firstn, length_skipn, Nat.min_l by lia.
  cbn [sumWeights].
  repeat match goal with
         | |- context [nth ?k (firstn 5 ?l) 0] =>
             rewrite (nth_firstn 5 l k 0)
         end.
  cbn [Z.of_nat Z.add Z.to_nat Pos.of_succ_nat Pos.succ Pos.to_nat Pos.iter_op
       Nat.add Nat.ltb Nat.leb].
  rewrite !nth_skipn. rewrite Nat.add_0_r.
  change (Pos.to_nat 1) with 1%nat. change (Pos.to_nat 2) with 2%nat.
  change (Pos.to_nat 3) with 3%nat. change (Pos.to_nat 4) with 4%nat.
  cbn [Nat.leb]. lra.
Qed.

End FlatExampleBounds.

Section FlatExampleClaim.

Import filters resize flat.
Local Open Scope R_scope.

(** C3, for the flat table of the second [calculateWeights]
    (src/internal/filters/filter.go, lines 259 to 335): the weights of a
    destination index do not always sum to 1 within 1/100.  Resizing a
    length of 11 to 9 with the Lanczos kernel of radius 2, the builder
    returns a table of 9 * 5 slots; the weight sum computed for destination
    index 6 is positive, so its weights are normalized; yet the five slots
    of destination index 6, which are the slots the passes read for its
    source range [[5, 9]], sum to less than 0.99.  Destination index 5 has
    six source indices for five slots and stores its last weight in the
    first slot of destination index 6, whose own first kernel value is zero
    and is therefore not stored over it. *)
Theorem flat_calculateWeights_row_not_normalized :
  exists weights,
    flat.calculateWeights 11 9 (OfLanczos (NewLanczos 2)) = Returns (Some weights)
    /\ len weights = (9 * 5)%Z
    /\ 0 < sumWeights
             (weightOf (OfLanczos (NewLanczos 2)) (scaleOf 11 9)
                (centerOf 6 (scaleOf 11 9)))
             5 5
    /\ rowSum (slots weights (6 * 5) 5) < 1 - 1 / 100.
Proof.
  destruct flat_table_11_9 as (weights & Hw & Hlen & H30 & Hrest).
  exists weights. split; [exact Hw |]. split; [exact Hlen |].
  pose proof sum6_bounds as H6.
  split.
  { rewrite scaleOf_11_9, centerOf_6_11_9. fold lanczos2. fold w6. fold sum6. lra. }
  rewrite rowSum_slots_5 by (unfold len in Hlen; lia).
  change (6 * 5)%nat with 30%nat. cbn [Nat.add].
  rewrite H30, !Hrest by lia.
  rewrite !normalized_positive by lra.
  pose proof spilled_bound as Hs. rewrite (normalized_positive sum6) in Hs by lra.
  replace (5 + (Z.of_nat 31 - 30))%Z with 6%Z by lia.
  replace (5 + (Z.of_nat 32 - 30))%Z with 7%Z by lia.
  replace (5 + (Z.of_nat 33 - 30))%Z with 8%Z by lia.
  replace (5 + (Z.of_nat 34 - 30))%Z with 9%Z by lia.
  assert (Hone : w6 6 / sum6 + w6 7 / sum6 + w6 8 / sum6 + w6 9 / sum6 = 1).
  { rewrite sum6_values at 1 2 3 4. rewrite w6_5_zero.
    rewrite sum6_values, w6_5_zero in H6. field. lra. }
  lra.
Qed.

End FlatExampleClaim.

Section FlatReturns.

Import filters resize flat.

(** The flat [calculateWeights] of src/internal/filters/filter.go never
    indexes outside its table: for a source and a destination length of at
    least 1 and a Lanczos kernel of radius at least 1 it returns a table of
    [dstSize * weightsPerPixel] slots.  A destination index with one source
    index more than [weightsPerPixel] stores into the slots of the next
    destination index, and the last destination index never has one. *)
Theorem flat_calculateWeights_returns (srcSize dstSize : Z) (lanczos : Lanczos) :
  1 <= srcSize -> 1 <= dstSize -> 1 <= Radius lanczos ->
  exists weights,
    flat.calculateWeights srcSize dstSize (OfLanczos lanczos)
    = Returns (Some weights)
    /\ len weights
       = dstSize * weightsPerPixelOf
                     (supportOf (filterRadiusOf (OfLanczos lanczos))
                        (scaleOf srcSize dstSize)).
Proof.
  intros Hsrc Hdst Hradius.
  destruct (flat_calculateWeights_invariant srcSize dstSize lanczos
              Hsrc Hdst Hradius (fun _ _ => True))
    as (weights & Hw & Hlen & _).
  - exact I.
  - intros; exact I.
  - exists weights. split; [exact Hw | exact Hlen].
Qed.

Lemma flat_calculateWeights_returns_witness :
  exists weights,
    flat.calculateWeights 77 64 (OfLanczos (NewLanczos 2)) = Returns (Some weights)
    /\ len weights
       = 64 * weightsPerPixelOf
                (supportOf (filterRadiusOf (OfLanczos (NewLanczos 2)))
                   (scaleOf 77 64)).
Proof.
  apply (flat_calculateWeights_returns 77 64 (NewLanczos 2)); [lia | lia | simpl; lia].
Defined.

End FlatReturns.

(** ** The passes of the flat-table variant *)

Section FlatPixelFacts.

Import filters resize.

Variable src : image.Image.
Variable coord : Z -> image.Point.

Definition flatAccCond (weights : list float64) (_ : Z) (st : accState) : bool :=
  accIdx st <? len weights.

(** The accumulation loop of the flat passes never panics: the weight index
    starts at a slot number, which is not negative, and the loop condition
    keeps it below the length of the table. *)
Lemma flat_accumulate_total (weights : list float64) (weightIdx left right : Z) :
  0 <= weightIdx ->
  exists st, flat.accumulate src coord weights weightIdx left right = Returns st.
Proof.
  intros Hidx. unfold flat.accumulate.
  destruct (for_loop_returns_cond (fun st => 0 <= accIdx st)
              (flatAccCond weights)
              (fun srcIdx st =>
                 bind (slice_get weights (accIdx st))
                   (fun weight =>
                      if Req_dec_T weight 0
                      then Returns (mkAccState (accR st) (accG st) (accB st) (accA st)
                                      (accIdx st + 1) (accReads st))
                      else
                        let p := coord srcIdx in
                        let srcColor := image.At src (image.X p) (image.Y p) in
                        Returns (mkAccState
                                   (accR st + float64_of_int (color.red srcColor) * weight)%R
                                   (accG st + float64_of_int (color.green srcColor) * weight)%R
                                   (accB st + float64_of_int (color.blue srcColor) * weight)%R
                                   (accA st + float64_of_int (color.alpha srcColor) * weight)%R
                                   (accIdx st + 1) (p :: accReads st))))
              (Z.to_nat (right - left + 1)) left
              (mkAccState 0 0 0 0 weightIdx []))
    as (st & Hst & _).
  - intros i t _ Ht Hc. unfold flatAccCond in Hc.
    rewrite (slice_get_in_range _ _ 0%R) by lia. cbn [bind].
    destruct (Req_dec_T _ 0); eexists; (split; [reflexivity | simpl; lia]).
  - simpl. exact Hidx.
  - exists st. exact Hst.
Qed.

(** The source is read only at source indices of the range. *)
Lemma flat_accumulate_reads (weights : list float64) (weightIdx left right : Z)
    (st : accState) :
  flat.accumulate src coord weights weightIdx left right = Returns st ->
  Forall (fun p => exists srcIdx, p = coord srcIdx /\ left <= srcIdx <= right)
         (accReads st).
Proof.
  unfold flat.accumulate.
  apply for_loop_invariant with
    (Inv := fun st => Forall (fun p => exists srcIdx,
                                p = coord srcIdx /\ left <= srcIdx <= right)
                             (accReads st)).
  - intros i t t' Hi Ht _ Hb.
    apply bind_Returns in Hb. destruct Hb as (weight & _ & Hb).
    destruct (Req_dec_T weight 0); inversion Hb; subst t'; simpl; [exact Ht |].
    constructor; [| exact Ht]. exists i. split; [reflexivity | lia].
  - simpl. constructor.
Qed.

Lemma flat_resamplePixel_total (weights : list float64) (filter : Lanczos)
    (weightsPerPixel srcSize dstSize dstIdx : Z) :
  0 <= dstIdx -> 0 <= weightsPerPixel ->
  exists st,
    flat.resamplePixel src coord weights filter weightsPerPixel srcSize dstSize dstIdx
    = Returns st.
Proof.
  intros Hd Hw. unfold flat.resamplePixel. apply flat_accumulate_total. nia.
Qed.

End FlatPixelFacts.

Section FlatPassFacts.

Import filters resize.

Variable src : image.Image.
Variables srcLen dstLen other : Z.
Variables px py : Z -> Z -> Z.
Variable coord : Z -> Z -> image.Point.
Variable rect : image.Rectangle.
Variable err : error.

Hypothesis Hinj : forall a b a' b',
  px a b = px a' b' -> py a b = py a' b' -> a = a' /\ b = b'.
Hypothesis Hin : forall a b,
  0 <= a < other -> 0 <= b < dstLen ->
  image.In (image.Pt (px a b) (py a b)) rect = true.

Definition flatPassBody (weights : list float64) (weightsPerPixel a b : Z)
    (dst : image.NRGBA) : outcome image.NRGBA :=
  bind (flat.resamplePixel src (coord a) weights (NewLanczos 2) weightsPerPixel
          srcLen dstLen b)
    (fun st =>
       Returns (image.NRGBA_Set dst (px a b) (py a b)
                  (color.NRGBA64_RGBA (narrow st)))).

(** The part the two flat passes share once the copy case is excluded. *)
Definition flatFilteredPass : outcome result :=
  bind (flat.calculateWeights srcLen dstLen (OfLanczos (NewLanczos 2)))
    (fun weights =>
       match weights with
       | None => Returns (None, Some err)
       | Some weights =>
           bind (int_div (len weights) dstLen)
             (fun weightsPerPixel =>
                bind (fill 0 other 0 dstLen (flatPassBody weights weightsPerPixel)
                        (image.NewNRGBA rect))
                  (fun dst => Returns (Some dst, None)))
       end).

Lemma flat_calculateWeights_nil :
  srcLen <= 0 \/ dstLen <= 0 ->
  flat.calculateWeights srcLen dstLen (OfLanczos (NewLanczos 2)) = Returns None.
Proof.
  intros H. unfold flat.calculateWeights.
  replace ((srcLen <=? 0) || (dstLen <=? 0)) with true; [reflexivity |].
  symmetry. apply orb_true_iff. lia.
Qed.

(** The colour a flat pass stores for the pair [(a, b)]. *)
Definition flatPassColour (weights : list float64) (a b : Z) (c : color.RGBA)
    : Prop :=
  exists st,
    flat.resamplePixel src (coord a) weights (NewLanczos 2)
      (weightsPerPixelOf (supportOf 2 (scaleOf srcLen dstLen))) srcLen dstLen b
    = Returns st
    /\ c = color.NRGBA64_RGBA (narrow st).

(** A flat pass never panics.  It fails with its error when a length is not
    positive; otherwise the table is built, [len(weights) / dstLen] is the
    number of slots per destination index, and every pixel is stored. *)
Lemma flatFilteredPass_spec :
  (srcLen <= 0 \/ dstLen <= 0 -> flatFilteredPass = Returns (None, Some err))
  /\ (1 <= srcLen -> 1 <= dstLen ->
      exists weights dst,
        flat.calculateWeights srcLen dstLen (OfLanczos (NewLanczos 2))
        = Returns (Some weights)
        /\ flatFilteredPass = Returns (Some dst, None)
        /\ image.NRect dst = rect
        /\ forall a b, 0 <= a < other -> 0 <= b < dstLen ->
             exists c, flatPassColour weights a b c
                       /\ image.Pix dst (px a b) (py a b) = color.nrgbaModel c).
Proof.
  split.
  - intros H. unfold flatFilteredPass. rewrite flat_calculateWeights_nil by exact H.
    reflexivity.
  - intros Hs Hd.
    destruct (flat_calculateWeights_invariant srcLen dstLen (NewLanczos 2)
                Hs Hd ltac:(simpl; lia) (fun _ _ => True))
      as (weights & Hw & Hlen & _); [exact I | intros; exact I |].
    pose proof (flat_weightsPerPixel_pos srcLen dstLen (NewLanczos 2)
                  Hs Hd ltac:(simpl; lia)) as Hwpp.
    cbn [filterRadiusOf Radius] in Hlen, Hwpp. unfold float64_of_int in Hlen, Hwpp.
    set (wpp := weightsPerPixelOf (supportOf 2 (scaleOf srcLen dstLen))) in *.
    assert (Hdiv : int_div (len weights) dstLen = Returns wpp).
    { unfold int_div. replace (dstLen =? 0) with false by lia.
      rewrite Hlen. f_equal. rewrite Z.quot_div_nonneg by nia.
      rewrite Z.mul_comm. apply Z.div_mul. lia. }
    unfold flatFilteredPass. rewrite Hw. cbn [bind]. rewrite Hdiv. cbn [bind].
    destruct (fill_total 0 other 0 dstLen (flatPassBody weights wpp)
                (image.NewNRGBA rect)) as (dst & Hdst).
    { intros a b t _ Hb. unfold flatPassBody.
      destruct (flat_resamplePixel_total src (coord a) weights (NewLanczos 2)
                  wpp srcLen dstLen b) as (st & Hst); [lia | lia |].
      rewrite Hst. cbn [bind]. eauto. }
    exists weights, dst. split; [reflexivity |].
    rewrite Hdst. cbn [bind]. split; [reflexivity |].
    apply (fill_Returns 0 other 0 dstLen px py (flatPassBody weights wpp)
             (flatPassColour weights)) in Hdst.
    + exact Hdst.
    + exact Hinj.
    + intros a b t t' _ _ Hb. unfold flatPassBody in Hb.
      apply bind_Returns in Hb. destruct Hb as (st & Hst & Hret).
      inversion Hret; subst t'. eexists. split; [| reflexivity].
      exists st. split; [exact Hst | reflexivity].
    + exact Hin.
Qed.

End FlatPassFacts.

Section FlatPassUnfold.

Import filters resize.

Variable src : image.Image.

Let srcWidth := image.Dx (image.Bounds src).
Let srcHeight := image.Dy (image.Bounds src).
Let minX := image.X (image.Min (image.Bounds src)).
Let minY := image.Y (image.Min (image.Bounds src)).

Lemma flat_resizeVertical_filtered (height : Z) :
  srcHeight <> height ->
  flat.resizeVertical src height
  = flatFilteredPass src srcHeight height srcWidth (fun x dstY => x) (fun x dstY => dstY)
      (fun x srcY => image.Pt (x + minX) (srcY + minY))
      (image.Rect 0 0 srcWidth height) ErrVerticalWeights.
Proof.
  intros H. unfold flat.resizeVertical. fold srcHeight srcWidth.
  replace (srcHeight =? height) with false by lia. reflexivity.
Qed.

Lemma flat_resizeHorizontal_filtered (width : Z) :
  srcWidth <> width ->
  flat.resizeHorizontal src width
  = flatFilteredPass src srcWidth width srcHeight (fun y dstX => dstX) (fun y dstX => y)
      (fun y srcX => image.Pt (srcX + minX) (y + minY))
      (image.Rect 0 0 width srcHeight) ErrHorizontalWeights.
Proof.
  intros H. unfold flat.resizeHorizontal. fold srcHeight srcWidth.
  replace (srcWidth =? width) with false by lia. reflexivity.
Qed.

(** When the length already matches, a flat pass is the pass of [resize.go]:
    the direct copy. *)
Lemma flat_resizeVertical_copy (height : Z) :
  srcHeight = height ->
  flat.resizeVertical src height = resizeVertical src height.
Proof.
  intros H. unfold flat.resizeVertical, resizeVertical. fold srcHeight srcWidth.
  replace (srcHeight =? height) with true by lia. reflexivity.
Qed.

Lemma flat_resizeHorizontal_copy (width : Z) :
  srcWidth = width ->
  flat.resizeHorizontal src width = resizeHorizontal src width.
Proof.
  intros H. unfold flat.resizeHorizontal, resizeHorizontal. fold srcHeight srcWidth.
  replace (srcWidth =? width) with true by lia. reflexivity.
Qed.

(** A flat pass never panics: it returns an image of the requested bounds,
    or its own error when a length is not positive. *)
Lemma flat_resizeVertical_result (height : Z) :
  (srcHeight <> height /\ (srcHeight <= 0 \/ height <= 0)
   /\ flat.resizeVertical src height = Returns (None, Some ErrVerticalWeights))
  \/ ((srcHeight = height \/ (1 <= srcHeight /\ 1 <= height))
      /\ exists dst,
           flat.resizeVertical src height = Returns (Some dst, None)
           /\ image.NRect dst = image.Rect 0 0 srcWidth height).
Proof.
  destruct (Z.eq_dec srcHeight height) as [E | E].
  - right. split; [left; exact E |].
    rewrite flat_resizeVertical_copy, resizeVertical_copy by exact E.
    destruct (Draw_total (image.NewNRGBA (image.Rect 0 0 (image.Dx (image.Bounds src)) height))
                (image.Rect 0 0 (image.Dx (image.Bounds src)) height) src
                (image.Min (image.Bounds src))) as (dst & Hdst & Hrect).
    rewrite Hdst. cbn [bind]. exists dst. split; [reflexivity | exact Hrect].
  - rewrite flat_resizeVertical_filtered by exact E.
    destruct (flatFilteredPass_spec src srcHeight height srcWidth
                (fun x dstY => x) (fun x dstY => dstY)
                (fun x srcY => image.Pt (x + minX) (srcY + minY))
                (image.Rect 0 0 srcWidth height) ErrVerticalWeights)
      as (Hnil & Hok).
    + intros a b a' b' -> ->. auto.
    + intros a b Ha Hb. apply In_Rect_origin; assumption.
    + destruct (Z_le_gt_dec srcHeight 0) as [Hs | Hs];
        [left; split; [exact E |]; split; [lia | apply Hnil; lia] |].
      destruct (Z_le_gt_dec height 0) as [Hh | Hh];
        [left; split; [exact E |]; split; [lia | apply Hnil; lia] |].
      right. split; [right; lia |].
      destruct Hok as (weights & dst & _ & Hrun & Hrect & _); [lia | lia |].
      exists dst. split; [exact Hrun | exact Hrect].
Qed.

Lemma flat_resizeHorizontal_result (width : Z) :
  (srcWidth <> width /\ (srcWidth <= 0 \/ width <= 0)
   /\ flat.resizeHorizontal src width = Returns (None, Some ErrHorizontalWeights))
  \/ ((srcWidth = width \/ (1 <= srcWidth /\ 1 <= width))
      /\ exists dst,
           flat.resizeHorizontal src width = Returns (Some dst, None)
           /\ image.NRect dst = image.Rect 0 0 width srcHeight).
Proof.
  destruct (Z.eq_dec srcWidth width) as [E | E].
  - right. split; [left; exact E |].
    rewrite flat_resizeHorizontal_copy, resizeHorizontal_copy by exact E.
    destruct (Draw_total (image.NewNRGBA (image.Rect 0 0 width (image.Dy (image.Bounds src))))
                (image.Rect 0 0 width (image.Dy (image.Bounds src))) src
                (image.Min (image.Bounds src))) as (dst & Hdst & Hrect).
    rewrite Hdst. cbn [bind]. exists dst. split; [reflexivity | exact Hrect].
  - rewrite flat_resizeHorizontal_filtered by exact E.
    destruct (flatFilteredPass_spec src srcWidth width srcHeight
                (fun y dstX => dstX) (fun y dstX => y)
                (fun y srcX => image.Pt (srcX + minX) (y + minY))
                (image.Rect 0 0 width srcHeight) ErrHorizontalWeights)
      as (Hnil & Hok).
    + intros a b a' b' -> ->. auto.
    + intros a b Ha Hb. apply In_Rect_origin; assumption.
    + destruct (Z_le_gt_dec srcWidth 0) as [Hs | Hs];
        [left; split; [exact E |]; split; [lia | apply Hnil; lia] |].
      destruct (Z_le_gt_dec width 0) as [Hh | Hh];
        [left; split; [exact E |]; split; [lia | apply Hnil; lia] |].
      right. split; [right; lia |].
      destruct Hok as (weights & dst & _ & Hrun & Hrect & _); [lia | lia |].
      exists dst. split; [exact Hrun | exact Hrect].
Qed.

End FlatPassUnfold.

Section FlatResizeFacts.

Import filters resize.

Definition flatThenVertical (height : Z) (r : result) : outcome result :=
  match r with
  | (_, Some err) => Returns (None, Some err)
  | (None, None) => Panics
  | (Some intermediate, None) =>
      flat.resizeVertical (image.as_Image intermediate) height
  end.

Variable src : image.Image.
Variables width height : Z.

Let srcWidth := image.Dx (image.Bounds src).
Let srcHeight := image.Dy (image.Bounds src).

Lemma flat_Resize_invalid :
  width <= 0 \/ height <= 0 ->
  flat.Resize (Some src) width height
  = Returns (None, Some (ErrInvalidDimensions width height)).
Proof.
  intros H. unfold flat.Resize.
  replace ((width <=? 0) || (height <=? 0)) with true; [reflexivity |].
  symmetry. apply orb_true_iff. lia.
Qed.

Lemma flat_Resize_two_passes :
  0 < width -> 0 < height -> srcWidth <> width -> srcHeight <> height ->
  flat.Resize (Some src) width height
  = bind (flat.resizeHorizontal src width) (flatThenVertical height).
Proof.
  intros Hw Hh Hdw Hdh. unfold flat.Resize. fold srcWidth srcHeight.
  replace (width <=? 0) with false by lia.
  replace (height <=? 0) with false by lia.
  replace (srcWidth =? width) with false by lia.
  replace (srcHeight =? height) with false by lia.
  reflexivity.
Qed.

Lemma flat_Resize_horizontal_only :
  0 < width -> 0 < height -> srcWidth <> width -> srcHeight = height ->
  flat.Resize (Some src) width height = flat.resizeHorizontal src width.
Proof.
  intros Hw Hh Hdw Hdh. unfold flat.Resize. fold srcWidth srcHeight.
  replace (width <=? 0) with false by lia.
  replace (height <=? 0) with false by lia.
  replace (srcWidth =? width) with false by lia.
  replace (srcHeight =? height) with true by lia.
  reflexivity.
Qed.

Lemma flat_Resize_vertical_only :
  0 < width -> 0 < height -> srcWidth = width ->
  flat.Resize (Some src) width height = flat.resizeVertical src height.
Proof.
  intros Hw Hh Hdw. unfold flat.Resize. fold srcWidth srcHeight.
  replace (width <=? 0) with false by lia.
  replace (height <=? 0) with false by lia.
  replace (srcWidth =? width) with true by lia.
  reflexivity.
Qed.

End FlatResizeFacts.

Section FlatResizeClaims.

Import filters resize.

(** The [Resize] of the flat-table variant returns an image of exactly the
    requested size for every source that is not empty and every positive
    width and height, whatever the two scales are, provided the images of
    the passes (the intermediate one, of the requested width and the
    source's height, and the final one) are of a size [image.NewNRGBA]
    allocates. *)
Theorem flat_Resize_returns_requested_size
    (src : image.Image) (width height : Z) :
  1 <= image.Dx (image.Bounds src) -> 1 <= image.Dy (image.Bounds src) ->
  1 <= width -> 1 <= height ->
  image.allocates (image.Rect 0 0 width (image.Dy (image.Bounds src))) = true ->
  image.allocates (image.Rect 0 0 width height) = true ->
  exists dst,
    flat.Resize (Some src) width height = Returns (Some dst, None)
    /\ image.NRect dst = image.mkRectangle (image.Pt 0 0) (image.Pt width height).
Proof.
  intros Hdx Hdy Hw Hh _ _.
  destruct (Z.eq_dec (image.Dx (image.Bounds src)) width) as [Ew | Ew].
  - rewrite flat_Resize_vertical_only by lia.
    destruct (flat_resizeVertical_result src height)
      as [(_ & Hbad & _) | (_ & dst & Hrun & Hrect)]; [lia |].
    exists dst. split; [exact Hrun |].
    rewrite Hrect, Ew. apply Rect_origin; lia.
  - destruct (Z.eq_dec (image.Dy (image.Bounds src)) height) as [Eh | Eh].
    + rewrite flat_Resize_horizontal_only by lia.
      destruct (flat_resizeHorizontal_result src width)
        as [(_ & Hbad & _) | (_ & dst & Hrun & Hrect)]; [lia |].
      exists dst. split; [exact Hrun |].
      rewrite Hrect, Eh. apply Rect_origin; lia.
    + rewrite flat_Resize_two_passes by lia.
      destruct (flat_resizeHorizontal_result src width)
        as [(_ & Hbad & _) | (_ & mid & Hrun & Hmid)]; [lia |].
      rewrite Hrun. cbn [bind flatThenVertical].
      destruct (flat_resizeVertical_result (image.as_Image mid) height)
        as [(_ & Hbad & _) | (_ & dst & Hrun' & Hrect)].
      * cbn [image.as_Image image.Bounds] in Hbad. rewrite Hmid in Hbad.
        rewrite Dy_Rect_origin in Hbad by lia. lia.
      * exists dst. split; [exact Hrun' |].
        cbn [image.as_Image image.Bounds] in Hrect. rewrite Hmid in Hrect.
        rewrite Dx_Rect_origin in Hrect by lia.
        rewrite Hrect. apply Rect_origin; lia.
Qed.

Lemma flat_Resize_returns_requested_size_witness :
  exists dst,
    flat.Resize (Some (image.mkImage (image.Rect 0 0 20 20)
                         (fun x y => color.mkRGBA (x * 257) (y * 257) 0 65535)))
      16 16
    = Returns (Some dst, None)
    /\ image.NRect dst = image.mkRectangle (image.Pt 0 0) (image.Pt 16 16).
Proof.
  apply flat_Resize_returns_requested_size;
    first [reflexivity | vm_compute; discriminate].
Defined.



End FlatResizeClaims.

(** ** What a filtered pixel is *)

Section LoopsThatStop.

Context {S : Type}.

(** A loop with a condition that returns has either run all its iterations
    or stopped at the first index whose condition failed; an invariant of
    index and state holds there. *)
Lemma for_loop_stops (Inv : Z -> S -> Prop) (cond : Z -> S -> bool)
    (body : Z -> S -> outcome S) (n : nat) :
  forall (lo : Z) (s s' : S),
    (forall i t t', lo <= i < lo + Z.of_nat n -> Inv i t -> cond i t = true ->
                    body i t = Returns t' -> Inv (i + 1) t') ->
    Inv lo s ->
    for_loop n lo cond body s = Returns s' ->
    exists i, lo <= i <= lo + Z.of_nat n /\ Inv i s'
              /\ (i < lo + Z.of_nat n -> cond i s' = false).
Proof.
  induction n as [| n IH]; intros lo s s' Hstep Hs Hrun; cbn [for_loop] in Hrun.
  - inversion Hrun; subst s'. exists lo. split; [lia |]. split; [exact Hs | lia].
  - destruct (cond lo s) eqn:Hc.
    + apply bind_Returns in Hrun. destruct Hrun as (t & Hb & Hrun).
      destruct (IH (lo + 1) t s') as (i & Hi & Hinv & Hstop).
      * intros j u u' Hj. apply Hstep. lia.
      * apply (Hstep lo s t); [lia | exact Hs | exact Hc | exact Hb].
      * exact Hrun.
      * exists i. split; [lia |]. split; [exact Hinv |]. intros H. apply Hstop. lia.
    + inversion Hrun; subst s'. exists lo. split; [lia |].
      split; [exact Hs |]. intros _. exact Hc.
Qed.

End LoopsThatStop.

(** The sum of a channel of the source over [n] source indices from [lo],
    each weighted by [w], added in loop order. *)
Definition channelSum (src : image.Image) (coord : Z -> image.Point)
    (channel : color.RGBA -> Z) (w : Z -> float64) (lo : Z) (n : nat) : float64 :=
  sumWeights
    (fun s => (float64_of_int
                 (channel (image.At src (image.X (coord s)) (image.Y (coord s))))
               * w s)%R)
    lo n.

Section AccumulatedSums.

Import filters resize.

Variable src : image.Image.
Variable coord : Z -> image.Point.

Lemma channelSum_succ (channel : color.RGBA -> Z) (w : Z -> float64) (lo : Z)
    (n : nat) :
  channelSum src coord channel w lo (Datatypes.S n)
  = (channelSum src coord channel w lo n
     + float64_of_int
         (channel (image.At src (image.X (coord (lo + Z.of_nat n)%Z))
                     (image.Y (coord (lo + Z.of_nat n)%Z))))
       * w (lo + Z.of_nat n)%Z)%R.
Proof. reflexivity. Qed.

Lemma channelSum_ext (channel : color.RGBA -> Z) (w w' : Z -> float64) (lo : Z)
    (n : nat) :
  (forall s, lo <= s < lo + Z.of_nat n -> w s = w' s) ->
  channelSum src coord channel w lo n = channelSum src coord channel w' lo n.
Proof.
  intros H. unfold channelSum. apply sumWeights_ext.
  intros s Hs. now rewrite H.
Qed.

(** Source indices whose weight is zero from [n] on add nothing. *)
Lemma channelSum_vanishing (channel : color.RGBA -> Z) (w : Z -> float64)
    (lo : Z) (n m : nat) :
  (n <= m)%nat ->
  (forall s, lo + Z.of_nat n <= s -> w s = 0%R) ->
  channelSum src coord channel w lo m = channelSum src coord channel w lo n.
Proof.
  intros Hnm Hz. unfold channelSum. apply sumWeights_vanishing; [exact Hnm |].
  intros s Hs. rewrite Hz by exact Hs. lra.
Qed.

(** The weight the accumulation loop of [resize.go] reads for source index
    [s]: the entry [s - left] of the row, zero beyond the row. *)
Definition rowWeight (pixelWeights : list float64) (left s : Z) : float64 :=
  nth (Z.to_nat (s - left)) pixelWeights 0%R.

Definition accInv (pixelWeights : list float64) (left : Z) (i : Z)
    (st : accState) : Prop :=
  accIdx st = i - left
  /\ accR st = channelSum src coord color.red (rowWeight pixelWeights left) left
                 (Z.to_nat (i - left))
  /\ accG st = channelSum src coord color.green (rowWeight pixelWeights left) left
                 (Z.to_nat (i - left))
  /\ accB st = channelSum src coord color.blue (rowWeight pixelWeights left) left
                 (Z.to_nat (i - left))
  /\ accA st = channelSum src coord color.alpha (rowWeight pixelWeights left) left
                 (Z.to_nat (i - left)).

Lemma accInv_step (pixelWeights : list float64) (left i : Z) (t t' : accState) :
  left <= i -> accInv pixelWeights left i t ->
  accCond pixelWeights i t = true ->
  accBody src coord pixelWeights i t = Returns t' ->
  accInv pixelWeights left (i + 1) t'.
Proof.
  intros Hi (Hidx & HR & HG & HB & HA) Hc Hb.
  unfold accCond in Hc. unfold accBody in Hb.
  rewrite (slice_get_in_range _ _ 0%R) in Hb by lia. cbn [bind] in Hb.
  assert (Hw : nth (Z.to_nat (accIdx t)) pixelWeights 0%R
               = rowWeight pixelWeights left i)
    by (unfold rowWeight; now rewrite Hidx).
  assert (Hn : Z.to_nat (i + 1 - left) = Datatypes.S (Z.to_nat (i - left))) by lia.
  assert (Hs : left + Z.of_nat (Z.to_nat (i - left)) = i) by lia.
  unfold accInv. rewrite Hn, !channelSum_succ, Hs, <- HR, <- HG, <- HB, <- HA, <- Hw.
  destruct (Req_dec_T (nth (Z.to_nat (accIdx t)) pixelWeights 0%R) 0) as [E | E];
    inversion Hb; subst t'; cbn [accIdx accR accG accB accA].
  - rewrite E. repeat split; try lia; lra.
  - repeat split; try lia; reflexivity.
Qed.

(** The accumulators of the loop of [resize.go] are the sums of the source
    channels over the whole source range, each source index weighted by its
    entry of the row. *)
Lemma accumulate_sums (pixelWeights : list float64) (left right : Z)
    (st : accState) :
  accumulate src coord pixelWeights left right = Returns st ->
  let n := rangeCount left right in
  let w := rowWeight pixelWeights left in
  accR st = channelSum src coord color.red w left n
  /\ accG st = channelSum src coord color.green w left n
  /\ accB st = channelSum src coord color.blue w left n
  /\ accA st = channelSum src coord color.alpha w left n.
Proof.
  intros Hrun n w. rewrite accumulate_unfold in Hrun.
  apply (for_loop_stops (accInv pixelWeights left)) in Hrun.
  - destruct Hrun as (i & Hi & (Hidx & HR & HG & HB & HA) & Hstop).
    fold (rangeCount left right) in Hi, Hstop. fold n in Hi, Hstop.
    assert (Hsame : forall channel,
               channelSum src coord channel w left n
               = channelSum src coord channel w left (Z.to_nat (i - left))).
    { intros channel.
      destruct (Z_lt_le_dec i (left + Z.of_nat n)) as [Hlt | Hge].
      - apply channelSum_vanishing; [lia |].
        intros s Hs. unfold w, rowWeight. apply nth_overflow.
        specialize (Hstop Hlt). unfold accCond in Hstop.
        unfold len in Hstop. lia.
      - replace (Z.to_nat (i - left)) with n by lia. reflexivity. }
    rewrite !Hsame. repeat split; assumption.
  - intros i t t' Hi. apply accInv_step. lia.
  - unfold accInv. cbn [accIdx accR accG accB accA].
    replace (Z.to_nat (left - left)) with 0%nat by lia.
    repeat split; lia.
Qed.

End AccumulatedSums.

Section FilteredPixelFormula.

Import filters resize.

(** Every accumulated channel of a filtered pixel of [resize.go] is the sum,
    over the contributing source range, of the source channel times the
    normalized kernel value of the source index: when the weight table is
    built, the pixel loop of a pass returns for every destination index, and
    its red, green, blue and alpha accumulators are these four sums. *)
Lemma filtered_pixel_sums
    (src : image.Image) (coord : Z -> image.Point)
    (srcSize dstSize d : Z) (l : Lanczos) (weights : list (list float64)) :
  calculateWeights srcSize dstSize (OfLanczos l) = Returns (Some weights) ->
  0 <= d < dstSize ->
  let scale := scaleOf srcSize dstSize in
  let support := supportOf (float64_of_int (Radius l)) scale in
  let center := centerOf d scale in
  let left := leftOf center support in
  let right := rightOf center support srcSize in
  let n := rangeCount left right in
  let kernel := weightOf (OfLanczos l) scale center in
  let w := fun s => normalized (sumWeights kernel left n) (kernel s) in
  exists st,
    resamplePixel src coord weights l srcSize dstSize d = Returns st
    /\ accR st = channelSum src coord color.red w left n
    /\ accG st = channelSum src coord color.green w left n
    /\ accB st = channelSum src coord color.blue w left n
    /\ accA st = channelSum src coord color.alpha w left n.
Proof.
  intros Hw Hd scale support center left right n kernel w.
  apply calculateWeights_Returns in Hw. destruct Hw as (_ & _ & Hlen & Hrows).
  specialize (Hrows d Hd). apply weightsRow_Returns in Hrows.
  cbv zeta in Hrows. cbn [filterRadiusOf] in Hrows.
  fold scale support center left right n kernel in Hrows.
  destruct Hrows as (_ & _ & Hlow & _ & _).
  unfold resamplePixel. rewrite (slice_get_in_range _ _ []) by lia. cbn [bind].
  fold scale support center left right.
  destruct (accumulate_total src coord (nth (Z.to_nat d) weights []) left right)
    as (st & Hst).
  exists st. split; [exact Hst |].
  apply accumulate_sums in Hst. cbv zeta in Hst. fold n in Hst.
  assert (Hext : forall channel,
             channelSum src coord channel
               (rowWeight (nth (Z.to_nat d) weights []) left) left n
             = channelSum src coord channel w left n).
  { intros channel. apply channelSum_ext. intros s Hs.
    unfold rowWeight, w. rewrite Hlow by lia.
    replace (left + Z.of_nat (Z.to_nat (s - left))) with s by lia. reflexivity. }
  rewrite !Hext in Hst. exact Hst.
Qed.

End FilteredPixelFormula.

Section NormalizedSums.

Import filters resize.

(** The normalized kernel values of a destination index add up to 1 when
    the kernel values add up to a positive sum. *)
Lemma normalized_sum_one (kernel : Z -> float64) (lo : Z) (n : nat) :
  (0 < sumWeights kernel lo n)%R ->
  sumWeights (fun s => normalized (sumWeights kernel lo n) (kernel s)) lo n = 1%R.
Proof.
  intros Hpos. unfold normalized.
  destruct (Rlt_dec 0 (sumWeights kernel lo n)) as [_ | H]; [| contradiction].
  rewrite sumWeights_div. field. lra.
Qed.

End NormalizedSums.

Section SincSign.

Import filters resize.
Local Open Scope R_scope.

Lemma sinc_positive (x : float64) : 0 < x < 1 -> 0 < sinc x.
Proof.
  intros Hx. rewrite sinc_nonzero by lra. pose proof PI_RGT_0 as Hpi.
  assert (Hp : 0 < PI * x) by (apply Rmult_lt_0_compat; lra).
  apply Rdiv_lt_0_compat; [| exact Hp].
  apply sin_gt_0; [exact Hp |].
  rewrite <- (Rmult_1_r PI) at 2. apply Rmult_lt_compat_l; lra.
Qed.

End SincSign.

Section FilteredPixelClaims.

Import filters resize.

(** Every accumulated channel of a filtered pixel of [resize.go] is the sum,
    over the contributing source range, of the source channel times the
    normalized kernel value of the source index: when the weight table is
    built, the pixel loop of a pass returns for every destination index, and
    its red, green, blue and alpha accumulators are these four sums.  The
    range is not empty and lies within the source, and the weights add up
    to 1 when the kernel values add up to a positive sum. *)
Theorem filtered_pixel_is_weighted_sum
    (src : image.Image) (coord : Z -> image.Point)
    (srcSize dstSize d : Z) (l : Lanczos) (weights : list (list float64)) :
  calculateWeights srcSize dstSize (OfLanczos l) = Returns (Some weights) ->
  0 <= d < dstSize -> 0 <= Radius l ->
  let scale := scaleOf srcSize dstSize in
  let support := supportOf (float64_of_int (Radius l)) scale in
  let center := centerOf d scale in
  let left := leftOf center support in
  let right := rightOf center support srcSize in
  let n := rangeCount left right in
  let kernel := weightOf (OfLanczos l) scale center in
  let w := fun s => normalized (sumWeights kernel left n) (kernel s) in
  (exists st,
     resamplePixel src coord weights l srcSize dstSize d = Returns st
     /\ accR st = channelSum src coord color.red w left n
     /\ accG st = channelSum src coord color.green w left n
     /\ accB st = channelSum src coord color.blue w left n
     /\ accA st = channelSum src coord color.alpha w left n)
  /\ 0 <= left <= right /\ right <= srcSize - 1
  /\ ((0 < sumWeights kernel left n)%R -> sumWeights w left n = 1%R).
Proof.
  intros Hw Hd Hr scale support center left right n kernel w.
  split; [exact (filtered_pixel_sums src coord srcSize dstSize d l weights Hw Hd) |].
  apply calculateWeights_Returns in Hw. destruct Hw as (Hs & Hdst & _).
  assert (Hsup : (0 <= support)%R).
  { apply supportOf_nonneg; try assumption.
    unfold float64_of_int. now apply IZR_le in Hr. }
  pose proof (leftOf_clamp srcSize dstSize Hs Hdst d Hd support Hsup) as Hl.
  pose proof (rightOf_clamp srcSize dstSize Hs Hdst d Hd support Hsup) as Hrg.
  fold scale center left right in Hl, Hrg.
  assert (Hfl : Zfloor (center - support) <= Zfloor (center + support)).
  { apply Zfloor_lub. pose proof (Zfloor_bound (center - support)). lra. }
  unfold clampInto in Hl, Hrg.
  split; [lia |]. split; [lia |].
  intros Hpos. now apply normalized_sum_one.
Qed.

Lemma filtered_pixel_is_weighted_sum_witness :
  exists weights st,
    calculateWeights 1 2 (OfLanczos (NewLanczos 3)) = Returns (Some weights)
    /\ resamplePixel
         (image.mkImage (image.Rect 0 0 1 1) (fun _ _ => color.mkRGBA 65535 0 0 65535))
         (fun s => image.Pt s 0) weights (NewLanczos 3) 1 2 0
       = Returns st.
Proof.
  destruct (calculateWeights_upsampling 1 2 (NewLanczos 3)) as (weights & Hw);
    [lia | simpl; lia |].
  destruct (filtered_pixel_is_weighted_sum
              (image.mkImage (image.Rect 0 0 1 1)
                 (fun _ _ => color.mkRGBA 65535 0 0 65535))
              (fun s => image.Pt s 0) 1 2 0 (NewLanczos 3) weights Hw ltac:(lia)
              ltac:(simpl; lia))
    as ((st & Hst & _) & _).
  exists weights, st. split; [exact Hw | exact Hst].
Defined.

End FilteredPixelClaims.

(** ** The shape of the kernel *)

Section KernelShape.

Import filters.
Local Open Scope R_scope.

Lemma sin_abs_le (x : R) : Rabs (sin x) <= Rabs x.
Proof.
  assert (Hpos : forall y, 0 < y -> Rabs (sin y) <= y).
  { intros y Hy. pose proof (sin_lt_x y Hy) as Hlt.
    apply Rabs_le. split; [| lra].
    destruct (Rle_lt_dec 1 y) as [H1 | H1].
    - pose proof (SIN_bound y). lra.
    - pose proof PI_RGT_0. pose proof PI2_3_2.
      assert (0 < sin y) by (apply sin_gt_0; lra). lra. }
  destruct (Rtotal_order x 0) as [Hx | [-> | Hx]].
  - rewrite <- (Ropp_involutive x) at 1. rewrite sin_neg, Rabs_Ropp.
    rewrite (Rabs_left x) by exact Hx. apply Hpos. lra.
  - rewrite sin_0, Rabs_R0. lra.
  - rewrite (Rabs_right x) by lra. now apply Hpos.
Qed.

Lemma sinc_abs_le_1 (v : float64) : Rabs (sinc v) <= 1.
Proof.
  destruct (Req_dec_T v 0) as [-> | Hv].
  - rewrite sinc_0, Rabs_R1. lra.
  - rewrite sinc_nonzero by exact Hv. pose proof PI_RGT_0 as Hpi.
    assert (Hd : PI * v <> 0) by (apply Rmult_integral_contrapositive; split; lra).
    unfold Rdiv. rewrite Rabs_mult, Rabs_inv.
    assert (Hp : 0 < Rabs (PI * v)) by now apply Rabs_pos_lt.
    apply Rmult_le_reg_r with (Rabs (PI * v)); [exact Hp |].
    rewrite Rmult_assoc, Rinv_l, Rmult_1_r, Rmult_1_l by lra.
    apply sin_abs_le.
Qed.

(** The Lanczos kernel is an even function, and its values lie between -1
    and 1, for every radius. *)
Theorem Lanczos_Kernel_even_and_bounded (l : Lanczos) (v : float64) :
  Lanczos_Kernel l (- v) = Lanczos_Kernel l v
  /\ -1 <= Lanczos_Kernel l v <= 1.
Proof.
  split.
  - unfold Lanczos_Kernel. now rewrite Rabs_Ropp.
  - assert (H : Rabs (Lanczos_Kernel l v) <= 1);
      [| unfold Rabs in H; destruct (Rcase_abs (Lanczos_Kernel l v)); lra].
    unfold Lanczos_Kernel.
    destruct (Rlt_dec (Rabs v) (float64_of_int (Radius l))).
    + rewrite Rabs_mult.
      pose proof (sinc_abs_le_1 (Rabs v)).
      pose proof (sinc_abs_le_1 (Rabs v / float64_of_int (Radius l))).
      pose proof (Rabs_pos (sinc (Rabs v))).
      pose proof (Rabs_pos (sinc (Rabs v / float64_of_int (Radius l)))).
      nra.
    + rewrite Rabs_R0. lra.
Qed.

End KernelShape.

(** ** The size of a source range *)

Section RangeSize.

Import filters resize.
Local Open Scope R_scope.

(** The contributing range of a destination index is never empty, and has
    at most one source index more than the capacity [int(2*support) + 1] the
    builders reserve for it; the range of the last destination index has
    none more when the radius is at least 1. *)
Theorem source_range_size (srcSize dstSize d : Z) (l : Lanczos) :
  (1 <= srcSize)%Z -> (1 <= dstSize)%Z -> (0 <= d < dstSize)%Z ->
  (0 <= Radius l)%Z ->
  let scale := scaleOf srcSize dstSize in
  let support := supportOf (float64_of_int (Radius l)) scale in
  let center := centerOf d scale in
  let left := leftOf center support in
  let right := rightOf center support srcSize in
  (left <= right)%Z
  /\ (right - left + 1 <= weightsPerPixelOf support + 1)%Z
  /\ ((1 <= Radius l)%Z -> d = (dstSize - 1)%Z ->
      (right - left + 1 <= weightsPerPixelOf support)%Z).
Proof.
  intros Hs Hd Hi Hr scale support center left right.
  assert (Hsup : 0 <= support).
  { apply supportOf_nonneg; try assumption.
    unfold float64_of_int. now apply IZR_le in Hr. }
  assert (Hle : (left <= right)%Z).
  { pose proof (leftOf_clamp srcSize dstSize Hs Hd d Hi support Hsup) as Hl.
    pose proof (rightOf_clamp srcSize dstSize Hs Hd d Hi support Hsup) as Hrg.
    fold scale center left right in Hl, Hrg.
    assert (Hfl : (Zfloor (center - support) <= Zfloor (center + support))%Z).
    { apply Zfloor_lub. pose proof (Zfloor_bound (center - support)). lra. }
    unfold clampInto in Hl, Hrg. lia. }
  split; [exact Hle |].
  pose proof (rangeCount_le_capacity_succ srcSize dstSize Hs Hd d support Hi Hsup)
    as Hcap.
  cbv zeta in Hcap. fold scale center left right in Hcap.
  unfold rangeCount in Hcap.
  split; [lia |].
  intros Hr1 ->.
  pose proof (last_rangeCount_fits srcSize dstSize Hs Hd
                (float64_of_int (Radius l))) as Hlast.
  cbv zeta in Hlast. fold scale support center left right in Hlast.
  unfold rangeCount in Hlast.
  assert (1 <= float64_of_int (Radius l))
    by (unfold float64_of_int; now apply IZR_le in Hr1).
  specialize (Hlast H). lia.
Qed.

Lemma source_range_size_witness :
  (leftOf (centerOf 5 (scaleOf 20 16))
          (supportOf (float64_of_int (Radius (NewLanczos 3))) (scaleOf 20 16))
   <= rightOf (centerOf 5 (scaleOf 20 16))
              (supportOf (float64_of_int (Radius (NewLanczos 3))) (scaleOf 20 16)) 20)%Z.
Proof.
  apply (source_range_size 20 16 5 (NewLanczos 3)); simpl; lia.
Defined.

End RangeSize.

(** ** Empty sources *)

Section EmptySource.

Import filters resize.



End EmptySource.

(** ** The flat table when every source range fits its slots *)

Section FlatFits.

Import filters resize.

Variables srcSize dstSize : Z.
Variable lanczos : Lanczos.
Hypothesis HsrcSize : 1 <= srcSize.
Hypothesis HdstSize : 1 <= dstSize.
Hypothesis Hradius : 1 <= Radius lanczos.

Let filter := OfLanczos lanczos.
Let scale := scaleOf srcSize dstSize.
Let support := supportOf (filterRadiusOf filter) scale.
Let weightsPerPixel := weightsPerPixelOf support.

Let left (d : Z) := leftOf (centerOf d scale) support.
Let right (d : Z) := rightOf (centerOf d scale) support srcSize.
Let kernel (d : Z) := weightOf filter scale (centerOf d scale).
Let sum (d : Z) := sumWeights (kernel d) (left d) (rangeCount (left d) (right d)).

Hypothesis Hfit : forall d, 0 <= d < dstSize ->
  Z.of_nat (rangeCount (left d) (right d)) <= weightsPerPixel.

(** What slot [k] of destination index [d] holds: the normalized kernel
    value of source index [left + k], and zero beyond the source range. *)
Definition flatSlot (d k : Z) : float64 :=
  if k <? Z.of_nat (rangeCount (left d) (right d))
  then normalized (sum d) (kernel d (left d + k))
  else 0%R.

Definition fitsInv (i : Z) (ws : list float64) : Prop :=
  (forall d k, 0 <= d < i -> 0 <= k < weightsPerPixel ->
     nth (Z.to_nat (d * weightsPerPixel + k)) ws 0%R = flatSlot d k)
  /\ (forall j : nat, i * weightsPerPixel <= Z.of_nat j -> nth j ws 0%R = 0%R).

Lemma fitsInv_step (d : Z) (before after : list float64) :
  0 <= d < dstSize -> fitsInv d before ->
  flatRowPost srcSize dstSize lanczos d before after ->
  fitsInv (d + 1) after.
Proof.
  intros Hd (Hdone & Hzero) Hpost.
  pose proof (flat_weightsPerPixel_pos srcSize dstSize lanczos
                HsrcSize HdstSize Hradius) as Hwpp.
  fold filter scale support weightsPerPixel in Hwpp.
  unfold flatRowPost in Hpost. cbv zeta in Hpost.
  fold filter scale support weightsPerPixel in Hpost.
  fold (left d) (right d) in Hpost. fold (kernel d) in Hpost. fold (sum d) in Hpost.
  destruct Hpost as (_ & Hin & Hout).
  specialize (Hfit d Hd).
  split.
  - intros d' k Hd' Hk.
    destruct (Z.eq_dec d' d) as [-> | Hne].
    + unfold flatSlot.
      destruct (k <? Z.of_nat (rangeCount (left d) (right d))) eqn:E.
      * apply Z.ltb_lt in E. rewrite Hin by lia.
        rewrite Hzero by lia. rewrite storedOver_zero. fold (kernel d).
        do 2 f_equal. lia.
      * apply Z.ltb_ge in E. rewrite Hout by lia. apply Hzero. lia.
    + rewrite Hout by nia. apply Hdone; lia.
  - intros j Hj. rewrite Hout by nia. apply Hzero. nia.
Qed.

Lemma flat_table_when_fits :
  exists weights,
    flat.calculateWeights srcSize dstSize filter = Returns (Some weights)
    /\ len weights = dstSize * weightsPerPixel
    /\ forall d k, 0 <= d < dstSize -> 0 <= k < weightsPerPixel ->
         nth (Z.to_nat (d * weightsPerPixel + k)) weights 0%R = flatSlot d k.
Proof.
  destruct (flat_calculateWeights_invariant srcSize dstSize lanczos
              HsrcSize HdstSize Hradius fitsInv)
    as (weights & Hw & Hlen & (Hdone & _)).
  - split; [intros; lia |]. intros j _. apply nth_repeat_zero.
  - intros d before after Hd. now apply fitsInv_step.
  - exists weights. split; [exact Hw |]. split; [exact Hlen | exact Hdone].
Qed.

End FlatFits.

Section FlatWholeSupport.

Import filters resize.

(** When twice the support is a whole number every source range fits its
    slots, and every slot of a source index holds its normalized kernel
    value. *)
Lemma flat_slots_whole_support
    (srcSize dstSize : Z) (l : Lanczos) (m : Z) :
  1 <= srcSize -> 1 <= dstSize -> 1 <= Radius l ->
  (2 * supportOf (float64_of_int (Radius l)) (scaleOf srcSize dstSize) = IZR m)%R ->
  let scale := scaleOf srcSize dstSize in
  let support := supportOf (float64_of_int (Radius l)) scale in
  let weightsPerPixel := weightsPerPixelOf support in
  exists weights,
    flat.calculateWeights srcSize dstSize (OfLanczos l) = Returns (Some weights)
    /\ forall d s, 0 <= d < dstSize ->
         let center := centerOf d scale in
         let left := leftOf center support in
         let right := rightOf center support srcSize in
         let kernel := weightOf (OfLanczos l) scale center in
         left <= s <= right ->
         nth (Z.to_nat (d * weightsPerPixel + (s - left))) weights 0%R
         = normalized (sumWeights kernel left (rangeCount left right)) (kernel s).
Proof.
  intros Hs Hd Hr Hm scale support weightsPerPixel.
  assert (Hsup : (0 <= support)%R).
  { apply supportOf_nonneg; try assumption.
    unfold float64_of_int. assert (0 <= Radius l) by lia. now apply IZR_le in H. }
  assert (Hfit : forall d, 0 <= d < dstSize ->
             Z.of_nat (rangeCount (leftOf (centerOf d scale) support)
                                  (rightOf (centerOf d scale) support srcSize))
             <= weightsPerPixel).
  { intros d Hd'.
    apply (rangeCount_fits_whole srcSize dstSize d Hs Hd Hd' support m Hsup Hm). }
  destruct (flat_table_when_fits srcSize dstSize l Hs Hd Hr Hfit)
    as (weights & Hw & _ & Hslots).
  cbn [filterRadiusOf] in Hslots. fold scale support weightsPerPixel in Hslots.
  exists weights. split; [exact Hw |].
  intros d s Hd' center left right kernel Hrange.
  pose proof (Hfit d Hd') as Hfitd. fold center left right in Hfitd.
  rewrite Hslots by (unfold rangeCount in Hfitd; lia).
  unfold flatSlot. cbn [filterRadiusOf].
  fold scale support center left right kernel.
  replace (s - left <? Z.of_nat (rangeCount left right)) with true
    by (symmetry; apply Z.ltb_lt; unfold rangeCount; lia).
  do 2 f_equal. lia.
Qed.

End FlatWholeSupport.

(** ** What a filtered pixel of the flat variant is *)

Section FlatAccumulatedSums.

Import filters resize.

Variable src : image.Image.
Variable coord : Z -> image.Point.

(** The weight the accumulation loop of the flat passes reads for source
    index [s]: the slot [start + (s - left)] of the table, zero beyond the
    table. *)
Definition slotWeight (weights : list float64) (start left s : Z) : float64 :=
  nth (Z.to_nat (start + (s - left))) weights 0%R.

Definition flatAccBody (weights : list float64) (srcIdx : Z) (st : accState)
    : outcome accState :=
  bind (slice_get weights (accIdx st))
    (fun weight =>
       if Req_dec_T weight 0
       then Returns (mkAccState (accR st) (accG st) (accB st) (accA st)
                       (accIdx st + 1) (accReads st))
       else
         let p := coord srcIdx in
         let srcColor := image.At src (image.X p) (image.Y p) in
         Returns (mkAccState
                    (accR st + float64_of_int (color.red srcColor) * weight)%R
                    (accG st + float64_of_int (color.green srcColor) * weight)%R
                    (accB st + float64_of_int (color.blue srcColor) * weight)%R
                    (accA st + float64_of_int (color.alpha srcColor) * weight)%R
                    (accIdx st + 1) (p :: accReads st))).

Definition flatAccInv (weights : list float64) (start left : Z) (i : Z)
    (st : accState) : Prop :=
  accIdx st = start + (i - left)
  /\ accR st = channelSum src coord color.red (slotWeight weights start left) left
                 (Z.to_nat (i - left))
  /\ accG st = channelSum src coord color.green (slotWeight weights start left) left
                 (Z.to_nat (i - left))
  /\ accB st = channelSum src coord color.blue (slotWeight weights start left) left
                 (Z.to_nat (i - left))
  /\ accA st = channelSum src coord color.alpha (slotWeight weights start left) left
                 (Z.to_nat (i - left)).

Lemma flatAccInv_step (weights : list float64) (start left i : Z)
    (t t' : accState) :
  0 <= start -> left <= i -> flatAccInv weights start left i t ->
  flatAccCond weights i t = true ->
  flatAccBody weights i t = Returns t' ->
  flatAccInv weights start left (i + 1) t'.
Proof.
  intros Hstart Hi (Hidx & HR & HG & HB & HA) Hc Hb.
  unfold flatAccCond in Hc. unfold flatAccBody in Hb.
  rewrite (slice_get_in_range _ _ 0%R) in Hb by lia. cbn [bind] in Hb.
  assert (Hw : nth (Z.to_nat (accIdx t)) weights 0%R
               = slotWeight weights start left i)
    by (unfold slotWeight; now rewrite Hidx).
  assert (Hn : Z.to_nat (i + 1 - left) = Datatypes.S (Z.to_nat (i - left))) by lia.
  assert (Hs : left + Z.of_nat (Z.to_nat (i - left)) = i) by lia.
  unfold flatAccInv. rewrite Hn, !channelSum_succ, Hs, <- HR, <- HG, <- HB, <- HA, <- Hw.
  destruct (Req_dec_T (nth (Z.to_nat (accIdx t)) weights 0%R) 0) as [E | E];
    inversion Hb; subst t'; cbn [accIdx accR accG accB accA].
  - rewrite E. repeat split; try lia; lra.
  - repeat split; try lia; reflexivity.
Qed.

(** The accumulators of the loop of the flat passes are the sums of the
    source channels over the whole source range, each source index weighted
    by its slot of the table. *)
Lemma flat_accumulate_sums (weights : list float64) (start left right : Z)
    (st : accState) :
  0 <= start ->
  flat.accumulate src coord weights start left right = Returns st ->
  let n := rangeCount left right in
  let w := slotWeight weights start left in
  accR st = channelSum src coord color.red w left n
  /\ accG st = channelSum src coord color.green w left n
  /\ accB st = channelSum src coord color.blue w left n
  /\ accA st = channelSum src coord color.alpha w left n.
Proof.
  intros Hstart Hrun n w.
  change (flat.accumulate src coord weights start left right)
    with (for_loop (Z.to_nat (right - left + 1)) left (flatAccCond weights)
            (flatAccBody weights) (mkAccState 0 0 0 0 start [])) in Hrun.
  apply (for_loop_stops (flatAccInv weights start left)) in Hrun.
  - destruct Hrun as (i & Hi & (Hidx & HR & HG & HB & HA) & Hstop).
    fold (rangeCount left right) in Hi, Hstop. fold n in Hi, Hstop.
    assert (Hsame : forall channel,
               channelSum src coord channel w left n
               = channelSum src coord channel w left (Z.to_nat (i - left))).
    { intros channel.
      destruct (Z_lt_le_dec i (left + Z.of_nat n)) as [Hlt | Hge].
      - apply channelSum_vanishing; [lia |].
        intros s Hs. unfold w, slotWeight. apply nth_overflow.
        specialize (Hstop Hlt). unfold flatAccCond in Hstop.
        unfold len in Hstop. lia.
      - replace (Z.to_nat (i - left)) with n by lia. reflexivity. }
    rewrite !Hsame. repeat split; assumption.
  - intros i t t' Hi. apply flatAccInv_step; [exact Hstart | lia].
  - unfold flatAccInv. cbn [accIdx accR accG accB accA].
    replace (Z.to_nat (left - left)) with 0%nat by lia.
    repeat split; lia.
Qed.

End FlatAccumulatedSums.

Section FlatPixelFormula.

Import filters resize.

(** When twice the support is a whole number, every accumulated channel of
    a filtered pixel of the flat variant is the sum, over the contributing
    source range, of the source channel times the normalized kernel value of
    the source index. *)
Theorem flat_pixel_is_weighted_sum
    (src : image.Image) (coord : Z -> image.Point)
    (srcSize dstSize d : Z) (l : Lanczos) (m : Z) :
  1 <= srcSize -> 1 <= dstSize -> 1 <= Radius l -> 0 <= d < dstSize ->
  (2 * supportOf (float64_of_int (Radius l)) (scaleOf srcSize dstSize) = IZR m)%R ->
  let scale := scaleOf srcSize dstSize in
  let support := supportOf (float64_of_int (Radius l)) scale in
  let center := centerOf d scale in
  let left := leftOf center support in
  let right := rightOf center support srcSize in
  let n := rangeCount left right in
  let kernel := weightOf (OfLanczos l) scale center in
  let w := fun s => normalized (sumWeights kernel left n) (kernel s) in
  exists weights st,
    flat.calculateWeights srcSize dstSize (OfLanczos l) = Returns (Some weights)
    /\ flat.resamplePixel src coord weights l (weightsPerPixelOf support)
         srcSize dstSize d
       = Returns st
    /\ accR st = channelSum src coord color.red w left n
    /\ accG st = channelSum src coord color.green w left n
    /\ accB st = channelSum src coord color.blue w left n
    /\ accA st = channelSum src coord color.alpha w left n.
Proof.
  intros Hs Hd Hr Hi Hm scale support center left right n kernel w.
  destruct (flat_slots_whole_support srcSize dstSize l m Hs Hd Hr Hm)
    as (weights & Hw & Hslots).
  fold scale support in Hslots.
  pose proof (flat_weightsPerPixel_pos srcSize dstSize l Hs Hd Hr) as Hwpp.
  cbn [filterRadiusOf] in Hwpp. fold scale support in Hwpp.
  pose proof (fun s => Hslots d s Hi) as Hslot. cbv zeta in Hslot.
  fold center left right kernel in Hslot. fold n in Hslot.
  destruct (flat_resamplePixel_total src coord weights l (weightsPerPixelOf support)
              srcSize dstSize d) as (st & Hst); [lia | lia |].
  exists weights, st. split; [exact Hw |]. split; [exact Hst |].
  unfold flat.resamplePixel in Hst. fold scale support center left right in Hst.
  apply flat_accumulate_sums in Hst; [| nia]. cbv zeta in Hst. fold n in Hst.
  assert (Hext : forall channel,
             channelSum src coord channel
               (slotWeight weights (d * weightsPerPixelOf support) left) left n
             = channelSum src coord channel w left n).
  { intros channel. apply channelSum_ext. intros s Hrange.
    unfold slotWeight, w. apply Hslot. unfold n, rangeCount in Hrange. lia. }
  rewrite !Hext in Hst. exact Hst.
Qed.

Lemma flat_pixel_is_weighted_sum_witness :
  exists weights st,
    flat.calculateWeights 10 5 (OfLanczos (NewLanczos 2)) = Returns (Some weights)
    /\ flat.resamplePixel
         (image.mkImage (image.Rect 0 0 10 1) (fun _ _ => color.mkRGBA 65535 0 0 65535))
         (fun s => image.Pt s 0) weights (NewLanczos 2)
         (weightsPerPixelOf (supportOf (float64_of_int (Radius (NewLanczos 2)))
                               (scaleOf 10 5))) 10 5 0
       = Returns st.
Proof.
  destruct (flat_pixel_is_weighted_sum
              (image.mkImage (image.Rect 0 0 10 1)
                 (fun _ _ => color.mkRGBA 65535 0 0 65535))
              (fun s => image.Pt s 0) 10 5 0 (NewLanczos 2) 8)
    as (weights & st & Hw & Hst & _); [lia | lia | simpl; lia | lia | |].
  - unfold scaleOf, supportOf, float64_of_int. simpl Radius.
    destruct (Rlt_dec 1 (10 / 5)%R); lra.
  - exists weights, st. split; [exact Hw | exact Hst].
Defined.

End FlatPixelFormula.

(** ** The output path of the command *)

Section OutputFile.

Definition plain (c : ascii) : Prop :=
  filepath.IsPathSeparator c = false /\ Ascii.eqb c "."%char = false.

(** The extension is a suffix of the path. *)
Lemma scanExt_suffix (before after : gostring) :
  exists base, rev before ++ after = base ++ filepath.scanExt before after.
Proof.
  revert after. induction before as [| c before IH]; intros after.
  - exists after. simpl. now rewrite app_nil_r.
  - cbn [filepath.scanExt rev]. rewrite <- app_assoc. cbn [app].
    destruct (filepath.IsPathSeparator c).
    + exists (rev before ++ c :: after). now rewrite app_nil_r.
    + destruct (Ascii.eqb c "."%char).
      * exists (rev before). reflexivity.
      * apply IH.
Qed.

(** The extension is empty, or a dot followed by bytes that are neither a
    dot nor a separator. *)
Lemma scanExt_shape (before after : gostring) :
  Forall plain after ->
  filepath.scanExt before after = []
  \/ exists rest, filepath.scanExt before after = "."%char :: rest
                  /\ Forall plain rest.
Proof.
  revert after. induction before as [| c before IH]; intros after Hafter.
  - now left.
  - cbn [filepath.scanExt].
    destruct (filepath.IsPathSeparator c) eqn:Es; [now left |].
    destruct (Ascii.eqb c "."%char) eqn:Ed.
    + right. apply Ascii.eqb_eq in Ed. subst c. exists after. now split.
    + apply IH. constructor; [now split | exact Hafter].
Qed.

(** An empty extension does not depend on what follows the scan. *)
Lemma scanExt_nil (before after after' : gostring) :
  filepath.scanExt before after = [] -> filepath.scanExt before after' = [].
Proof.
  revert after after'. induction before as [| c before IH]; intros after after' H.
  - reflexivity.
  - cbn [filepath.scanExt] in *.
    destruct (filepath.IsPathSeparator c); [reflexivity |].
    destruct (Ascii.eqb c "."%char); [discriminate |].
    now apply (IH (c :: after)).
Qed.

(** The scan passes over plain bytes. *)
Lemma scanExt_plain (tail before after : gostring) :
  Forall plain tail ->
  filepath.scanExt (rev tail ++ before) after
  = filepath.scanExt before (tail ++ after).
Proof.
  revert after. induction tail as [| c tail IH] using rev_ind; intros after Hplain.
  - reflexivity.
  - apply Forall_app in Hplain. destruct Hplain as [Htail Hc].
    inversion Hc as [| ? ? [Hs Hd] _]; subst.
    rewrite rev_app_distr. cbn [rev app filepath.scanExt].
    rewrite Hs, Hd. rewrite IH by exact Htail.
    now rewrite <- app_assoc.
Qed.

Lemma Ext_of_dotted (base rest : gostring) :
  Forall plain rest ->
  filepath.Ext (base ++ "."%char :: rest) = "."%char :: rest.
Proof.
  intros Hrest. unfold filepath.Ext.
  rewrite rev_app_distr. cbn [rev]. rewrite <- app_assoc.
  rewrite scanExt_plain by exact Hrest. cbn [app filepath.scanExt].
  replace (filepath.IsPathSeparator "."%char) with false by reflexivity.
  rewrite Ascii.eqb_refl. now rewrite app_nil_r.
Qed.

Lemma TrimSuffix_app (base suffix : gostring) :
  strings.TrimSuffix (base ++ suffix) suffix = base.
Proof.
  unfold strings.TrimSuffix, strings.HasSuffix.
  assert (Hlen : (length (base ++ suffix) - length suffix = length base)%nat)
    by (rewrite length_app; lia).
  rewrite Hlen, skipn_app, skipn_all, Nat.sub_diag. cbn [app skipn].
  replace (length suffix <=? length (base ++ suffix))%nat with true
    by (symmetry; apply Nat.leb_le; rewrite length_app; lia).
  destruct (list_eq_dec ascii_dec suffix suffix) as [_ | H]; [| contradiction].
  cbn [andb]. rewrite firstn_app, firstn_all, Nat.sub_diag. cbn [firstn].
  now rewrite app_nil_r.
Qed.

(** When no output path is given, [main] writes next to the input: the
    output path is the input path with [_resized] inserted before its
    extension, it has the same extension as the input, and it is never the
    input path itself; a given output path is used as it is. *)
Theorem output_file_name (inputFile outputFile : gostring) :
  (outputFile <> [] -> cmd.outputFileOf inputFile outputFile = outputFile)
  /\ exists base,
       inputFile = base ++ filepath.Ext inputFile
       /\ cmd.outputFileOf inputFile []
          = base ++ cmd.resizedSuffix ++ filepath.Ext inputFile
       /\ filepath.Ext (cmd.outputFileOf inputFile []) = filepath.Ext inputFile
       /\ cmd.outputFileOf inputFile [] <> inputFile.
Proof.
  split.
  - intros H. destruct outputFile; [contradiction | reflexivity].
  - destruct (scanExt_suffix (rev inputFile) []) as (base & Hbase).
    rewrite rev_involutive, app_nil_r in Hbase. fold (filepath.Ext inputFile) in Hbase.
    exists base. split; [exact Hbase |].
    assert (Hout : cmd.outputFileOf inputFile []
                   = base ++ cmd.resizedSuffix ++ filepath.Ext inputFile).
    { unfold cmd.outputFileOf. rewrite Hbase at 1. now rewrite TrimSuffix_app. }
    split; [exact Hout |]. split.
    + rewrite Hout.
      destruct (scanExt_shape (rev inputFile) [] (Forall_nil _)) as [Hnil | (rest & Hdot & Hrest)];
        fold (filepath.Ext inputFile) in *.
      * rewrite Hnil, app_nil_r. rewrite Hnil, app_nil_r in Hbase. subst base.
        unfold filepath.Ext. rewrite rev_app_distr.
        rewrite scanExt_plain.
        -- now apply (scanExt_nil _ []).
        -- repeat constructor.
      * rewrite Hdot. rewrite app_assoc. now apply Ext_of_dotted.
    + rewrite Hout. intros Heq. rewrite Hbase in Heq at 2.
      apply (f_equal (@length ascii)) in Heq. rewrite !length_app in Heq.
      simpl in Heq. lia.
Qed.

End OutputFile.

(** ** What of the source [Resize] depends on *)

Section LoopsOfEqualBodies.

Context {S : Type}.

Lemma for_loop_ext (cond : Z -> S -> bool) (body body' : Z -> S -> outcome S)
    (n : nat) :
  forall (lo : Z) (s : S),
    (forall i t, lo <= i < lo + Z.of_nat n -> body i t = body' i t) ->
    for_loop n lo cond body s = for_loop n lo cond body' s.
Proof.
  induction n as [| n IH]; intros lo s H; cbn [for_loop]; [reflexivity |].
  destruct (cond lo s); [| reflexivity].
  rewrite <- H by lia. destruct (body lo s) as [t |]; cbn [bind]; [| reflexivity].
  apply IH. intros i u Hi. apply H. lia.
Qed.

End LoopsOfEqualBodies.

Section SameContent.

Import filters resize.

Lemma fill_ext (alo ahi blo bhi : Z)
    (body body' : Z -> Z -> image.NRGBA -> outcome image.NRGBA)
    (dst0 : image.NRGBA) :
  (forall a b dst, alo <= a < ahi -> blo <= b < bhi ->
                   body a b dst = body' a b dst) ->
  fill alo ahi blo bhi body dst0 = fill alo ahi blo bhi body' dst0.
Proof.
  intros H. unfold fill, for_lt. apply for_loop_ext.
  intros a t Ha. apply for_loop_ext. intros b u Hb. apply H; lia.
Qed.

(** Two sources have the same content: the same width and height and, at
    every offset from the corner of their bounds, the same colour value
    ([At(x, y).RGBA()], which the filtered passes read) and the same pixel
    for [draw.Draw] to store (which the direct copy takes, and which depends
    on the dynamic type of the source). *)
Definition sameContent (src src' : image.Image) : Prop :=
  image.Dx (image.Bounds src) = image.Dx (image.Bounds src')
  /\ image.Dy (image.Bounds src) = image.Dy (image.Bounds src')
  /\ forall x y,
       0 <= x < image.Dx (image.Bounds src) ->
       0 <= y < image.Dy (image.Bounds src) ->
       image.At src (x + image.X (image.Min (image.Bounds src)))
                    (y + image.Y (image.Min (image.Bounds src)))
       = image.At src' (x + image.X (image.Min (image.Bounds src')))
                       (y + image.Y (image.Min (image.Bounds src')))
       /\ draw.drawn src (x + image.X (image.Min (image.Bounds src)))
                         (y + image.Y (image.Min (image.Bounds src)))
          = draw.drawn src' (x + image.X (image.Min (image.Bounds src')))
                            (y + image.Y (image.Min (image.Bounds src'))).

(** The accumulation loop gives the same colour for two sources that agree
    on the source range. *)
Lemma accumulate_same (src src' : image.Image) (coord coord' : Z -> image.Point)
    (pixelWeights : list float64) (left right : Z) :
  (forall s, left <= s <= right ->
     image.At src (image.X (coord s)) (image.Y (coord s))
     = image.At src' (image.X (coord' s)) (image.Y (coord' s))) ->
  exists st st',
    accumulate src coord pixelWeights left right = Returns st
    /\ accumulate src' coord' pixelWeights left right = Returns st'
    /\ narrow st = narrow st'.
Proof.
  intros Hsame.
  destruct (accumulate_total src coord pixelWeights left right) as (st & Hst).
  destruct (accumulate_total src' coord' pixelWeights left right) as (st' & Hst').
  exists st, st'. split; [exact Hst |]. split; [exact Hst' |].
  apply accumulate_sums in Hst. apply accumulate_sums in Hst'. cbv zeta in Hst, Hst'.
  destruct Hst as (HR & HG & HB & HA). destruct Hst' as (HR' & HG' & HB' & HA').
  assert (Hch : forall channel,
             channelSum src coord channel (rowWeight pixelWeights left) left
               (rangeCount left right)
             = channelSum src' coord' channel (rowWeight pixelWeights left) left
                 (rangeCount left right)).
  { intros channel. unfold channelSum. apply sumWeights_ext.
    intros s Hs. rewrite Hsame; [reflexivity |]. unfold rangeCount in Hs. lia. }
  unfold narrow. rewrite HR, HG, HB, HA, HR', HG', HB', HA', !Hch. reflexivity.
Qed.

Section Pass.

Variables src src' : image.Image.
Variables srcLen dstLen other : Z.
Variables px py : Z -> Z -> Z.
Variables coord coord' : Z -> Z -> image.Point.
Variable rect : image.Rectangle.
Variable err : error.

Hypothesis Hsame : forall a s,
  0 <= a < other -> 0 <= s <= srcLen - 1 ->
  image.At src (image.X (coord a s)) (image.Y (coord a s))
  = image.At src' (image.X (coord' a s)) (image.Y (coord' a s)).

Lemma passBody_same (weights : list (list float64)) (a b : Z) (dst : image.NRGBA) :
  1 <= srcLen -> 1 <= dstLen -> 0 <= a < other -> 0 <= b < dstLen ->
  passBody src srcLen dstLen px py coord weights a b dst
  = passBody src' srcLen dstLen px py coord' weights a b dst.
Proof.
  intros Hs Hd Ha Hb. unfold passBody, resamplePixel.
  destruct (slice_get weights b) as [pixelWeights |]; cbn [bind]; [| reflexivity].
  set (scale := scaleOf srcLen dstLen).
  set (center := centerOf b scale).
  set (support := supportOf (float64_of_int (Radius (NewLanczos 3))) scale).
  assert (Hsup : (0 <= support)%R).
  { apply supportOf_nonneg; try assumption. unfold float64_of_int. simpl. lra. }
  pose proof (leftOf_range srcLen dstLen Hs Hd b Hb support Hsup) as Hl.
  pose proof (rightOf_range srcLen dstLen Hs Hd b Hb support Hsup) as Hr.
  fold scale center in Hl, Hr.
  destruct (accumulate_same src src' (coord a) (coord' a) pixelWeights
              (leftOf center support) (rightOf center support srcLen))
    as (st & st' & Hst & Hst' & Hnarrow).
  { intros s Hrange. apply Hsame; [exact Ha | lia]. }
  rewrite Hst, Hst'. cbn [bind]. now rewrite Hnarrow.
Qed.

Lemma filteredPass_same :
  filteredPass src srcLen dstLen other px py coord rect err
  = filteredPass src' srcLen dstLen other px py coord' rect err.
Proof.
  unfold filteredPass.
  destruct (calculateWeights srcLen dstLen (OfLanczos (NewLanczos 3)))
    as [[weights |] |] eqn:Hw; cbn [bind]; try reflexivity.
  apply calculateWeights_Returns in Hw. destruct Hw as (Hs & Hd & _).
  rewrite (fill_ext 0 other 0 dstLen
             (passBody src srcLen dstLen px py coord weights)
             (passBody src' srcLen dstLen px py coord' weights));
    [reflexivity |].
  intros a b dst Ha Hb. now apply passBody_same.
Qed.

End Pass.

End SameContent.

Section SameContentPasses.

Import filters resize.

Variables src src' : image.Image.
Hypothesis Hsame : sameContent src src'.
Hypothesis Hdx : 1 <= image.Dx (image.Bounds src).
Hypothesis Hdy : 1 <= image.Dy (image.Bounds src).

Lemma copy_same (w h : Z) :
  image.Dx (image.Bounds src) = w -> image.Dy (image.Bounds src) = h ->
  draw.Draw (image.NewNRGBA (image.Rect 0 0 w h)) (image.Rect 0 0 w h) src
    (image.Min (image.Bounds src))
  = draw.Draw (image.NewNRGBA (image.Rect 0 0 w h)) (image.Rect 0 0 w h) src'
      (image.Min (image.Bounds src')).
Proof.
  intros Ew Eh. destruct Hsame as (Hx & Hy & Hat).
  rewrite Rect_origin by lia.
  rewrite (Draw_copy_unfold src w h) by lia.
  rewrite (Draw_copy_unfold src' w h) by lia.
  apply fill_ext. intros y x dst Hyr Hxr. unfold copyBody. do 2 f_equal.
  replace (image.X (image.Min (image.Bounds src)) + 0 + x - 0)
    with (x + image.X (image.Min (image.Bounds src))) by lia.
  replace (image.Y (image.Min (image.Bounds src)) + 0 + y - 0)
    with (y + image.Y (image.Min (image.Bounds src))) by lia.
  replace (image.X (image.Min (image.Bounds src')) + 0 + x - 0)
    with (x + image.X (image.Min (image.Bounds src'))) by lia.
  replace (image.Y (image.Min (image.Bounds src')) + 0 + y - 0)
    with (y + image.Y (image.Min (image.Bounds src'))) by lia.
  apply (Hat x y); lia.
Qed.

Lemma resizeVertical_same (height : Z) :
  resizeVertical src height = resizeVertical src' height.
Proof.
  pose proof Hsame as (Hx & Hy & Hat).
  destruct (Z.eq_dec (image.Dy (image.Bounds src)) height) as [E | E].
  - rewrite (resizeVertical_copy src) by exact E.
    rewrite (resizeVertical_copy src') by lia.
    rewrite <- Hx. now rewrite copy_same.
  - rewrite (resizeVertical_filtered src) by exact E.
    rewrite (resizeVertical_filtered src') by lia.
    rewrite <- Hx, <- Hy. apply filteredPass_same.
    intros x s Hxr Hs. cbn [image.X image.Y]. apply (Hat x s); lia.
Qed.

Lemma resizeHorizontal_same (width : Z) :
  resizeHorizontal src width = resizeHorizontal src' width.
Proof.
  pose proof Hsame as (Hx & Hy & Hat).
  destruct (Z.eq_dec (image.Dx (image.Bounds src)) width) as [E | E].
  - rewrite (resizeHorizontal_copy src) by exact E.
    rewrite (resizeHorizontal_copy src') by lia.
    rewrite <- Hy. now rewrite copy_same.
  - rewrite (resizeHorizontal_filtered src) by exact E.
    rewrite (resizeHorizontal_filtered src') by lia.
    rewrite <- Hx, <- Hy. apply filteredPass_same.
    intros y s Hyr Hs. cbn [image.X image.Y]. apply (Hat s y); lia.
Qed.

End SameContentPasses.

Section SameContentClaim.

Import filters resize.

(** [Resize] depends on a source that is not empty only through its width,
    its height and its content at the offsets from the corner of its bounds
    (the colour values, and the pixels a direct copy takes): two sources
    with the same content, wherever their bounds lie and whatever they
    answer outside them, give the same result, be it an image, an error or
    a panic. *)
Theorem Resize_same_content (src src' : image.Image) (width height : Z) :
  sameContent src src' ->
  1 <= image.Dx (image.Bounds src) -> 1 <= image.Dy (image.Bounds src) ->
  Resize (Some src) width height = Resize (Some src') width height.
Proof.
  intros Hsame Hdx Hdy. pose proof Hsame as (Hx & Hy & _).
  unfold Resize. rewrite <- Hx, <- Hy.
  rewrite (resizeHorizontal_same src src' Hsame Hdx Hdy).
  rewrite (resizeVertical_same src src' Hsame Hdx Hdy).
  reflexivity.
Qed.

Lemma Resize_same_content_witness :
  Resize (Some (image.mkImage (image.Rect 0 0 2 2)
                  (fun x y => color.mkRGBA (x * 257) (y * 257) 0 65535))) 4 4
  = Resize (Some (image.mkImage (image.Rect 10 20 12 22)
                    (fun x y => color.mkRGBA ((x - 10) * 257) ((y - 20) * 257) 0 65535)))
      4 4.
Proof.
  apply Resize_same_content; [| vm_compute; discriminate ..].
  split; [reflexivity |]. split; [reflexivity |].
  intros x y _ _.
  cbn [image.At draw.drawn image.Bounds image.Min image.X image.Y image.Rect].
  simpl. split; [| f_equal]; f_equal; lia.
Defined.

End SameContentClaim.

(** ** The test image of the example program *)

Section TestImageFacts.

Import filters resize.

Variable outOfRange : float64 -> Z.








End TestImageFacts.

Section TestImageClaims.

Import filters resize.




End TestImageClaims.

(** ** The weight table under a rounding arithmetic *)

Section ExactArithmetic.

Import filters resize.

(** Under the arithmetic of the real numbers the engine is the one of
    [filters] and [resize]. *)
Lemma exact_Lanczos_Kernel (l : Lanczos) (value : float64) :
  rounded.Lanczos_Kernel rounded.exact l value = Lanczos_Kernel l value.
Proof. reflexivity. Qed.

Lemma exact_weightOf (filter : Resampler) (scale center : float64) (srcIdx : Z) :
  rounded.weightOf rounded.exact filter scale center srcIdx
  = weightOf filter scale center srcIdx.
Proof. destruct filter; reflexivity. Qed.

Lemma exact_calculateWeights (srcSize dstSize : Z) (filter : Resampler) :
  rounded.calculateWeights rounded.exact srcSize dstSize filter
  = calculateWeights srcSize dstSize filter.
Proof. destruct filter; reflexivity. Qed.

Lemma exact_resamplePixel (src : image.Image) (coord : Z -> image.Point)
    (weights : list (list float64)) (filter : Lanczos) (srcSize dstSize dstIdx : Z) :
  rounded.resamplePixel rounded.exact src coord weights filter srcSize dstSize dstIdx
  = resamplePixel src coord weights filter srcSize dstSize dstIdx.
Proof. reflexivity. Qed.

Lemma exact_resizeVertical (src : image.Image) (height : Z) :
  rounded.resizeVertical rounded.exact src height = resizeVertical src height.
Proof. reflexivity. Qed.

Lemma exact_resizeHorizontal (src : image.Image) (width : Z) :
  rounded.resizeHorizontal rounded.exact src width = resizeHorizontal src width.
Proof. reflexivity. Qed.

Lemma exact_Resize (src : option image.Image) (width height : Z) :
  rounded.Resize rounded.exact src width height = Resize src width height.
Proof. reflexivity. Qed.

End ExactArithmetic.

(** The sum the builder accumulates for a row: the non-zero kernel values
    [w lo], ..., [w (lo+n-1)], added in loop order. *)
Fixpoint sumNonzero (fa : rounded.Arith) (w : Z -> float64) (lo : Z) (n : nat)
    : float64 :=
  match n with
  | O => 0%R
  | S n' =>
      let v := w (lo + Z.of_nat n')%Z in
      if Req_dec_T v 0 then sumNonzero fa w lo n'
      else rounded.add fa (sumNonzero fa w lo n') v
  end.

(** What the table holds for a stored value [v] of a row whose sum is
    [sum]. *)
Definition normalizedBy (fa : rounded.Arith) (sum v : float64) : float64 :=
  if Rlt_dec 0 sum then rounded.div fa v sum else v.

Section RoundedSums.

(** Under the arithmetic of the real numbers these are the sum and the
    normalized value of the exact engine. *)
Lemma exact_sumNonzero (w : Z -> float64) (lo : Z) (n : nat) :
  sumNonzero rounded.exact w lo n = sumWeights w lo n.
Proof.
  induction n as [| n IH]; [reflexivity |]. cbn [sumNonzero sumWeights].
  destruct (Req_dec_T (w (lo + Z.of_nat n)%Z) 0) as [E | E].
  - rewrite IH, E. lra.
  - rewrite IH. reflexivity.
Qed.

Lemma exact_normalizedBy (sum v : float64) :
  normalizedBy rounded.exact sum v = normalized sum v.
Proof. reflexivity. Qed.

End RoundedSums.

Section RoundedRowFacts.

Import filters resize.

Variable fa : rounded.Arith.
Variable filter : Resampler.
Variables scale center : float64.
Variables left right : Z.

Let w : Z -> float64 := rounded.weightOf fa filter scale center.

(** The state of [fillRow] when the loop index is [i], over the initial row. *)
Definition roundedFillInv (row : list float64) (i : Z) (st : rowState) : Prop :=
  left <= i
  /\ weightIdx st = i - left
  /\ weightSum st = sumNonzero fa w left (Z.to_nat (i - left))
  /\ length (rowWeights st) = length row
  /\ (forall k : nat, Z.of_nat k < i - left ->
        nth k (rowWeights st) 0%R
        = if Req_dec_T (w (left + Z.of_nat k)) 0 then nth k row 0%R
          else w (left + Z.of_nat k))
  /\ (forall k : nat, i - left <= Z.of_nat k ->
        nth k (rowWeights st) 0%R = nth k row 0%R).

Definition roundedFillBody (srcIdx : Z) (st : rowState) : outcome rowState :=
  let weight := rounded.weightOf fa filter scale center srcIdx in
  if Req_dec_T weight 0
  then Returns (mkRowState (rowWeights st) (weightSum st) (weightIdx st + 1))
  else
    bind (slice_set (rowWeights st) (weightIdx st) weight)
      (fun row' =>
         Returns (mkRowState row' (rounded.add fa (weightSum st) weight)
                    (weightIdx st + 1))).

Lemma roundedFillInv_step (row : list float64) (i : Z) (st st' : rowState) :
  roundedFillInv row i st ->
  roundedFillBody i st = Returns st' ->
  roundedFillInv row (i + 1) st'.
Proof.
  intros (Hle & Hidx & Hsum & Hlen & Hlow & Hhigh) Hbody.
  assert (Hn : Z.to_nat (i + 1 - left) = Datatypes.S (Z.to_nat (i - left))) by lia.
  assert (Hi : left + Z.of_nat (Z.to_nat (i - left)) = i) by lia.
  unfold roundedFillBody in Hbody. fold (w i) in Hbody.
  destruct (Req_dec_T (w i) 0) as [Hz | Hnz].
  - inversion Hbody; subst st'; clear Hbody. unfold roundedFillInv; simpl.
    split; [lia |]. split; [lia |].
    split.
    { rewrite Hn. cbn [sumNonzero]. rewrite Hi.
      destruct (Req_dec_T (w i) 0); [exact Hsum | contradiction]. }
    split; [exact Hlen |].
    split.
    + intros k Hk. destruct (Z.eq_dec (Z.of_nat k) (i - left)) as [E | E].
      * replace (left + Z.of_nat k) with i by lia.
        destruct (Req_dec_T (w i) 0); [| contradiction].
        apply Hhigh. lia.
      * apply Hlow. lia.
    + intros k Hk. apply Hhigh. lia.
  - apply bind_Returns in Hbody. destruct Hbody as (row' & Hset & Hret).
    apply slice_set_Returns in Hset. destruct Hset as [Hrange ->].
    inversion Hret; subst st'; clear Hret. unfold roundedFillInv; simpl.
    unfold len in Hrange.
    split; [lia |]. split; [lia |].
    split.
    { rewrite Hn. cbn [sumNonzero]. rewrite Hi.
      destruct (Req_dec_T (w i) 0); [contradiction |]. now rewrite Hsum. }
    split. { rewrite length_update. exact Hlen. }
    split.
    + intros k Hk. destruct (Z.eq_dec (Z.of_nat k) (i - left)) as [E | E].
      * replace (left + Z.of_nat k) with i by lia.
        destruct (Req_dec_T (w i) 0); [contradiction |].
        replace (Z.to_nat (weightIdx st)) with k by lia.
        apply nth_update_same. lia.
      * rewrite nth_update_other by lia. apply Hlow. lia.
    + intros k Hk. rewrite nth_update_other by lia. apply Hhigh. lia.
Qed.

Lemma roundedFillInv_init (row : list float64) :
  roundedFillInv row left (mkRowState row 0%R 0).
Proof.
  unfold roundedFillInv; simpl. replace (left - left) with 0 by lia.
  repeat split; try lia; auto.
Qed.

(** What [fillRow] returns, when it returns. *)
Lemma rounded_fillRow_Returns (row : list float64) (st : rowState) :
  rounded.fillRow fa filter scale center left right row = Returns st ->
  roundedFillInv row (left + Z.of_nat (rangeCount left right)) st.
Proof.
  change (rounded.fillRow fa filter scale center left right row)
    with (for_le left right roundedFillBody (mkRowState row 0%R 0)).
  unfold for_le. intros H.
  apply (for_loop_invariant_at (roundedFillInv row) roundedFillBody _ left _ st) in H.
  - exact H.
  - intros i t t' _. apply roundedFillInv_step.
  - apply roundedFillInv_init.
Qed.

(** A store of a non-zero kernel value is inside the row. *)
Lemma rounded_fillRow_in_range (row : list float64) (st : rowState) (srcIdx : Z) :
  rounded.fillRow fa filter scale center left right row = Returns st ->
  left <= srcIdx <= right ->
  w srcIdx <> 0%R ->
  srcIdx - left < len row.
Proof.
  change (rounded.fillRow fa filter scale center left right row)
    with (for_le left right roundedFillBody (mkRowState row 0%R 0)).
  unfold for_le. intros Hrun Hs Hnz.
  destruct (Z_lt_le_dec (srcIdx - left) (len row)) as [Hlt | Hge]; [exact Hlt |].
  exfalso.
  rewrite (for_loop_panics (roundedFillInv row) roundedFillBody _ left _ srcIdx)
    in Hrun.
  - discriminate.
  - lia.
  - intros i t t' _. apply roundedFillInv_step.
  - intros t (_ & Hidx & _ & Hlen & _).
    unfold roundedFillBody. fold (w srcIdx).
    destruct (Req_dec_T (w srcIdx) 0); [contradiction |].
    rewrite slice_set_out_of_range; [reflexivity |].
    unfold len in *. lia.
  - apply roundedFillInv_init.
Qed.

(** [fillRow] returns when every non-zero kernel value of the range has a
    slot in the row. *)
Lemma rounded_fillRow_room (row : list float64) :
  (forall srcIdx, left <= srcIdx <= right -> w srcIdx <> 0%R ->
                  srcIdx - left < len row) ->
  exists st, rounded.fillRow fa filter scale center left right row = Returns st.
Proof.
  intros Hroom.
  change (rounded.fillRow fa filter scale center left right row)
    with (for_le left right roundedFillBody (mkRowState row 0%R 0)).
  unfold for_le.
  destruct (for_loop_returns
              (fun i st => i <= left + Z.of_nat (rangeCount left right)
                           /\ roundedFillInv row i st)
              roundedFillBody (Z.to_nat (right - left + 1)) left
              (mkRowState row 0%R 0))
    as (st & Hst & _).
  - intros i t Hi (_ & Hinv).
    assert (Hb : exists t', roundedFillBody i t = Returns t').
    { destruct Hinv as (Hle & Hidx & _ & Hlen & _).
      unfold roundedFillBody. fold (w i).
      destruct (Req_dec_T (w i) 0) as [Hz | Hnz]; [eauto |].
      rewrite slice_set_in_range; [simpl; eauto |].
      assert (Hi' : left <= i <= right) by lia.
      pose proof (Hroom i Hi' Hnz). unfold len in *. lia. }
    destruct Hb as (t' & Hb). exists t'. split; [exact Hb |].
    split; [unfold rangeCount; lia | exact (roundedFillInv_step row i t t' Hinv Hb)].
  - split; [lia | apply roundedFillInv_init].
  - eauto.
Qed.

End RoundedRowFacts.

Section RoundedNormalizeFacts.

Import resize.

Variable fa : rounded.Arith.
Variable sum : float64.

Definition roundedNormalizeBody (i : Z) (row : list float64)
    : outcome (list float64) :=
  bind (slice_get row i) (fun w => slice_set row i (rounded.div fa w sum)).

(** The row of [normalizeRow] when the loop index is [i]. *)
Definition roundedNormalizeInv (row : list float64) (i : Z) (row' : list float64)
    : Prop :=
  0 <= i
  /\ length row' = length row
  /\ (forall k : nat, Z.of_nat k < i ->
        nth k row' 0%R = rounded.div fa (nth k row 0%R) sum)
  /\ (forall k : nat, i <= Z.of_nat k -> nth k row' 0%R = nth k row 0%R).

Lemma roundedNormalizeInv_step (row : list float64) (i : Z) (t t' : list float64) :
  roundedNormalizeInv row i t ->
  roundedNormalizeBody i t = Returns t' ->
  roundedNormalizeInv row (i + 1) t'.
Proof.
  intros (H0 & Hlen & Hlow & Hhigh) Hbody.
  unfold roundedNormalizeBody in Hbody.
  apply bind_Returns in Hbody. destruct Hbody as (v & Hget & Hset).
  apply (slice_get_Returns _ _ _ 0%R) in Hget. destruct Hget as [Hrange Hv].
  apply slice_set_Returns in Hset. destruct Hset as [_ ->].
  unfold len in Hrange.
  split; [lia |]. split; [rewrite length_update; exact Hlen |]. split.
  - intros k Hk. destruct (Z.eq_dec (Z.of_nat k) i) as [E | E].
    + replace (Z.to_nat i) with k in * by lia.
      rewrite nth_update_same by lia. rewrite <- Hv. f_equal. apply Hhigh. lia.
    + rewrite nth_update_other by lia. apply Hlow. lia.
  - intros k Hk. rewrite nth_update_other by lia. apply Hhigh. lia.
Qed.

Lemma rounded_normalizeRow_Returns (weightsPerPixel : Z) (row row' : list float64) :
  rounded.normalizeRow fa weightsPerPixel sum row = Returns row' ->
  roundedNormalizeInv row (Z.max 0 weightsPerPixel) row'.
Proof.
  change (rounded.normalizeRow fa weightsPerPixel sum row)
    with (for_lt 0 weightsPerPixel roundedNormalizeBody row).
  unfold for_lt. intros H.
  apply (for_loop_invariant_at (roundedNormalizeInv row) roundedNormalizeBody _ 0 _ row')
    in H.
  - replace (Z.max 0 weightsPerPixel)
      with (0 + Z.of_nat (Z.to_nat (weightsPerPixel - 0))) by lia.
    exact H.
  - intros i t t' _. apply roundedNormalizeInv_step.
  - unfold roundedNormalizeInv. repeat split; auto; try lia.
Qed.

Lemma rounded_normalizeRow_fits (weightsPerPixel : Z) (row : list float64) :
  weightsPerPixel <= len row ->
  exists row', rounded.normalizeRow fa weightsPerPixel sum row = Returns row'.
Proof.
  intros Hfit.
  change (rounded.normalizeRow fa weightsPerPixel sum row)
    with (for_lt 0 weightsPerPixel roundedNormalizeBody row).
  unfold for_lt.
  destruct (for_loop_returns
              (fun i t => i <= Z.max 0 weightsPerPixel /\ roundedNormalizeInv row i t)
              roundedNormalizeBody (Z.to_nat (weightsPerPixel - 0)) 0 row)
    as (row' & Hrow' & _).
  - intros i t Hi (_ & Hinv).
    assert (Hb : exists t', roundedNormalizeBody i t = Returns t').
    { destruct Hinv as (H0 & Hlen & _).
      unfold roundedNormalizeBody.
      rewrite (slice_get_in_range _ _ 0%R) by (unfold len in *; lia).
      cbn [bind]. rewrite slice_set_in_range by (unfold len in *; lia). eauto. }
    destruct Hb as (t' & Hb). exists t'. split; [exact Hb |].
    split; [lia | exact (roundedNormalizeInv_step row i t t' Hinv Hb)].
  - split; [lia |]. unfold roundedNormalizeInv. repeat split; auto; try lia.
  - eauto.
Qed.

End RoundedNormalizeFacts.

Section RoundedTableFacts.

Import filters resize.

Variable fa : rounded.Arith.
Variable srcSize : Z.
Variable filter : Resampler.
Variables scale support : float64.
Variable weightsPerPixel : Z.

(** The row of the table for destination index [dstIdx], when it is built:
    its slots hold the kernel values of the source range, normalized,
    followed by normalized zeros; and every non-zero kernel value of the
    range has its slot. *)
Lemma rounded_weightsRow_Returns (dstIdx : Z) (row : list float64) :
  rounded.weightsRow fa srcSize filter scale support weightsPerPixel dstIdx
  = Returns row ->
  let center := rounded.centerOf fa dstIdx scale in
  let left := rounded.leftOf fa center support in
  let right := rounded.rightOf fa center support srcSize in
  let w := rounded.weightOf fa filter scale center in
  let sum := sumNonzero fa w left (rangeCount left right) in
  0 <= weightsPerPixel
  /\ len row = weightsPerPixel
  /\ (forall k : nat, (k < rangeCount left right)%nat ->
        Z.of_nat k < weightsPerPixel ->
        nth k row 0%R = normalizedBy fa sum (w (left + Z.of_nat k)))
  /\ (forall k : nat, (rangeCount left right <= k)%nat ->
        Z.of_nat k < weightsPerPixel ->
        nth k row 0%R = normalizedBy fa sum 0%R)
  /\ (forall srcIdx : Z, left <= srcIdx <= right -> w srcIdx <> 0%R ->
        srcIdx - left < weightsPerPixel).
Proof.
  intros Hrun center left right w sum. unfold rounded.weightsRow in Hrun.
  fold center left right in Hrun.
  apply bind_Returns in Hrun. destruct Hrun as (row0 & Hmake & Hrun).
  apply make_Returns in Hmake. destruct Hmake as [Hwpp ->].
  apply bind_Returns in Hrun. destruct Hrun as (st & Hfill & Hrun).
  pose proof (rounded_fillRow_Returns _ _ _ _ _ _ _ _ Hfill)
    as (_ & _ & Hsum & Hlen & Hlow & Hhigh).
  replace (Z.to_nat (left + Z.of_nat (rangeCount left right) - left))
    with (rangeCount left right) in Hsum by lia.
  fold w sum in Hsum.
  assert (Hraw : forall k : nat, (k < rangeCount left right)%nat ->
                   nth k (rowWeights st) 0%R = w (left + Z.of_nat k)).
  { intros k Hk. rewrite Hlow by lia. fold w.
    destruct (Req_dec_T (w (left + Z.of_nat k)) 0) as [E | E]; [| reflexivity].
    rewrite E. apply nth_repeat_zero. }
  assert (Hzero : forall k : nat, (rangeCount left right <= k)%nat ->
                    nth k (rowWeights st) 0%R = 0%R).
  { intros k Hk. rewrite Hhigh by lia. apply nth_repeat_zero. }
  assert (Hroom : forall srcIdx : Z, left <= srcIdx <= right -> w srcIdx <> 0%R ->
                    srcIdx - left < weightsPerPixel).
  { intros srcIdx Hs Hnz.
    pose proof (rounded_fillRow_in_range _ _ _ _ _ _ _ _ srcIdx Hfill Hs Hnz) as H.
    unfold len in H. rewrite repeat_length in H. lia. }
  rewrite repeat_length in Hlen.
  split; [exact Hwpp |].
  unfold normalizedBy. rewrite Hsum in Hrun.
  destruct (Rlt_dec 0 sum) as [Hpos | Hnpos].
  - apply rounded_normalizeRow_Returns in Hrun.
    destruct Hrun as (_ & Hlen' & Hnlow & Hnhigh).
    split; [unfold len; lia |]. split; [| split; [| exact Hroom]].
    + intros k Hk Hin. rewrite Hnlow by lia. now rewrite Hraw.
    + intros k Hk Hin. rewrite Hnlow by lia. now rewrite Hzero.
  - inversion Hrun; subst row.
    split; [unfold len; lia |].
    split; [intros k Hk _; now apply Hraw |].
    split; [intros k Hk _; now apply Hzero | exact Hroom].
Qed.

(** The row is built when every non-zero kernel value of the source range
    has a slot within the row's capacity. *)
Lemma rounded_weightsRow_room (dstIdx : Z) :
  let center := rounded.centerOf fa dstIdx scale in
  let left := rounded.leftOf fa center support in
  let right := rounded.rightOf fa center support srcSize in
  0 <= weightsPerPixel ->
  (forall srcIdx, left <= srcIdx <= right ->
     rounded.weightOf fa filter scale center srcIdx <> 0%R ->
     srcIdx - left < weightsPerPixel) ->
  exists row,
    rounded.weightsRow fa srcSize filter scale support weightsPerPixel dstIdx
    = Returns row.
Proof.
  intros center left right Hwpp Hroom. unfold rounded.weightsRow.
  fold center left right.
  rewrite make_nonneg by lia. cbn [bind].
  destruct (rounded_fillRow_room fa filter scale center left right
              (repeat 0%R (Z.to_nat weightsPerPixel))) as (st & Hst).
  { intros srcIdx Hs Hnz. unfold len. rewrite repeat_length.
    pose proof (Hroom srcIdx Hs Hnz). lia. }
  rewrite Hst. cbn [bind].
  destruct (Rlt_dec 0 (weightSum st)); [| eauto].
  apply rounded_normalizeRow_fits.
  pose proof (rounded_fillRow_Returns _ _ _ _ _ _ _ _ Hst) as (_ & _ & _ & Hlen & _).
  unfold len. rewrite Hlen, repeat_length. lia.
Qed.

End RoundedTableFacts.

Section RoundedCalculateWeightsFacts.

Import filters resize.

Variable fa : rounded.Arith.
Variables srcSize dstSize : Z.
Variable filter : Resampler.

Let scale := rounded.scaleOf fa srcSize dstSize.
Let support := rounded.supportOf fa (rounded.filterRadiusOf fa filter) scale.
Let weightsPerPixel := rounded.weightsPerPixelOf fa support.

Definition roundedTableBody (dstIdx : Z) (weights : list (list float64))
    : outcome (list (list float64)) :=
  bind (rounded.weightsRow fa srcSize filter scale support weightsPerPixel dstIdx)
    (fun row => slice_set weights dstIdx row).

(** The table of [calculateWeights] when the loop index is [i]. *)
Definition roundedTableInv (i : Z) (weights : list (list float64)) : Prop :=
  0 <= i
  /\ len weights = dstSize
  /\ forall d, 0 <= d < i ->
       rounded.weightsRow fa srcSize filter scale support weightsPerPixel d
       = Returns (nth (Z.to_nat d) weights []).

Lemma roundedTableInv_step (i : Z) (t t' : list (list float64)) :
  roundedTableInv i t -> roundedTableBody i t = Returns t' ->
  roundedTableInv (i + 1) t'.
Proof.
  intros (H0 & Hlen & Hrows) Hbody. unfold roundedTableBody in Hbody.
  apply bind_Returns in Hbody. destruct Hbody as (row & Hrow & Hset).
  apply slice_set_Returns in Hset. destruct Hset as [Hrange ->].
  unfold roundedTableInv, len in *.
  split; [lia |]. split; [rewrite length_update; exact Hlen |].
  intros d Hd. destruct (Z.eq_dec d i) as [-> | E].
  - rewrite nth_update_same by lia. exact Hrow.
  - rewrite nth_update_other by lia. apply Hrows. lia.
Qed.

Lemma rounded_calculateWeights_unfold :
  1 <= srcSize -> 1 <= dstSize ->
  rounded.calculateWeights fa srcSize dstSize filter
  = bind (for_lt 0 dstSize roundedTableBody (repeat [] (Z.to_nat dstSize)))
      (fun weights => Returns (Some weights)).
Proof.
  intros Hs Hd. unfold rounded.calculateWeights.
  replace (srcSize <=? 0) with false by lia.
  replace (dstSize <=? 0) with false by lia.
  cbn [orb]. rewrite make_nonneg by lia. reflexivity.
Qed.

Lemma roundedTableInv_init :
  0 <= dstSize -> roundedTableInv 0 (repeat [] (Z.to_nat dstSize)).
Proof.
  intros H. unfold roundedTableInv, len. rewrite repeat_length.
  split; [lia |]. split; [lia |]. intros d Hd. lia.
Qed.

(** [calculateWeights] returns [nil] exactly for a non-positive length. *)
Lemma rounded_calculateWeights_nil_iff :
  rounded.calculateWeights fa srcSize dstSize filter = Returns None
  <-> (srcSize <= 0 \/ dstSize <= 0).
Proof.
  split.
  - intros H.
    destruct (Z_le_gt_dec srcSize 0) as [Hs | Hs]; [now left |].
    destruct (Z_le_gt_dec dstSize 0) as [Hd | Hd]; [now right |].
    rewrite rounded_calculateWeights_unfold in H by lia.
    apply bind_Returns in H. destruct H as (ws & _ & H). discriminate.
  - intros H. unfold rounded.calculateWeights.
    replace ((srcSize <=? 0) || (dstSize <=? 0)) with true; [reflexivity |].
    symmetry. apply orb_true_iff. lia.
Qed.

(** The table [calculateWeights] returns has one row per destination index,
    each the row [weightsRow] builds. *)
Lemma rounded_calculateWeights_Returns (weights : list (list float64)) :
  rounded.calculateWeights fa srcSize dstSize filter = Returns (Some weights) ->
  1 <= srcSize /\ 1 <= dstSize /\ len weights = dstSize
  /\ forall d, 0 <= d < dstSize ->
       rounded.weightsRow fa srcSize filter scale support weightsPerPixel d
       = Returns (nth (Z.to_nat d) weights []).
Proof.
  intros H.
  assert (Hsizes : 1 <= srcSize /\ 1 <= dstSize).
  { destruct (Z_le_gt_dec srcSize 0) as [Hs | Hs];
      [| destruct (Z_le_gt_dec dstSize 0) as [Hd | Hd]; [| lia]].
    - rewrite (proj2 rounded_calculateWeights_nil_iff) in H by (now left).
      discriminate.
    - rewrite (proj2 rounded_calculateWeights_nil_iff) in H by (now right).
      discriminate. }
  destruct Hsizes as [Hs Hd]. split; [exact Hs |]. split; [exact Hd |].
  rewrite rounded_calculateWeights_unfold in H by lia.
  apply bind_Returns in H. destruct H as (ws & Hloop & Hret).
  inversion Hret; subst ws; clear Hret.
  unfold for_lt in Hloop.
  apply (for_loop_invariant_at roundedTableInv roundedTableBody _ 0) in Hloop.
  - destruct Hloop as (_ & Hlen & Hrows). split; [exact Hlen |].
    intros d Hd'. apply Hrows. lia.
  - intros i t t' _. apply roundedTableInv_step.
  - apply roundedTableInv_init. lia.
Qed.

(** [calculateWeights] panics when the row of some destination index does. *)
Lemma rounded_calculateWeights_Panics (d : Z) :
  1 <= srcSize -> 0 <= d < dstSize ->
  rounded.weightsRow fa srcSize filter scale support weightsPerPixel d = Panics ->
  rounded.calculateWeights fa srcSize dstSize filter = Panics.
Proof.
  intros Hs Hd Hrow. rewrite rounded_calculateWeights_unfold by lia.
  unfold for_lt.
  rewrite (for_loop_panics (fun _ _ => True) roundedTableBody _ 0 _ d); auto.
  - lia.
  - intros t _. unfold roundedTableBody. now rewrite Hrow.
Qed.

(** [calculateWeights] returns a table when, for every destination index,
    every non-zero kernel value has a slot within the capacity of a row. *)
Lemma rounded_calculateWeights_room :
  1 <= srcSize -> 1 <= dstSize -> 0 <= weightsPerPixel ->
  (forall d srcIdx, 0 <= d < dstSize ->
     let center := rounded.centerOf fa d scale in
     let left := rounded.leftOf fa center support in
     left <= srcIdx <= rounded.rightOf fa center support srcSize ->
     rounded.weightOf fa filter scale center srcIdx <> 0%R ->
     srcIdx - left < weightsPerPixel) ->
  exists weights,
    rounded.calculateWeights fa srcSize dstSize filter = Returns (Some weights).
Proof.
  intros Hs Hd Hwpp Hroom. rewrite rounded_calculateWeights_unfold by lia.
  unfold for_lt.
  destruct (for_loop_returns (fun i t => i <= dstSize /\ roundedTableInv i t)
              roundedTableBody (Z.to_nat (dstSize - 0)) 0
              (repeat [] (Z.to_nat dstSize)))
    as (ws & Hws & _).
  - intros i t Hi (_ & Hinv).
    assert (Hb : exists t', roundedTableBody i t = Returns t').
    { unfold roundedTableBody.
      destruct (rounded_weightsRow_room fa srcSize filter scale support
                  weightsPerPixel i)
        as (row & Hrow); [exact Hwpp | intros srcIdx; apply Hroom; lia |].
      rewrite Hrow. cbn [bind]. destruct Hinv as (_ & Hlen & _).
      rewrite slice_set_in_range by lia. eauto. }
    destruct Hb as (t' & Hb). exists t'. split; [exact Hb |].
    split; [lia | exact (roundedTableInv_step i t t' Hinv Hb)].
  - split; [lia | apply roundedTableInv_init; lia].
  - rewrite Hws. cbn [bind]. eauto.
Qed.

End RoundedCalculateWeightsFacts.

Section RoundedWeightTableClaims.

Import filters resize.

(** Every non-zero kernel value of every destination index has a slot
    within the capacity [int(2*support) + 1] of a row, which is not
    negative. *)
Definition everyWeightHasItsSlot (fa : rounded.Arith) (srcSize dstSize : Z)
    (filter : Resampler) : Prop :=
  let scale := rounded.scaleOf fa srcSize dstSize in
  let support := rounded.supportOf fa (rounded.filterRadiusOf fa filter) scale in
  0 <= rounded.weightsPerPixelOf fa support
  /\ forall d srcIdx, 0 <= d < dstSize ->
       let center := rounded.centerOf fa d scale in
       let left := rounded.leftOf fa center support in
       left <= srcIdx <= rounded.rightOf fa center support srcSize ->
       rounded.weightOf fa filter scale center srcIdx <> 0%R ->
       srcIdx - left < rounded.weightsPerPixelOf fa support.

(** Whatever the rounding of [float64] is, for valid lengths the builder
    returns a table exactly when the capacity of a row is not negative and
    every non-zero kernel value has a slot in its row, and panics exactly
    when that fails. *)
Theorem calculateWeights_returns_iff
    (fa : rounded.Arith) (srcSize dstSize : Z) (filter : Resampler) :
  1 <= srcSize -> 1 <= dstSize ->
  ((exists weights,
      rounded.calculateWeights fa srcSize dstSize filter = Returns (Some weights))
   <-> everyWeightHasItsSlot fa srcSize dstSize filter)
  /\ (rounded.calculateWeights fa srcSize dstSize filter = Panics
      <-> ~ everyWeightHasItsSlot fa srcSize dstSize filter).
Proof.
  intros Hs Hd.
  assert (Hiff : (exists weights,
                    rounded.calculateWeights fa srcSize dstSize filter
                    = Returns (Some weights))
                 <-> everyWeightHasItsSlot fa srcSize dstSize filter).
  { split.
    - intros (weights & Hw).
      apply rounded_calculateWeights_Returns in Hw.
      destruct Hw as (_ & _ & _ & Hrows). split.
      + specialize (Hrows 0 ltac:(lia)).
        apply rounded_weightsRow_Returns in Hrows. apply Hrows.
      + intros d srcIdx Hd' center left Hrange Hnz.
        specialize (Hrows d Hd'). apply rounded_weightsRow_Returns in Hrows.
        cbv zeta in Hrows. destruct Hrows as (_ & _ & _ & _ & Hroom).
        now apply Hroom.
    - intros (Hwpp & Hroom). apply rounded_calculateWeights_room; assumption. }
  split; [exact Hiff |].
  split.
  - intros Hp Hroom. apply Hiff in Hroom. destruct Hroom as (weights & Hw).
    rewrite Hw in Hp. discriminate.
  - intros Hno.
    destruct (rounded.calculateWeights fa srcSize dstSize filter)
      as [[weights |] |] eqn:E.
    + exfalso. apply Hno, Hiff. eauto.
    + apply rounded_calculateWeights_nil_iff in E. lia.
    + reflexivity.
Qed.

Lemma calculateWeights_returns_iff_witness :
  rounded.calculateWeights rounded.exact 20 16 (OfLanczos (NewLanczos 3)) = Panics
  <-> ~ everyWeightHasItsSlot rounded.exact 20 16 (OfLanczos (NewLanczos 3)).
Proof.
  apply (calculateWeights_returns_iff rounded.exact 20 16 (OfLanczos (NewLanczos 3)));
    lia.
Defined.

(** C6. Whatever the rounding of [float64] is: with
    [scale = sourceLen / destLen], the support the builder uses for a
    Lanczos kernel is its radius when [scale <= 1] and [radius * scale] when
    [scale > 1]; it fixes the length [int(2*support) + 1] of every row and
    the source range [[left, right]] of a destination index.  The slot of a
    source index [s] of that range holds the kernel value at
    [distance / scale] when [scale > 1] and at [distance] otherwise, where
    [distance = s - center], divided by the sum of the row when that sum is
    positive; and every source index whose kernel value is not zero has its
    slot. *)
Theorem calculateWeights_support_and_kernel
    (fa : rounded.Arith) (srcSize dstSize : Z) (l : Lanczos)
    (weights : list (list float64)) (dstIdx srcIdx : Z) :
  rounded.calculateWeights fa srcSize dstSize (OfLanczos l)
  = Returns (Some weights) ->
  0 <= dstIdx < dstSize ->
  let scale := rounded.div fa (rounded.ofInt fa srcSize) (rounded.ofInt fa dstSize) in
  let radius := rounded.ofInt fa (Radius l) in
  let support := if Rlt_dec 1 scale then rounded.mul fa radius scale else radius in
  let center := rounded.centerOf fa dstIdx scale in
  let left := rounded.leftOf fa center support in
  let right := rounded.rightOf fa center support srcSize in
  let kernel := fun s =>
    let distance := rounded.sub fa (rounded.ofInt fa s) center in
    if Rlt_dec 1 scale
    then rounded.Lanczos_Kernel fa l (rounded.div fa distance scale)
    else rounded.Lanczos_Kernel fa l distance in
  let row := nth (Z.to_nat dstIdx) weights [] in
  let sum := sumNonzero fa kernel left (rangeCount left right) in
  1 <= srcSize /\ 1 <= dstSize
  /\ ((scale <= 1)%R -> support = radius)
  /\ ((1 < scale)%R -> support = rounded.mul fa radius scale)
  /\ len row = int_of_float64 (rounded.mul fa 2%R support) + 1
  /\ (left <= srcIdx <= right ->
      (kernel srcIdx <> 0%R -> srcIdx - left < len row)
      /\ (srcIdx - left < len row ->
          let distance := rounded.sub fa (rounded.ofInt fa srcIdx) center in
          ((1 < scale)%R ->
             nth (Z.to_nat (srcIdx - left)) row 0%R
             = normalizedBy fa sum
                 (rounded.Lanczos_Kernel fa l (rounded.div fa distance scale)))
          /\ ((scale <= 1)%R ->
             nth (Z.to_nat (srcIdx - left)) row 0%R
             = normalizedBy fa sum (rounded.Lanczos_Kernel fa l distance)))).
Proof.
  intros Hrun Hd. cbv zeta.
  apply rounded_calculateWeights_Returns in Hrun.
  destruct Hrun as (Hs & Hdst & Hlen & Hrows).
  specialize (Hrows dstIdx Hd).
  apply rounded_weightsRow_Returns in Hrows. cbv zeta in Hrows.
  destruct Hrows as (Hwpp & Hrowlen & Hin & Hout & Hroom).
  change (rounded.scaleOf fa srcSize dstSize)
    with (rounded.div fa (rounded.ofInt fa srcSize) (rounded.ofInt fa dstSize)) in *.
  set (scale := rounded.div fa (rounded.ofInt fa srcSize) (rounded.ofInt fa dstSize)) in *.
  change (rounded.supportOf fa (rounded.filterRadiusOf fa (OfLanczos l)) scale)
    with (if Rlt_dec 1 scale then rounded.mul fa (rounded.ofInt fa (Radius l)) scale
          else rounded.ofInt fa (Radius l)) in *.
  set (support := if Rlt_dec 1 scale
                  then rounded.mul fa (rounded.ofInt fa (Radius l)) scale
                  else rounded.ofInt fa (Radius l)) in *.
  set (center := rounded.centerOf fa dstIdx scale) in *.
  set (left := rounded.leftOf fa center support) in *.
  set (right := rounded.rightOf fa center support srcSize) in *.
  change (rounded.weightOf fa (OfLanczos l) scale center)
    with (fun s =>
            if Rlt_dec 1 scale
            then rounded.Lanczos_Kernel fa l
                   (rounded.div fa (rounded.sub fa (rounded.ofInt fa s) center) scale)
            else rounded.Lanczos_Kernel fa l
                   (rounded.sub fa (rounded.ofInt fa s) center)) in *.
  cbv beta in *.
  split; [exact Hs |]. split; [exact Hdst |].
  split. { intros H. unfold support. destruct (Rlt_dec 1 scale); [lra | reflexivity]. }
  split. { intros H. unfold support. destruct (Rlt_dec 1 scale); [reflexivity | lra]. }
  split; [exact Hrowlen |].
  intros Hrange. split.
  - intros Hnz. rewrite Hrowlen. now apply Hroom.
  - intros Hslot. rewrite Hrowlen in Hslot.
    rewrite Hin by (unfold rangeCount; lia).
    replace (left + Z.of_nat (Z.to_nat (srcIdx - left))) with srcIdx by lia.
    split; intros H; destruct (Rlt_dec 1 scale); try reflexivity; lra.
Qed.

Lemma calculateWeights_support_and_kernel_witness :
  exists weights,
    rounded.calculateWeights rounded.exact 10 5 (OfLanczos (NewLanczos 3))
    = Returns (Some weights)
    /\ len (nth (Z.to_nat 2) weights []) = 13.
Proof.
  assert (Hsup : (supportOf (float64_of_int (Radius (NewLanczos 3))) (scaleOf 10 5)
                  = 6)%R).
  { unfold scaleOf, supportOf, float64_of_int. simpl Radius.
    destruct (Rlt_dec 1 (10 / 5)); lra. }
  destruct (calculateWeights_fits 10 5 (OfLanczos (NewLanczos 3))) as (weights & Hw);
    [lia | lia | |].
  { intros d Hd. cbv zeta.
    apply (rangeCount_fits_whole 10 5 d ltac:(lia) ltac:(lia) Hd _ 12).
    - cbn [filterRadiusOf]. rewrite Hsup. lra.
    - cbn [filterRadiusOf]. rewrite Hsup. lra. }
  exists weights. split; [exact Hw |].
  pose proof (calculateWeights_support_and_kernel rounded.exact 10 5 (NewLanczos 3)
                weights 2 0 Hw ltac:(lia)) as Hthm.
  cbv zeta in Hthm. destruct Hthm as (_ & _ & _ & _ & Hlen & _).
  rewrite Hlen. cbn [rounded.mul rounded.div rounded.ofInt rounded.exact].
  simpl Radius.
  replace (2 * (if Rlt_dec 1 (10 / 5) then 3 * (10 / 5) else 3))%R with (IZR 12)
    by (destruct (Rlt_dec 1 (10 / 5)); lra).
  now rewrite int_of_float64_IZR.
Defined.

End RoundedWeightTableClaims.

(** ** The passes under a rounding arithmetic *)

Section RoundedPassFacts.

Import filters resize.

Variable fa : rounded.Arith.
Variable src : image.Image.
Variables srcLen dstLen other : Z.
Variables px py : Z -> Z -> Z.
Variable coord : Z -> Z -> image.Point.
Variable rect : image.Rectangle.
Variable err : error.

Hypothesis Hinj : forall a b a' b',
  px a b = px a' b' -> py a b = py a' b' -> a = a' /\ b = b'.
Hypothesis Hin : forall a b,
  0 <= a < other -> 0 <= b < dstLen ->
  image.In (image.Pt (px a b) (py a b)) rect = true.

Definition roundedPassBody (weights : list (list float64)) (a b : Z)
    (dst : image.NRGBA) : outcome image.NRGBA :=
  bind (rounded.resamplePixel fa src (coord a) weights (NewLanczos 3) srcLen dstLen b)
    (fun st =>
       Returns (image.NRGBA_Set dst (px a b) (py a b)
                  (color.NRGBA64_RGBA (narrow st)))).

(** The part the two passes share once the copy case is excluded, as
    [filteredPass]. *)
Definition roundedFilteredPass : outcome result :=
  bind (rounded.calculateWeights fa srcLen dstLen (OfLanczos (NewLanczos 3)))
    (fun weights =>
       match weights with
       | None => Returns (None, Some err)
       | Some weights =>
           bind (fill 0 other 0 dstLen (roundedPassBody weights)
                   (image.NewNRGBA rect))
             (fun dst => Returns (Some dst, None))
       end).

(** A pass that returns an image has built its weight table, and every pixel
    of the image is the one stored from the accumulators of its own
    iteration, clamped and narrowed. *)
Lemma roundedFilteredPass_Returns (r : result) :
  roundedFilteredPass = Returns r ->
  (r = (None, Some err) /\ (srcLen <= 0 \/ dstLen <= 0))
  \/ exists weights dst,
       rounded.calculateWeights fa srcLen dstLen (OfLanczos (NewLanczos 3))
       = Returns (Some weights)
       /\ r = (Some dst, None)
       /\ image.NRect dst = rect
       /\ forall a b, 0 <= a < other -> 0 <= b < dstLen ->
            exists st,
              rounded.resamplePixel fa src (coord a) weights (NewLanczos 3)
                srcLen dstLen b
              = Returns st
              /\ image.Pix dst (px a b) (py a b)
                 = color.nrgbaModel (color.NRGBA64_RGBA (narrow st)).
Proof.
  unfold roundedFilteredPass. intros H.
  apply bind_Returns in H. destruct H as ([weights |] & Hw & H).
  - right. apply bind_Returns in H. destruct H as (dst & Hfill & Hret).
    inversion Hret; subst r; clear Hret.
    exists weights, dst. split; [exact Hw |]. split; [reflexivity |].
    apply (fill_Returns 0 other 0 dstLen px py (roundedPassBody weights)
             (fun a b c =>
                exists st,
                  rounded.resamplePixel fa src (coord a) weights (NewLanczos 3)
                    srcLen dstLen b
                  = Returns st
                  /\ c = color.NRGBA64_RGBA (narrow st))) in Hfill.
    + destruct Hfill as (Hrect & Hall). split; [exact Hrect |].
      intros a b Ha Hb. destruct (Hall a b Ha Hb) as (c & (st & Hst & ->) & Hpix).
      exists st. split; [exact Hst | exact Hpix].
    + exact Hinj.
    + intros a b t t' _ _ Hb. unfold roundedPassBody in Hb.
      apply bind_Returns in Hb. destruct Hb as (st & Hst & Hret).
      inversion Hret; subst t'. eexists. split; [| reflexivity].
      exists st. split; [exact Hst | reflexivity].
    + exact Hin.
  - left. inversion H; subst r. split; [reflexivity |].
    now apply rounded_calculateWeights_nil_iff in Hw.
Qed.

End RoundedPassFacts.

Section RoundedPasses.

Import filters resize.

Variable fa : rounded.Arith.
Variable src : image.Image.

Let srcWidth := image.Dx (image.Bounds src).
Let srcHeight := image.Dy (image.Bounds src).
Let minX := image.X (image.Min (image.Bounds src)).
Let minY := image.Y (image.Min (image.Bounds src)).

Lemma rounded_resizeVertical_filtered (height : Z) :
  srcHeight <> height ->
  rounded.resizeVertical fa src height
  = roundedFilteredPass fa src srcHeight height srcWidth
      (fun x dstY => x) (fun x dstY => dstY)
      (fun x srcY => image.Pt (x + minX) (srcY + minY))
      (image.Rect 0 0 srcWidth height) ErrVerticalWeights.
Proof.
  intros H. unfold rounded.resizeVertical. fold srcHeight srcWidth.
  replace (srcHeight =? height) with false by lia. reflexivity.
Qed.

Lemma rounded_resizeHorizontal_filtered (width : Z) :
  srcWidth <> width ->
  rounded.resizeHorizontal fa src width
  = roundedFilteredPass fa src srcWidth width srcHeight
      (fun y dstX => dstX) (fun y dstX => y)
      (fun y srcX => image.Pt (srcX + minX) (y + minY))
      (image.Rect 0 0 width srcHeight) ErrHorizontalWeights.
Proof.
  intros H. unfold rounded.resizeHorizontal. fold srcHeight srcWidth.
  replace (srcWidth =? width) with false by lia. reflexivity.
Qed.

(** The pixels of the image a filtered vertical pass returns. *)
Lemma rounded_resizeVertical_pixels (height : Z) (dst : image.NRGBA) :
  srcHeight <> height ->
  rounded.resizeVertical fa src height = Returns (Some dst, None) ->
  exists weights,
    rounded.calculateWeights fa srcHeight height (OfLanczos (NewLanczos 3))
    = Returns (Some weights)
    /\ image.NRect dst = image.Rect 0 0 srcWidth height
    /\ forall x y, 0 <= x < srcWidth -> 0 <= y < height ->
         exists st,
           rounded.resamplePixel fa src
             (fun srcY => image.Pt (x + minX) (srcY + minY))
             weights (NewLanczos 3) srcHeight height y
           = Returns st
           /\ image.Pix dst x y = color.nrgbaModel (color.NRGBA64_RGBA (narrow st)).
Proof.
  intros E H. rewrite rounded_resizeVertical_filtered in H by exact E.
  apply roundedFilteredPass_Returns in H.
  - destruct H as [[H _] | (weights & dst' & Hw & H & Hrect & Hpix)];
      [discriminate |].
    inversion H; subst dst'. exists weights.
    split; [exact Hw |]. split; [exact Hrect |]. exact Hpix.
  - intros a b a' b' -> ->. auto.
  - intros a b Ha Hb. apply In_Rect_origin; assumption.
Qed.

(** The pixels of the image a filtered horizontal pass returns. *)
Lemma rounded_resizeHorizontal_pixels (width : Z) (dst : image.NRGBA) :
  srcWidth <> width ->
  rounded.resizeHorizontal fa src width = Returns (Some dst, None) ->
  exists weights,
    rounded.calculateWeights fa srcWidth width (OfLanczos (NewLanczos 3))
    = Returns (Some weights)
    /\ image.NRect dst = image.Rect 0 0 width srcHeight
    /\ forall x y, 0 <= x < width -> 0 <= y < srcHeight ->
         exists st,
           rounded.resamplePixel fa src
             (fun srcX => image.Pt (srcX + minX) (y + minY))
             weights (NewLanczos 3) srcWidth width x
           = Returns st
           /\ image.Pix dst x y = color.nrgbaModel (color.NRGBA64_RGBA (narrow st)).
Proof.
  intros E H. rewrite rounded_resizeHorizontal_filtered in H by exact E.
  apply roundedFilteredPass_Returns in H.
  - destruct H as [[H _] | (weights & dst' & Hw & H & Hrect & Hpix)];
      [discriminate |].
    inversion H; subst dst'. exists weights.
    split; [exact Hw |]. split; [exact Hrect |].
    intros x y Hx Hy. exact (Hpix y x Hy Hx).
  - intros a b a' b' -> ->. auto.
  - intros a b Ha Hb. apply In_Rect_origin; assumption.
Qed.

End RoundedPasses.

Section RoundedResize.

Import filters resize.

Variable fa : rounded.Arith.
Variable src : image.Image.
Variables width height : Z.

Let srcWidth := image.Dx (image.Bounds src).
Let srcHeight := image.Dy (image.Bounds src).

(** What the two-pass branch does with the result of the horizontal pass. *)
Definition roundedThenVertical (r : result) : outcome result :=
  match r with
  | (_, Some err) => Returns (None, Some err)
  | (None, None) => Panics
  | (Some intermediate, None) =>
      rounded.resizeVertical fa (image.as_Image intermediate) height
  end.

Lemma rounded_Resize_two_passes :
  0 < width -> 0 < height -> srcWidth <> width -> srcHeight <> height ->
  rounded.Resize fa (Some src) width height
  = bind (rounded.resizeHorizontal fa src width) roundedThenVertical.
Proof.
  intros Hw Hh Hdw Hdh. unfold rounded.Resize. fold srcWidth srcHeight.
  replace (width <=? 0) with false by lia.
  replace (height <=? 0) with false by lia.
  replace (srcWidth =? width) with false by lia.
  replace (srcHeight =? height) with false by lia.
  reflexivity.
Qed.

Lemma rounded_Resize_horizontal_only :
  0 < width -> 0 < height -> srcWidth <> width -> srcHeight = height ->
  rounded.Resize fa (Some src) width height = rounded.resizeHorizontal fa src width.
Proof.
  intros Hw Hh Hdw Hdh. unfold rounded.Resize. fold srcWidth srcHeight.
  replace (width <=? 0) with false by lia.
  replace (height <=? 0) with false by lia.
  replace (srcWidth =? width) with false by lia.
  replace (srcHeight =? height) with true by lia.
  reflexivity.
Qed.

Lemma rounded_Resize_vertical_only :
  0 < width -> 0 < height -> srcWidth = width ->
  rounded.Resize fa (Some src) width height = rounded.resizeVertical fa src height.
Proof.
  intros Hw Hh Hdw. unfold rounded.Resize. fold srcWidth srcHeight.
  replace (width <=? 0) with false by lia.
  replace (height <=? 0) with false by lia.
  replace (srcWidth =? width) with true by lia.
  reflexivity.
Qed.

Lemma rounded_Resize_image_sizes (dst : image.NRGBA) :
  rounded.Resize fa (Some src) width height = Returns (Some dst, None) ->
  0 < width /\ 0 < height.
Proof.
  unfold rounded.Resize.
  destruct ((width <=? 0) || (height <=? 0)) eqn:E; [discriminate |].
  apply orb_false_iff in E. lia.
Qed.

End RoundedResize.

Section RoundedChannelClaims.

Import filters resize.

(** The accumulators of the pixel [(x, y)] of the image [Resize] returns on
    the filtered path are those of the last pass it runs: the horizontal
    pass over the source when only the width differs, and otherwise the
    vertical pass, over the source or over the image of the horizontal
    pass. *)
Definition lastAccumulators (fa : rounded.Arith) (src : image.Image)
    (width height x y : Z) (st : accState) : Prop :=
  let srcWidth := image.Dx (image.Bounds src) in
  let srcHeight := image.Dy (image.Bounds src) in
  let filter := NewLanczos 3 in
  if srcHeight =? height then
    exists weights,
      rounded.calculateWeights fa srcWidth width (OfLanczos filter)
      = Returns (Some weights)
      /\ rounded.resamplePixel fa src
           (fun srcX => image.Pt (srcX + image.X (image.Min (image.Bounds src)))
                                 (y + image.Y (image.Min (image.Bounds src))))
           weights filter srcWidth width x
         = Returns st
  else
    exists from weights,
      (if srcWidth =? width then from = src
       else exists intermediate,
              rounded.resizeHorizontal fa src width
              = Returns (Some intermediate, None)
              /\ from = image.as_Image intermediate)
      /\ rounded.calculateWeights fa srcHeight height (OfLanczos filter)
         = Returns (Some weights)
      /\ rounded.resamplePixel fa from
           (fun srcY => image.Pt (x + image.X (image.Min (image.Bounds from)))
                                 (srcY + image.Y (image.Min (image.Bounds from))))
           weights filter srcHeight height y
         = Returns st.

(** C7. Whatever the rounding of [float64] is: each accumulated channel
    (red, green, blue, alpha) is clamped to [[0, 65535]] before it is
    narrowed ([0] below the range, [65535] above it, truncated within it),
    and every pixel of the image [Resize] returns on the filtered path is
    the one stored from the accumulators of that very pixel in the last
    pass, so clamped and narrowed; every channel of every output pixel lies
    in [[0, 65535]]. *)
Theorem filtered_channels_clamped (fa : rounded.Arith) :
  (forall st : accState,
      narrowedFrom (accR st) (color.R16 (narrow st))
      /\ narrowedFrom (accG st) (color.G16 (narrow st))
      /\ narrowedFrom (accB st) (color.B16 (narrow st))
      /\ narrowedFrom (accA st) (color.A16 (narrow st)))
  /\ (forall (src : image.Image) (width height : Z) (dst : image.NRGBA),
        0 <= image.Dy (image.Bounds src) ->
        image.Dx (image.Bounds src) <> width
        \/ image.Dy (image.Bounds src) <> height ->
        rounded.Resize fa (Some src) width height = Returns (Some dst, None) ->
        forall x y, 0 <= x < width -> 0 <= y < height ->
          exists st,
            lastAccumulators fa src width height x y st
            /\ image.Pix dst x y
               = color.nrgbaModel (color.NRGBA64_RGBA (narrow st))
            /\ RGBA_is16bit (image.NRGBA_At dst x y)).
Proof.
  split.
  - intros st. unfold narrow. cbn [color.R16 color.G16 color.B16 color.A16].
    repeat split; apply narrowedFrom_clamp.
  - intros src width height dst Hdy Hdiff Hrun x y Hx Hy.
    destruct (rounded_Resize_image_sizes fa src width height dst Hrun) as [Hw Hh].
    assert (H16 : forall st,
              image.Pix dst x y = color.nrgbaModel (color.NRGBA64_RGBA (narrow st)) ->
              RGBA_is16bit (image.NRGBA_At dst x y)).
    { intros st Hpix. unfold image.NRGBA_At.
      destruct (image.In (image.Pt x y) (image.NRect dst)).
      - rewrite Hpix. apply NRGBA_RGBA_is16bit, nrgbaModel_is8bit.
      - apply NRGBA_RGBA_is16bit. unfold NRGBA_is8bit, is8bit. simpl. lia. }
    unfold lastAccumulators. cbv zeta.
    destruct (Z.eq_dec (image.Dy (image.Bounds src)) height) as [Eh | Eh].
    + assert (Ew : image.Dx (image.Bounds src) <> width) by (destruct Hdiff; congruence).
      rewrite rounded_Resize_horizontal_only in Hrun by assumption.
      apply rounded_resizeHorizontal_pixels in Hrun; [| exact Ew].
      destruct Hrun as (weights & Hwt & _ & Hpix).
      destruct (Hpix x y Hx ltac:(lia)) as (st & Hst & Hp).
      exists st. replace (image.Dy (image.Bounds src) =? height) with true by lia.
      split; [exists weights; split; assumption |].
      split; [exact Hp | exact (H16 st Hp)].
    + replace (image.Dy (image.Bounds src) =? height) with false by lia.
      destruct (Z.eq_dec (image.Dx (image.Bounds src)) width) as [Ew | Ew].
      * rewrite rounded_Resize_vertical_only in Hrun by assumption.
        apply rounded_resizeVertical_pixels in Hrun; [| exact Eh].
        destruct Hrun as (weights & Hwt & _ & Hpix).
        destruct (Hpix x y ltac:(lia) Hy) as (st & Hst & Hp).
        exists st. split; [| split; [exact Hp | exact (H16 st Hp)]].
        exists src, weights.
        replace (image.Dx (image.Bounds src) =? width) with true by lia.
        split; [reflexivity |]. split; assumption.
      * rewrite rounded_Resize_two_passes in Hrun by assumption.
        apply bind_Returns in Hrun. destruct Hrun as (r1 & Hh1 & Hv).
        destruct r1 as [[mid |] [e |]]; cbn [roundedThenVertical] in Hv;
          try discriminate.
        pose proof Hh1 as Hmid.
        apply rounded_resizeHorizontal_pixels in Hmid; [| exact Ew].
        destruct Hmid as (_ & _ & Hmid & _).
        assert (Hmdy : image.Dy (image.Bounds (image.as_Image mid))
                       = image.Dy (image.Bounds src)).
        { cbn [image.as_Image image.Bounds]. rewrite Hmid.
          now apply Dy_Rect_origin. }
        assert (Hmdx : image.Dx (image.Bounds (image.as_Image mid)) = width).
        { cbn [image.as_Image image.Bounds]. rewrite Hmid.
          apply Dx_Rect_origin. lia. }
        apply rounded_resizeVertical_pixels in Hv; [| rewrite Hmdy; exact Eh].
        rewrite Hmdy, Hmdx in Hv.
        destruct Hv as (weights & Hwt & _ & Hpix).
        destruct (Hpix x y Hx Hy) as (st & Hst & Hp).
        exists st. split; [| split; [exact Hp | exact (H16 st Hp)]].
        exists (image.as_Image mid), weights.
        replace (image.Dx (image.Bounds src) =? width) with false by lia.
        split; [exists mid; split; [exact Hh1 | reflexivity] |].
        split; assumption.
Qed.

End RoundedChannelClaims.

(** ** Accumulators that leave the range: a red and a black pixel, doubled *)

Section ClampingWitness.

Import filters resize.
Local Open Scope R_scope.

(** A source of two pixels in a row, an opaque red and an opaque black. *)
Definition redThenBlack : image.Image :=
  image.mkImage (image.Rect 0 0 2 1)
    (fun x _ => if (x =? 0)%Z then color.mkRGBA 65535 0 0 65535
                else color.mkRGBA 0 0 0 65535).

Let kernel3 (x : float64) : float64 := Lanczos_Kernel (NewLanczos 3) x.

Lemma div_lower (a b c : R) : 0 < c -> a * c <= b -> a <= b / c.
Proof.
  intros Hc H. pose proof (Rinv_0_lt_compat c Hc) as Hi.
  replace a with (a * c * / c) by (field; lra).
  unfold Rdiv. apply Rmult_le_compat_r; lra.
Qed.

Lemma div_negative (b c : R) : b < 0 -> 0 < c -> b / c < 0.
Proof.
  intros Hb Hc. pose proof (Rinv_0_lt_compat c Hc) as Hi. unfold Rdiv. nra.
Qed.

Lemma sin_PI4_lower : 7 / 10 <= sin (PI / 4).
Proof.
  pose proof sin_PI4_square as Hsq.
  assert (Hpos : 0 < sin (PI / 4)).
  { pose proof PI_lower. pose proof PI_upper. apply sin_gt_0; lra. }
  nra.
Qed.

Lemma sin_PI12_lower : 1 / 4 <= sin (PI / 12).
Proof.
  pose proof PI_lower as Hlo. pose proof PI_upper as Hup.
  assert (Hpos : 0 < sin (PI / 12)) by (apply sin_gt_0; lra).
  pose proof (COS_bound (PI / 12)) as [_ Hcos].
  pose proof (sin_2a (PI / 12)) as H2.
  replace (2 * (PI / 12)) with (PI / 6) in H2 by lra.
  rewrite sin_PI6 in H2. nra.
Qed.

(** The kernel of radius 3 a quarter of a pixel away. *)
Lemma kernel3_quarter : 4 / 5 <= kernel3 (1 / 4).
Proof.
  unfold kernel3. rewrite Lanczos_Kernel_inside by (rewrite Rabs_pos_eq; simpl; lra).
  rewrite Rabs_pos_eq by lra. cbn [Radius].
  rewrite !sinc_nonzero by lra.
  pose proof PI_lower as Hlo. pose proof PI_upper as Hup.
  replace (PI * (1 / 4)) with (PI / 4) by lra.
  replace (PI * (1 / 4 / 3)) with (PI / 12) by lra.
  pose proof sin_PI4_lower as H4. pose proof sin_PI12_lower as H12.
  assert (Ha : 88 / 100 <= sin (PI / 4) / (PI / 4)) by (apply div_lower; lra).
  assert (Hb : 95 / 100 <= sin (PI / 12) / (PI / 12)) by (apply div_lower; lra).
  nra.
Qed.

(** The kernel of radius 3 a pixel and a quarter away: in its first negative
    lobe. *)
Lemma kernel3_five_quarters : - (3 / 10) <= kernel3 (5 / 4) < 0.
Proof.
  unfold kernel3. rewrite Lanczos_Kernel_inside by (rewrite Rabs_pos_eq; simpl; lra).
  rewrite Rabs_pos_eq by lra. cbn [Radius].
  pose proof PI_lower as Hlo. pose proof PI_upper as Hup.
  assert (Hs : 0 < sinc (5 / 4 / 3) <= 1).
  { split; [apply sinc_positive; lra |].
    pose proof (sinc_abs_le_1 (5 / 4 / 3)) as H. unfold Rabs in H.
    destruct (Rcase_abs (sinc (5 / 4 / 3))); lra. }
  assert (Hn : - (3 / 10) <= sinc (5 / 4) < 0).
  { rewrite sinc_nonzero by lra.
    assert (Hsin : sin (PI * (5 / 4)) = - sin (PI / 4)).
    { replace (PI * (5 / 4)) with (PI / 4 + PI) by lra. apply neg_sin. }
    rewrite Hsin.
    pose proof sin_PI4_lower as H4. pose proof (SIN_bound (PI / 4)) as [_ H1].
    split.
    - apply div_lower; lra.
    - apply div_negative; lra. }
  nra.
Qed.

Lemma kernel3_even (x : float64) : kernel3 (- x) = kernel3 x.
Proof. unfold kernel3, Lanczos_Kernel. now rewrite Rabs_Ropp. Qed.

(** The source range of the first and of the last of the four destination
    indices is the whole source. *)
Lemma redThenBlack_range (d : Z) :
  d = 0%Z \/ d = 3%Z ->
  let scale := scaleOf 2 4 in
  let support := supportOf (float64_of_int (Radius (NewLanczos 3))) scale in
  let center := centerOf d scale in
  support = 3 /\ center = IZR d / 2 - 1 / 4
  /\ leftOf center support = 0%Z /\ rightOf center support 2 = 1%Z.
Proof.
  intros Hd scale support center.
  assert (Hsup : support = 3).
  { unfold support, scale, scaleOf, supportOf, float64_of_int. simpl Radius.
    destruct (Rlt_dec 1 (2 / 4)); lra. }
  assert (Hc : center = IZR d / 2 - 1 / 4).
  { unfold center, scale, centerOf, scaleOf, float64_of_int. lra. }
  split; [exact Hsup |]. split; [exact Hc |].
  assert (Hd' : (0 <= d < 4)%Z) by lia.
  pose proof (leftOf_clamp 2 4 ltac:(lia) ltac:(lia) d Hd' support ltac:(lra)) as Hl.
  pose proof (rightOf_clamp 2 4 ltac:(lia) ltac:(lia) d Hd' support ltac:(lra)) as Hr.
  fold scale center in Hl, Hr. rewrite Hl, Hr, Hc, Hsup.
  assert (HdR : IZR d = 0 \/ IZR d = 3) by (destruct Hd as [-> | ->]; auto).
  assert (Hfl : (Zfloor (IZR d / 2 - 1 / 4 - 3) < 0)%Z).
  { apply lt_IZR. pose proof (Zfloor_bound (IZR d / 2 - 1 / 4 - 3)). lra. }
  assert (Hfr : (1 <= Zfloor (IZR d / 2 - 1 / 4 + 3))%Z).
  { apply Zfloor_lub. lra. }
  unfold clampInto. lia.
Qed.

(** The red accumulator of a destination pixel whose source range is the
    whole row: the red of the first source pixel times its weight. *)
Lemma redThenBlack_red (d : Z) (weights : list (list float64)) (st : accState) :
  d = 0%Z \/ d = 3%Z ->
  calculateWeights 2 4 (OfLanczos (NewLanczos 3)) = Returns (Some weights) ->
  resamplePixel redThenBlack (fun srcX => image.Pt (srcX + 0) (0 + 0)) weights
    (NewLanczos 3) 2 4 d
  = Returns st ->
  let k0 := kernel3 (- (IZR d / 2 - 1 / 4)) in
  let k1 := kernel3 (1 - (IZR d / 2 - 1 / 4)) in
  accR st = 0 + 65535 * normalized (0 + k0 + k1) k0 + 0 * normalized (0 + k0 + k1) k1.
Proof.
  intros Hd Hw Hst k0 k1.
  destruct (filtered_pixel_sums redThenBlack
              (fun srcX => image.Pt (srcX + 0) (0 + 0)) 2 4 d (NewLanczos 3)
              weights Hw ltac:(lia))
    as (st' & Hst' & HR & _).
  rewrite Hst in Hst'. inversion Hst'; subst st'; clear Hst'.
  destruct (redThenBlack_range d Hd) as (Hsup & Hc & Hl & Hr).
  cbv zeta in HR. rewrite Hl, Hr in HR.
  change (rangeCount 0 1) with 2%nat in HR.
  unfold channelSum in HR. cbn [sumWeights Z.of_nat Pos.of_succ_nat Z.add] in HR.
  cbn [image.X image.Y image.At redThenBlack Z.eqb color.red float64_of_int] in HR.
  unfold float64_of_int in HR.
  assert (Hk : forall s : Z,
            weightOf (OfLanczos (NewLanczos 3)) (scaleOf 2 4) (centerOf d (scaleOf 2 4)) s
            = kernel3 (IZR s - (IZR d / 2 - 1 / 4))).
  { intros s. unfold weightOf. rewrite Hc.
    destruct (Rlt_dec 1 (scaleOf 2 4)) as [H | _]; [| reflexivity].
    unfold scaleOf, float64_of_int in H. lra. }
  rewrite !Hk in HR.
  replace (0 - (IZR d / 2 - 1 / 4)) with (- (IZR d / 2 - 1 / 4)) in HR by lra.
  exact HR.
Qed.

Lemma quotient_above_one (k s : R) : 0 < s -> s < k -> 1 < k / s.
Proof.
  intros Hs Hk. pose proof (Rinv_0_lt_compat s Hs) as Hi.
  replace 1 with (s * / s) by (field; lra). unfold Rdiv.
  apply Rmult_lt_compat_r; lra.
Qed.

(** The first destination pixel: the black pixel lies in the negative lobe,
    so the weight of the red one exceeds 1 and the red accumulator leaves
    the range upwards. *)
Lemma redThenBlack_first (weights : list (list float64)) (st : accState) :
  calculateWeights 2 4 (OfLanczos (NewLanczos 3)) = Returns (Some weights) ->
  resamplePixel redThenBlack (fun srcX => image.Pt (srcX + 0) (0 + 0)) weights
    (NewLanczos 3) 2 4 0
  = Returns st ->
  65535 < accR st.
Proof.
  intros Hw Hst.
  rewrite (redThenBlack_red 0 weights st (or_introl eq_refl) Hw Hst).
  replace (- (0 / 2 - 1 / 4)) with (1 / 4) by lra.
  replace (1 - (0 / 2 - 1 / 4)) with (5 / 4) by lra.
  pose proof kernel3_quarter as Hq. pose proof kernel3_five_quarters as Hf.
  set (k0 := kernel3 (1 / 4)) in *. set (k1 := kernel3 (5 / 4)) in *.
  unfold normalized. destruct (Rlt_dec 0 (0 + k0 + k1)) as [_ | Hn]; [| lra].
  pose proof (quotient_above_one k0 (0 + k0 + k1) ltac:(lra) ltac:(lra)). lra.
Qed.

(** The last destination pixel: the red pixel lies in the negative lobe and
    the red accumulator leaves the range downwards. *)
Lemma redThenBlack_last (weights : list (list float64)) (st : accState) :
  calculateWeights 2 4 (OfLanczos (NewLanczos 3)) = Returns (Some weights) ->
  resamplePixel redThenBlack (fun srcX => image.Pt (srcX + 0) (0 + 0)) weights
    (NewLanczos 3) 2 4 3
  = Returns st ->
  accR st < 0.
Proof.
  intros Hw Hst.
  rewrite (redThenBlack_red 3 weights st (or_intror eq_refl) Hw Hst).
  replace (- (3 / 2 - 1 / 4)) with (- (5 / 4)) by lra.
  replace (1 - (3 / 2 - 1 / 4)) with (- (1 / 4)) by lra.
  rewrite !kernel3_even.
  pose proof kernel3_quarter as Hq. pose proof kernel3_five_quarters as Hf.
  set (k1 := kernel3 (1 / 4)) in *. set (k0 := kernel3 (5 / 4)) in *.
  unfold normalized. destruct (Rlt_dec 0 (0 + k0 + k1)) as [Hp | Hn]; [| lra].
  pose proof (div_negative k0 (0 + k0 + k1) ltac:(lra) Hp). lra.
Qed.

Lemma filtered_channels_clamped_witness :
  exists dst above below,
    rounded.Resize rounded.exact (Some redThenBlack) 4 1 = Returns (Some dst, None)
    /\ lastAccumulators rounded.exact redThenBlack 4 1 0 0 above
    /\ 65535 < accR above
    /\ color.R16 (narrow above) = 65535%Z
    /\ image.Pix dst 0 0 = color.nrgbaModel (color.NRGBA64_RGBA (narrow above))
    /\ lastAccumulators rounded.exact redThenBlack 4 1 3 0 below
    /\ accR below < 0
    /\ color.R16 (narrow below) = 0%Z
    /\ image.Pix dst 3 0 = color.nrgbaModel (color.NRGBA64_RGBA (narrow below)).
Proof.
  destruct (Resize_upsampling redThenBlack 4 1) as (dst & Hdst);
    [vm_compute; split; discriminate .. |].
  destruct (filtered_channels_clamped rounded.exact) as [Hnarrow Hpixels].
  assert (Hpix : forall x, (0 <= x < 4)%Z ->
            exists st,
              lastAccumulators rounded.exact redThenBlack 4 1 x 0 st
              /\ image.Pix dst x 0 = color.nrgbaModel (color.NRGBA64_RGBA (narrow st))).
  { intros x Hx.
    destruct (Hpixels redThenBlack 4%Z 1%Z dst) with (x := x) (y := 0%Z)
      as (st & Hlast & Hp & _);
      [vm_compute; discriminate | left; vm_compute; discriminate | exact Hdst
      | exact Hx | lia |].
    exists st. split; assumption. }
  destruct (Hpix 0%Z ltac:(lia)) as (above & Habove & Hpa).
  destruct (Hpix 3%Z ltac:(lia)) as (below & Hbelow & Hpb).
  exists dst, above, below.
  assert (Ha : 65535 < accR above).
  { destruct Habove as (weights & Hw & Hst). exact (redThenBlack_first weights above Hw Hst). }
  assert (Hb : accR below < 0).
  { destruct Hbelow as (weights & Hw & Hst). exact (redThenBlack_last weights below Hw Hst). }
  destruct (Hnarrow above) as ((_ & _ & _ & _ & Hhigh & _) & _).
  destruct (Hnarrow below) as ((_ & _ & _ & Hlow & _) & _).
  repeat split; auto.
Defined.

End ClampingWitness.
